(** * Workflow health checks: a shallow embedding of [workflow_health_check.py]

    The development follows the Python module section by section: text
    helpers, the regular expressions of the module, the [Finding]/[Report]
    model, [detect_cycle], the plan validator and the issues validator.
    Definitions come first, the theorems about them afterwards.

    Conventions of the embedding.
    - A Python [str] is a Rocq [string]; its characters are read as the code
      points 0..255.  The whitespace class ([str.strip], [\s]) and the case
      mapping ([str.lower], [re.IGNORECASE]) are Python's on that range.
    - A Python [dict] that is only looked up and updated by key is a [gmap];
      a dict whose iteration order is observed is an association list.
    - A function that can raise returns a [res]: [Ok v], [Raise e], or
      [Timeout] when a fuel-bounded loop of the model runs out of fuel.
    - The interpreter's recursion limit is modelled for [detect_cycle]
      alone, as [detect_cycle_limited]; the validators call the search as
      if the stack had no bound. *)

From stdpp Require Import gmap strings list fin_maps.
From Stdlib Require Import Ascii ZArith DecimalString Lia.

Local Open Scope string_scope.
Local Open Scope list_scope.
Local Open Scope nat_scope.

(* ===================================================================== *)
(** * Text helpers (Python's [str] methods used by the module)           *)
(* ===================================================================== *)

Module Text.

Abbreviation chars := (list ascii).

Definition LF : ascii := ascii_of_nat 10.
Definition CR : ascii := ascii_of_nat 13.

(** [str.isspace] on one character, for code points below 256. *)
Definition isspace (c : ascii) : bool :=
  let n := nat_of_ascii c in
  ((9 <=? n) && (n <=? 13)) || ((28 <=? n) && (n <=? 32))
  || (n =? 133) || (n =? 160).

(** [str.isdigit] restricted to the decimal digits the range has, which is
    also what [\d] and [[0-9]] match there. *)
Definition isdigit (c : ascii) : bool :=
  let n := nat_of_ascii c in (48 <=? n) && (n <=? 57).

(** [str.lower] on one character. *)
Definition lower_char (c : ascii) : ascii :=
  let n := nat_of_ascii c in
  if ((65 <=? n) && (n <=? 90))
     || ((192 <=? n) && (n <=? 222) && negb (n =? 215))
  then ascii_of_nat (n + 32) else c.

Definition lower_chars (s : chars) : chars := map lower_char s.

Definition lower (s : string) : string :=
  String.string_of_list_ascii (lower_chars (String.list_ascii_of_string s)).

(** [s.lstrip()], [s.rstrip()] and [s.strip()]. *)
Fixpoint lstrip_chars (s : chars) : chars :=
  match s with
  | c :: s' => if isspace c then lstrip_chars s' else s
  | [] => []
  end.

Definition rstrip_chars (s : chars) : chars :=
  rev (lstrip_chars (rev s)).

Definition strip_chars (s : chars) : chars :=
  rstrip_chars (lstrip_chars s).

Definition strip (s : string) : string :=
  String.string_of_list_ascii (strip_chars (String.list_ascii_of_string s)).

(** Truth value of a string: [bool(s)]. *)
Definition nonempty (s : string) : bool :=
  match s with EmptyString => false | _ => true end.

(** [bool(s.strip())]. *)
Definition nonblank (s : string) : bool := nonempty (strip s).

(** [s.startswith(p)]. *)
Fixpoint startswith_chars (p s : chars) : bool :=
  match p, s with
  | [], _ => true
  | a :: p', b :: s' => Ascii.eqb a b && startswith_chars p' s'
  | _ :: _, [] => false
  end.

Definition startswith (p s : string) : bool :=
  startswith_chars (String.list_ascii_of_string p) (String.list_ascii_of_string s).



(** [sep.join(l)]. *)
Fixpoint join (sep : string) (l : list string) : string :=
  match l with
  | [] => ""
  | [x] => x
  | x :: rest => x +:+ sep +:+ join sep rest
  end.

(** [str(n)] for an [int]. *)
Definition str_of_Z (n : Z) : string := NilZero.string_of_int (Z.to_int n).
Definition str_of_nat (n : nat) : string := str_of_Z (Z.of_nat n).

(** The line boundaries of [str.splitlines] in the range: LF, VT, FF, CR,
    FS, GS, RS and NEL; CR LF counts as one boundary. *)
Definition is_linebreak (c : ascii) : bool :=
  let n := nat_of_ascii c in
  ((10 <=? n) && (n <=? 13)) || ((28 <=? n) && (n <=? 30)) || (n =? 133).

(** [splitlines_from cur s]: [cur] is the current line, reversed. *)
Fixpoint splitlines_from (cur : chars) (s : chars) : list chars :=
  match s with
  | [] => match cur with [] => [] | _ => [rev cur] end
  | c :: s' =>
      if is_linebreak c then
        match s' with
        | d :: s'' =>
            if Ascii.eqb c CR && Ascii.eqb d LF
            then rev cur :: splitlines_from [] s''
            else rev cur :: splitlines_from [] s'
        | [] => [rev cur]
        end
      else splitlines_from (c :: cur) s'
  end.

Definition splitlines (s : string) : list string :=
  map String.string_of_list_ascii (splitlines_from [] (String.list_ascii_of_string s)).

End Text.

(* ===================================================================== *)
(** * Outcomes of fallible code                                          *)
(* ===================================================================== *)

(** The exceptions the modelled code can raise. *)
Inductive exn :=
| TypeError (what : string)
| RecursionError.

(** [Ok v]: normal return.  [Raise e]: exception [e] propagates.
    [Timeout]: a fuel-bounded loop of the model ran out of fuel (the
    theorems show that the fuel the model provides is always enough). *)
Inductive res (A : Type) :=
| Ok (a : A)
| Raise (e : exn)
| Timeout.
Arguments Ok {A} a.
Arguments Raise {A} e.
Arguments Timeout {A}.

Definition bind {A B} (m : res A) (k : A -> res B) : res B :=
  match m with
  | Ok a => k a
  | Raise e => Raise e
  | Timeout => Timeout
  end.

Notation "'let*' x ':=' m 'in' k" := (bind m (fun x => k))
  (at level 10, x pattern, m at level 100, k at level 200,
   format "'[v' 'let*'  x  ':='  m  'in' '/' k ']'").

(** A [for] loop whose body can raise: the state is threaded through. *)
Fixpoint for_each {A S} (l : list A) (body : S -> A -> res S) (s : S) : res S :=
  match l with
  | [] => Ok s
  | x :: rest => let* s' := body s x in for_each rest body s'
  end.

(* ===================================================================== *)
(** * Finding and Report (lines 82-112)                                  *)
(* ===================================================================== *)

Inductive severity := ERROR | WARN | INFO.

Definition severity_eqb (a b : severity) : bool :=
  match a, b with
  | ERROR, ERROR | WARN, WARN | INFO, INFO => true
  | _, _ => false
  end.

Record Finding := mkFinding {
  f_severity : severity;
  f_message : string;
  f_location : string
}.

Record Report := mkReport {
  name : string;
  findings : list Finding
}.

Module ReportOps.

(** [Report(name)]: a fresh report. *)
Definition new (n : string) : Report := mkReport n [].

(** [self.findings.append(Finding(severity, message, location))]. *)
Definition add (r : Report) (sev : severity) (message location : string) : Report :=
  mkReport (name r) (findings r ++ [mkFinding sev message location]).

Definition error (r : Report) (message location : string) : Report :=
  add r ERROR message location.

Definition warn (r : Report) (message location : string) : Report :=
  add r WARN message location.

Definition info (r : Report) (message location : string) : Report :=
  add r INFO message location.

(** [sum(1 for f in self.findings if f.severity == sev)]. *)
Fixpoint count_severity (sev : severity) (l : list Finding) : nat :=
  match l with
  | [] => 0
  | f :: rest =>
      (if severity_eqb (f_severity f) sev then 1 else 0) + count_severity sev rest
  end.

Definition errors (r : Report) : nat := count_severity ERROR (findings r).
Definition warnings (r : Report) : nat := count_severity WARN (findings r).

(** One call of [error], [warn] or [info]. *)
Inductive append_call :=
| CallError (message location : string)
| CallWarn (message location : string)
| CallInfo (message location : string).

Definition call_severity (c : append_call) : severity :=
  match c with
  | CallError _ _ => ERROR
  | CallWarn _ _ => WARN
  | CallInfo _ _ => INFO
  end.

Definition call_finding (c : append_call) : Finding :=
  match c with
  | CallError m l => mkFinding ERROR m l
  | CallWarn m l => mkFinding WARN m l
  | CallInfo m l => mkFinding INFO m l
  end.

Definition apply_call (r : Report) (c : append_call) : Report :=
  match c with
  | CallError m l => error r m l
  | CallWarn m l => warn r m l
  | CallInfo m l => info r m l
  end.

Definition apply_calls (r : Report) (cs : list append_call) : Report :=
  fold_left apply_call cs r.

End ReportOps.

(* ===================================================================== *)
(** * detect_cycle (lines 161-192)                                       *)
(* ===================================================================== *)

Module Cycle.

(** The two dictionaries of [detect_cycle]: [state] (0 unseen, 1 visiting,
    2 done) and [parent]. *)
Record search := mkSearch {
  state : gmap string nat;
  parent : gmap string string
}.

(** [state.get(n, 0)]. *)
Definition state_get (s : search) (n : string) : nat :=
  default 0 (state s !! n).

(** [state[n] = v]. *)
Definition set_state (n : string) (v : nat) (s : search) : search :=
  mkSearch (<[n := v]> (state s)) (parent s).

(** [parent[n] = p]. *)
Definition set_parent (n p : string) (s : search) : search :=
  mkSearch (state s) (<[n := p]> (parent s)).

(** [edges.get(node, [])]. *)
Definition edges_get (edges : gmap string (list string)) (node : string)
  : list string :=
  default [] (edges !! node).

(** The [while cur != nxt and cur in parent] loop: returns [chain] after
    the loop, given [chain] and [cur] before it.  [None] when [fuel] loop
    tests were not enough. *)
Fixpoint walk_parents (fuel : nat) (par : gmap string string)
    (nxt cur : string) (chain : list string) : option (list string) :=
  match fuel with
  | 0 => None
  | S fuel' =>
      if negb (String.eqb cur nxt) then
        match par !! cur with
        | Some p => walk_parents fuel' par nxt p (chain ++ [cur])
        | None => Some chain
        end
      else Some chain
  end.

(** The [elif nxt_state == 1] branch: builds the reported cycle. *)
Definition build_cycle (s : search) (node nxt : string) : res (list string) :=
  match walk_parents (S (size (parent s))) (parent s) nxt node [nxt] with
  | Some chain => Ok (rev (chain ++ [nxt]))
  | None => Timeout
  end.

(** Truth value of [cycle] in [if cycle:]. *)
Definition truthy (c : option (list string)) : bool :=
  match c with
  | Some (_ :: _) => true
  | _ => false
  end.

(** The [for nxt in edges.get(node, [])] loop of [dfs], with the state
    updates that follow it; [rec] is the recursive call [dfs]. *)
Section DfsLoop.
Variable rec : string -> search -> res (search * option (list string)).
Variable node : string.

Fixpoint dfs_loop (succs : list string) (s : search)
    : res (search * option (list string)) :=
  match succs with
  | [] => Ok (set_state node 2 s, None)
  | nxt :: rest =>
      match state_get s nxt with
      | 0 =>
          let* (s', cycle) := rec nxt (set_parent nxt node s) in
          if truthy cycle then Ok (s', cycle) else dfs_loop rest s'
      | 1 =>
          let* chain := build_cycle s node nxt in
          Ok (s, Some chain)
      | _ => dfs_loop rest s
      end
  end.
End DfsLoop.

(** The inner function [dfs]; [fuel] bounds the depth of the recursion. *)
Fixpoint dfs (edges : gmap string (list string)) (fuel : nat)
    (node : string) (s : search) : res (search * option (list string)) :=
  match fuel with
  | 0 => Timeout
  | S fuel' =>
      dfs_loop (dfs edges fuel') node (edges_get edges node)
               (set_state node 1 s)
  end.

(** The final [for node in nodes] loop. *)
Fixpoint top_loop (edges : gmap string (list string)) (fuel : nat)
    (nodes : list string) (s : search) : res (option (list string)) :=
  match nodes with
  | [] => Ok None
  | node :: rest =>
      if state_get s node =? 0 then
        let* (s', cycle) := dfs edges fuel node s in
        if truthy cycle then Ok cycle else top_loop edges fuel rest s'
      else top_loop edges fuel rest s
  end.

(** [{n: 0 for n in nodes}]. *)
Definition init_state (nodes : list string) : gmap string nat :=
  fold_left (fun m n => <[n := 0]> m) nodes ∅.

(** Every string that can become a key of [state]: the nodes and the edge
    targets.  One more than their number bounds the recursion depth. *)
Definition candidates (nodes : list string) (edges : gmap string (list string))
  : list string :=
  nodes ++ List.concat (map snd (map_to_list edges)).

Definition depth_bound (nodes : list string) (edges : gmap string (list string))
  : nat :=
  S (length (candidates nodes edges)).

Definition detect_cycle_fuel (fuel : nat) (nodes : list string)
    (edges : gmap string (list string)) : res (option (list string)) :=
  top_loop edges fuel nodes (mkSearch (init_state nodes) ∅).

Definition detect_cycle (nodes : list string)
    (edges : gmap string (list string)) : res (option (list string)) :=
  detect_cycle_fuel (depth_bound nodes edges) nodes edges.

(** The same search under the interpreter's recursion limit: [depth] is
    the number of nested calls of [dfs] that the interpreter still allows;
    the call after the last one raises [RecursionError], which nothing
    catches. *)
Fixpoint dfs_limited (edges : gmap string (list string)) (depth : nat)
    (node : string) (s : search) : res (search * option (list string)) :=
  match depth with
  | 0 => Raise RecursionError
  | S depth' =>
      dfs_loop (dfs_limited edges depth') node (edges_get edges node)
               (set_state node 1 s)
  end.

Fixpoint top_loop_limited (edges : gmap string (list string)) (limit : nat)
    (nodes : list string) (s : search) : res (option (list string)) :=
  match nodes with
  | [] => Ok None
  | node :: rest =>
      if state_get s node =? 0 then
        let* (s', cycle) := dfs_limited edges limit node s in
        if truthy cycle then Ok cycle else top_loop_limited edges limit rest s'
      else top_loop_limited edges limit rest s
  end.

(** [detect_cycle] when the interpreter allows [limit] nested calls of
    [dfs]. *)
Definition detect_cycle_limited (limit : nat) (nodes : list string)
    (edges : gmap string (list string)) : res (option (list string)) :=
  top_loop_limited edges limit nodes (mkSearch (init_state nodes) ∅).

End Cycle.

(* ===================================================================== *)
(** * Regular expressions (the fragment of [re] the module uses)         *)
(* ===================================================================== *)

Module Re.
Import Text.

(** Character classes: [\s], [\S], [[0-9]] (also [\d]) and [.]. *)
Inductive cclass := Space | NonSpace | Digit | Dot.

Definition in_class (c : cclass) (a : ascii) : bool :=
  match c with
  | Space => isspace a
  | NonSpace => negb (isspace a)
  | Digit => isdigit a
  | Dot => negb (Ascii.eqb a LF)
  end.

(** Patterns.  Repetition is greedy and only applies to character classes,
    as in every pattern of the module. *)
Inductive re :=
| Eps
| Bol                      (* ^ *)
| Eol                      (* $ *)
| Lit (s : string)         (* literal text *)
| Star (c : cclass)        (* c* *)
| Plus (c : cclass)        (* c+ *)
| Opt (r : re)             (* (?:r)? *)
| Group (r : re)           (* (r) *)
| Seq (r1 r2 : re).

Fixpoint seq (rs : list re) : re :=
  match rs with
  | [] => Eps
  | [r] => r
  | r :: rest => Seq r (seq rest)
  end.

Record flags := mkFlags { ignorecase : bool; multiline : bool }.

(** A position in the subject: the character before it, the text after it,
    and the groups closed so far (in the module's patterns groups are not
    nested, so this is their numbering order). *)
Record mstate := mkM {
  prev : option ascii;
  rest : chars;
  groups : list chars
}.

Definition char_eq (fl : flags) (a b : ascii) : bool :=
  if ignorecase fl then Ascii.eqb (lower_char a) (lower_char b)
  else Ascii.eqb a b.

Definition at_bol (fl : flags) (st : mstate) : bool :=
  match prev st with
  | None => true
  | Some c => multiline fl && Ascii.eqb c LF
  end.

Definition at_eol (fl : flags) (st : mstate) : bool :=
  match rest st with
  | [] => true
  | c :: tl =>
      Ascii.eqb c LF && (multiline fl || match tl with [] => true | _ => false end)
  end.

(** Consuming literal text. *)
Fixpoint eat (fl : flags) (lit : chars) (p : option ascii) (s : chars)
  : option (option ascii * chars) :=
  match lit with
  | [] => Some (p, s)
  | a :: lit' =>
      match s with
      | b :: s' => if char_eq fl a b then eat fl lit' (Some b) s' else None
      | [] => None
      end
  end.

Section Matcher.
Context {R : Type}.
Variable fl : flags.

(** Greedy repetition of a class: take as many characters as possible,
    give back one at a time while the continuation fails. *)
Fixpoint rep (c : cclass) (p : option ascii) (s : chars)
    (k : option ascii -> chars -> option R) : option R :=
  match s with
  | a :: s' =>
      if in_class c a then
        match rep c (Some a) s' k with
        | Some r => Some r
        | None => k p s
        end
      else k p s
  | [] => k p s
  end.

(** Backtracking matcher in continuation-passing style. *)
Fixpoint run (r : re) (st : mstate) (k : mstate -> option R) : option R :=
  match r with
  | Eps => k st
  | Bol => if at_bol fl st then k st else None
  | Eol => if at_eol fl st then k st else None
  | Lit s =>
      match eat fl (String.list_ascii_of_string s) (prev st) (rest st) with
      | Some (p, s') => k (mkM p s' (groups st))
      | None => None
      end
  | Star c =>
      rep c (prev st) (rest st) (fun p s' => k (mkM p s' (groups st)))
  | Plus c =>
      match rest st with
      | a :: s' =>
          if in_class c a
          then rep c (Some a) s' (fun p s' => k (mkM p s' (groups st)))
          else None
      | [] => None
      end
  | Opt r' =>
      match run r' st k with
      | Some x => Some x
      | None => k st
      end
  | Group r' =>
      run r' st (fun st' =>
        k (mkM (prev st') (rest st')
               (groups st' ++
                [firstn (length (rest st) - length (rest st')) (rest st)])))
  | Seq r1 r2 => run r1 st (fun st' => run r2 st' k)
  end.
End Matcher.

(** [re.compile(r, flags).match(s)]: the final position, holding the
    groups, or [None]. *)
Definition match_ (fl : flags) (r : re) (s : chars) : option mstate :=
  run fl r (mkM None s []) Some.

(** [m.group(i)] for [i >= 1]. *)
Definition group (i : nat) (m : mstate) : chars :=
  nth (i - 1) (groups m) [].

(** [bool(re.search(r, s, flags))]: a match starting at some position. *)
Fixpoint search_from (fl : flags) (r : re) (p : option ascii) (s : chars) : bool :=
  match run fl r (mkM p s []) Some with
  | Some _ => true
  | None =>
      match s with
      | a :: s' => search_from fl r (Some a) s'
      | [] => false
      end
  end.

Definition search (fl : flags) (r : re) (s : string) : bool :=
  search_from fl r None (String.list_ascii_of_string s).

(** [re.compile(r, flags).findall(s)] for a pattern with one group that
    matches no empty text: group 1 of the successive matches.  [skip]
    counts the characters of the last match still to be passed over. *)
Fixpoint findall_from (fl : flags) (r : re) (skip : nat) (p : option ascii)
    (s : chars) : list chars :=
  match skip with
  | S n =>
      match s with
      | a :: s' => findall_from fl r n (Some a) s'
      | [] => []
      end
  | 0 =>
      match run fl r (mkM p s []) Some with
      | Some m =>
          group 1 m ::
          match s with
          | a :: s' =>
              findall_from fl r (length s - length (rest m) - 1) (Some a) s'
          | [] => []
          end
      | None =>
          match s with
          | a :: s' => findall_from fl r 0 (Some a) s'
          | [] => []
          end
      end
  end.

Definition findall (fl : flags) (r : re) (s : string) : list string :=
  map String.string_of_list_ascii
      (findall_from fl r 0 None (String.list_ascii_of_string s)).

Definition no_flags : flags := mkFlags false false.
Definition IGNORECASE : flags := mkFlags true false.
Definition IGNORECASE_MULTILINE : flags := mkFlags true true.

(** [[0-9]+(?:\.[0-9]+)?] *)
Definition task_number : re := seq [Plus Digit; Opt (seq [Lit "."; Plus Digit])].

(** [TASK_HEADER_RE = ^###\s+Task\s+([0-9]+(?:\.[0-9]+)?):\s+(.+)$] *)
Definition TASK_HEADER_RE : re :=
  seq [Bol; Lit "###"; Plus Space; Lit "Task"; Plus Space; Group task_number;
       Lit ":"; Plus Space; Group (Plus Dot); Eol].

(** [TASK_REF_RE = Task\s+([0-9]+(?:\.[0-9]+)?)], compiled with
    [re.IGNORECASE]. *)
Definition TASK_REF_RE : re :=
  seq [Lit "Task"; Plus Space; Group task_number].

(** [REF_RE = ^(.+):(\d+)(?:-(\d+))?$] *)
Definition REF_RE : re :=
  seq [Bol; Group (Plus Dot); Lit ":"; Group (Plus Digit);
       Opt (seq [Lit "-"; Group (Plus Digit)]); Eol].

(** The pattern of [extract_field]: line start, [\s*], the literal text
    [**field_name:**] (the name escaped by [re.escape]), [\s*], a group
    holding [.*], [\s*], line end. *)
Definition field_re (field_name : string) : re :=
  seq [Bol; Star Space; Lit "**"; Lit field_name; Lit ":**"; Star Space;
       Group (Star Dot); Star Space; Eol].

(** The header patterns of [check_plan]:
    [^\s*\*\*Word(\s+Word)?:\*\*\s*\S+]. *)
Definition header_re (words : list string) : re :=
  match words with
  | [w] =>
      seq [Bol; Star Space; Lit "**"; Lit w; Lit ":**"; Star Space; Plus NonSpace]
  | [w1; w2] =>
      seq [Bol; Star Space; Lit "**"; Lit w1; Plus Space; Lit w2; Lit ":**";
           Star Space; Plus NonSpace]
  | _ => Eps
  end.

End Re.

(* ===================================================================== *)
(** * Reading a file (lines 115-126)                                     *)
(* ===================================================================== *)

(** What the file system holds at a path, as [read_text] sees it. *)
Inductive file (A : Type) :=
| NoSuchFile
| NotAFile
| NotUtf8
| Content (a : A).
Arguments NoSuchFile {A}.
Arguments NotAFile {A}.
Arguments NotUtf8 {A}.
Arguments Content {A} a.

Definition read_text {A} (f : file A) (path : string) (report : Report)
  : Report * option A :=
  match f with
  | NoSuchFile => (ReportOps.error report "File does not exist" path, None)
  | NotAFile => (ReportOps.error report "Path is not a file" path, None)
  | NotUtf8 => (ReportOps.error report "File is not UTF-8 decodable" path, None)
  | Content a => (report, Some a)
  end.

(* ===================================================================== *)
(** * The plan validator (lines 214-313)                                 *)
(* ===================================================================== *)

Module Plan.
Import Text.

(** A task: [(task_id, title, start_line, block)]. *)
Record task := mkTask {
  task_id : string;
  title : string;
  start_line : nat;
  block : list string
}.

(** The first loop of [parse_tasks]: [(id, title, idx)] for every line
    whose stripped text matches [TASK_HEADER_RE]; [idx] counts from 1. *)
Fixpoint starts_from (idx : nat) (lines : list string)
  : list (string * string * nat) :=
  match lines with
  | [] => []
  | line :: rest =>
      match Re.match_ Re.no_flags Re.TASK_HEADER_RE
              (String.list_ascii_of_string (strip line)) with
      | Some m =>
          (String.string_of_list_ascii (Re.group 1 m),
           String.string_of_list_ascii (strip_chars (Re.group 2 m)), idx)
          :: starts_from (S idx) rest
      | None => starts_from (S idx) rest
      end
  end.

(** [lines[a:b]]. *)
Definition slice {A} (l : list A) (a b : nat) : list A :=
  firstn (b - a) (skipn a l).

(** The second loop of [parse_tasks]. *)
Fixpoint blocks (lines : list string) (starts : list (string * string * nat))
  : list task :=
  match starts with
  | [] => []
  | (tid, ttl, start) :: rest =>
      let end_line :=
        match rest with
        | (_, _, next) :: _ => next - 1
        | [] => length lines
        end in
      mkTask tid ttl start (slice lines (start - 1) end_line)
      :: blocks lines rest
  end.

Definition parse_tasks (plan_text : string) : list task :=
  let lines := splitlines plan_text in
  blocks lines (starts_from 1 lines).

(** [field_re.match(line)] and, on a match, [m.group(1)]. *)
Definition field_match (field_name : string) (line : chars) : option chars :=
  match Re.match_ Re.IGNORECASE (Re.field_re field_name) line with
  | Some m => Some (Re.group 1 m)
  | None => None
  end.

Fixpoint extract_field_chars (block : list chars) (field_name : string) : chars :=
  match block with
  | [] => []
  | line :: rest =>
      match field_match field_name line with
      | Some g => strip_chars g
      | None => extract_field_chars rest field_name
      end
  end.

Definition extract_field (block : list string) (field_name : string) : string :=
  String.string_of_list_ascii
    (extract_field_chars (map String.list_ascii_of_string block) field_name).

Definition parse_depends (raw_value : string) : list string :=
  let value := strip raw_value in
  if negb (nonempty value) || String.eqb (lower value) "none" then []
  else Re.findall Re.IGNORECASE Re.TASK_REF_RE value.

Definition header_patterns : list (string * Re.re) :=
  [("Goal", Re.header_re ["Goal"]);
   ("Architecture", Re.header_re ["Architecture"]);
   ("Tech Stack", Re.header_re ["Tech"; "Stack"]);
   ("Execution Context", Re.header_re ["Execution"; "Context"])].

Definition required_fields : list string :=
  ["Priority"; "Area"; "Depends On"; "Acceptance Criteria"; "Review (Dev)";
   "Review (Regression)"].

Definition mem (x : string) (l : list string) : bool :=
  existsb (String.eqb x) l.

(** The body of [for task_id, title, start_line, block in tasks]. *)
Definition check_task (plan_path : string) (ids : list string)
    (acc : Report * gmap string (list string)) (t : task)
  : Report * gmap string (list string) :=
  let '(report, edges) := acc in
  let location := plan_path +:+ ":" +:+ str_of_nat (start_line t) in
  let report :=
    fold_left (fun r field_name =>
      if negb (nonempty (extract_field (block t) field_name)) then
        ReportOps.error r
          ("Task " +:+ task_id t +:+ " (" +:+ title t +:+ ") missing field `"
           +:+ field_name +:+ "`") location
      else r) required_fields report in
  let priority := extract_field (block t) "Priority" in
  let report :=
    if nonempty priority && negb (mem priority ["P0"; "P1"; "P2"]) then
      ReportOps.error report
        ("Task " +:+ task_id t +:+ " invalid Priority `" +:+ priority +:+ "`")
        location
    else report in
  let depends_raw := extract_field (block t) "Depends On" in
  let deps := parse_depends depends_raw in
  let edges := <[task_id t := deps]> edges in
  let report :=
    if nonempty depends_raw && negb (String.eqb (lower depends_raw) "none")
       && match deps with [] => true | _ => false end then
      ReportOps.error report
        ("Task " +:+ task_id t +:+ " has invalid Depends On `" +:+ depends_raw
         +:+ "`") location
    else report in
  let report :=
    fold_left (fun r dep =>
      let r :=
        if negb (mem dep ids) then
          ReportOps.error r
            ("Task " +:+ task_id t +:+ " depends on unknown Task " +:+ dep)
            location
        else r in
      if String.eqb dep (task_id t) then
        ReportOps.error r ("Task " +:+ task_id t +:+ " cannot depend on itself")
          location
      else r) deps report in
  let report :=
    if negb (existsb (fun line => startswith "**Files:**" (strip line)) (block t))
    then ReportOps.error report
           ("Task " +:+ task_id t +:+ " missing `**Files:**` section") location
    else report in
  (report, edges).

(** [check_plan], from the parsed tasks on (lines 267-313).  [set_iter l]
    is the order in which Python iterates over the set built from [l]. *)
Definition check_tasks (set_iter : list string -> list string)
    (plan_path : string) (tasks : list task) (report : Report) : res Report :=
  let ids := map task_id tasks in
  let task_ids := set_iter ids in
  let edges : gmap string (list string) :=
    fold_left (fun m tid => <[tid := []]> m) task_ids ∅ in
  let '(report, edges) :=
    fold_left (check_task plan_path ids) tasks (report, edges) in
  let* cycle := Cycle.detect_cycle task_ids edges in
  if Cycle.truthy cycle then
    Ok (ReportOps.error report
          ("Task dependency cycle detected: "
           +:+ join " -> " (default [] cycle)) plan_path)
  else Ok report.

Definition check_plan (set_iter : list string -> list string)
    (f : file string) (plan_path : string) : res Report :=
  let report := ReportOps.new "plan" in
  match read_text f plan_path report with
  | (report, None) => Ok report
  | (report, Some text) =>
      let report :=
        fold_left (fun r '(label, pattern) =>
          if negb (Re.search Re.IGNORECASE_MULTILINE pattern text) then
            ReportOps.error r ("Missing required header `" +:+ label +:+ "`")
              plan_path
          else r) header_patterns report in
      let tasks := parse_tasks text in
      match tasks with
      | [] =>
          Ok (ReportOps.error report "No task section found (`### Task N:`)"
                plan_path)
      | _ => check_tasks set_iter plan_path tasks report
      end
  end.

End Plan.

(* ===================================================================== *)
(** * JSON values, as [json.loads] returns them                           *)
(* ===================================================================== *)

#[local] Set Warnings "-register-all".

(** A float is kept by its [repr]; a dict keeps the order of its keys. *)
Inductive json :=
| JNull
| JBool (b : bool)
| JInt (n : Z)
| JFloat (repr : string)
| JStr (s : string)
| JList (l : list json)
| JDict (d : list (string * json)).

Abbreviation dict := (list (string * json)).

Module Py.
Import Text.

(** An insertion-ordered dict with string keys, as the list of its items:
    [odict_get k m] is the value bound to [k], if any. *)
Fixpoint odict_get {V} (k : string) (m : list (string * V)) : option V :=
  match m with
  | [] => None
  | (k', v) :: rest => if String.eqb k' k then Some v else odict_get k rest
  end.

(** [m[k] = v]: replaces the value of an existing key in place and appends
    a new key at the end. *)
Fixpoint odict_set {V} (k : string) (v : V) (m : list (string * V))
  : list (string * V) :=
  match m with
  | [] => [(k, v)]
  | (k', v') :: rest =>
      if String.eqb k' k then (k, v) :: rest
      else (k', v') :: odict_set k v rest
  end.

(** [k in m]. *)
Definition odict_mem {V} (k : string) (m : list (string * V)) : bool :=
  match odict_get k m with Some _ => true | None => false end.

Definition lookup (key : string) (d : dict) : option json := odict_get key d.

(** [key in d]. *)
Definition has_key (key : string) (d : dict) : bool :=
  match lookup key d with Some _ => true | None => false end.

(** [d.get(key)]. *)
Definition get (key : string) (d : dict) : json :=
  default JNull (lookup key d).

(** [d.get(key, dflt)]. *)
Definition get_default (key : string) (dflt : json) (d : dict) : json :=
  default dflt (lookup key d).

(** [v == s] for a string literal [s]. *)
Definition eq_str (v : json) (s : string) : bool :=
  match v with
  | JStr t => String.eqb t s
  | _ => false
  end.

(** [v not in allowed] for a set of strings: hashing a list or a dict
    raises [TypeError]. *)
Definition not_in_strs (v : json) (allowed : list string) : res bool :=
  match v with
  | JList _ => Raise (TypeError "unhashable type: 'list'")
  | JDict _ => Raise (TypeError "unhashable type: 'dict'")
  | JStr s => Ok (negb (existsb (String.eqb s) allowed))
  | _ => Ok true
  end.

(** [str(v)], given [repr] for lists and dicts. *)
Definition str (repr : json -> string) (v : json) : string :=
  match v with
  | JNull => "None"
  | JBool true => "True"
  | JBool false => "False"
  | JInt n => str_of_Z n
  | JFloat r => r
  | JStr s => s
  | JList _ | JDict _ => repr v
  end.

(** [isinstance(v, int)]: [bool] is a subclass of [int]. *)
Definition as_int (v : json) : option Z :=
  match v with
  | JInt n => Some n
  | JBool true => Some 1%Z
  | JBool false => Some 0%Z
  | _ => None
  end.

End Py.

(* ===================================================================== *)
(** * The issues validator (lines 316-502)                               *)
(* ===================================================================== *)

Module Issues.
Import Text.

(** A line of the snapshot, by what [line.strip()] and [json.loads(line)]
    make of it: blank, not JSON (with the decoder's message), or a value. *)
Inductive jsonl_line :=
| Blank
| BadJson (msg : string)
| Json (v : json).

(** What the validator takes from its surroundings. *)
Record world := mkWorld {
  (** [str(project_root)] *)
  project_root : string;
  (** [detect_git_branch(project_root)] *)
  git_branch : string;
  (** [resolve_under(project_root, Path(p)).exists()] *)
  path_exists : string -> bool;
  (** [str(Path(p))] *)
  path_str : string -> string;
  (** [repr] of lists and dicts *)
  py_repr : json -> string
}.

Definition STATUS_ENUMS : list (string * list string) :=
  [("dev_state", ["pending"; "in_progress"; "done"]);
   ("review_initial_state", ["pending"; "in_progress"; "done"]);
   ("review_regression_state", ["pending"; "in_progress"; "done"]);
   ("git_state", ["uncommitted"; "committed"])].

Definition required_meta_fields : list string :=
  ["plan"; "goal"; "tech_stack"; "source"; "total_issues"].

Definition required_issue_fields : list string :=
  ["id"; "priority"; "phase"; "area"; "title"; "description"; "depends_on";
   "acceptance_criteria"; "test_approach"; "review_initial_requirements";
   "review_regression_requirements"; "dev_state"; "review_initial_state";
   "review_regression_state"; "git_state"; "blocked"; "owner"; "refs"; "notes"].

Definition loc (path : string) (line_no : nat) : string :=
  path +:+ ":" +:+ str_of_nat line_no.

(** [parse_json_line] (lines 316-325). *)
Definition parse_json_line (line : jsonl_line) (line_no : nat)
    (report : Report) (path : string) : Report * option dict :=
  match line with
  | Json (JDict d) => (report, Some d)
  | Json _ =>
      (ReportOps.error report "JSONL line must be a JSON object" (loc path line_no),
       None)
  | BadJson msg =>
      (ReportOps.error report ("Invalid JSON: " +:+ msg) (loc path line_no), None)
  | Blank =>
      (ReportOps.error report "Invalid JSON: Expecting value" (loc path line_no),
       None)
  end.

(** Lines 339-343: the rows that parse, with their line numbers. *)
Fixpoint parse_rows (idx : nat) (lines : list jsonl_line) (report : Report)
    (path : string) : Report * list (nat * dict) :=
  match lines with
  | [] => (report, [])
  | line :: rest =>
      match parse_json_line line idx report path with
      | (report, Some d) =>
          let '(report, rows) := parse_rows (S idx) rest report path in
          (report, (idx, d) :: rows)
      | (report, None) => parse_rows (S idx) rest report path
      end
  end.

(** Lines 349-355: the [type] and the required fields of meta. *)
Definition check_meta_fields (path : string) (meta_line_no : nat) (meta : dict)
    (report : Report) : Report :=
  let report :=
    if negb (Py.eq_str (Py.get "type" meta) "meta") then
      ReportOps.error report "First line must be `type=meta`" (loc path meta_line_no)
    else report in
  fold_left (fun r field_name =>
    if negb (Py.has_key field_name meta) then
      ReportOps.error r ("Meta missing field `" +:+ field_name +:+ "`")
        (loc path meta_line_no)
    else r) required_meta_fields report.

(** [fallback_context[key]]. *)
Definition fallback_context (w : world) (key : string) : string :=
  if String.eqb key "worktree_path" then project_root w else git_branch w.

(** Lines 364-381: the checks of [execution_context]. *)
Definition check_execution_context (w : world) (path : string)
    (meta_line_no : nat) (meta : dict) (report : Report) : Report :=
  match Py.get "execution_context" meta with
  | JNull =>
      ReportOps.info report
        "Meta `execution_context` missing; using fallback context (project_root/current_branch)"
        (loc path meta_line_no)
  | JDict execution_context =>
      fold_left (fun r key =>
        if negb (nonblank (Py.str (py_repr w)
                             (Py.get_default key (JStr "") execution_context)))
        then
          ReportOps.info r
            ("Meta execution_context missing `" +:+ key
             +:+ "`; fallback available (" +:+ fallback_context w key +:+ ")")
            (loc path meta_line_no)
        else r) ["worktree_path"; "branch"; "base_branch"] report
  | _ =>
      ReportOps.info report
        "Meta `execution_context` is not an object; fallback context will be used"
        (loc path meta_line_no)
  end.

(** Lines 383-387: the [source] of meta. *)
Definition check_source (w : world) (path : string) (meta_line_no : nat)
    (meta : dict) (report : Report) : Report :=
  match Py.get "source" meta with
  | JStr source =>
      if nonblank source && negb (path_exists w source) then
        ReportOps.info report "Meta source path not found (non-blocking)"
          (loc path meta_line_no)
      else report
  | _ => report
  end.

(** Lines 394-399: [total_issues] against the number of issue rows. *)
Definition check_total (w : world) (path : string) (meta_line_no : nat)
    (meta : dict) (actual : nat) (report : Report) : Report :=
  let total_issues := Py.get "total_issues" meta in
  match Py.as_int total_issues with
  | Some n =>
      if negb (Z.eqb n (Z.of_nat actual)) then
        ReportOps.error report
          ("Meta total_issues=" +:+ Py.str (py_repr w) total_issues
           +:+ " does not match actual=" +:+ str_of_nat actual)
          (loc path meta_line_no)
      else report
  | None => report
  end.

(** Lines 458-469: one entry of [refs]. *)
Definition check_ref (w : world) (location : string) (report : Report)
    (ref : json) : Report :=
  match ref with
  | JStr ref =>
      match Re.match_ Re.no_flags Re.REF_RE (String.list_ascii_of_string ref) with
      | None =>
          ReportOps.error report ("Invalid ref format `" +:+ ref +:+ "`") location
      | Some m =>
          let ref_path := String.string_of_list_ascii (Re.group 1 m) in
          if negb (path_exists w ref_path) then
            ReportOps.info report
              ("Referenced path not found (non-blocking): " +:+ path_str w ref_path)
              location
          else report
      end
  | _ => ReportOps.error report "Each ref must be string" location
  end.

(** Lines 454-469: [refs]. *)
Definition check_refs (w : world) (location : string) (issue : dict)
    (report : Report) : Report :=
  match Py.get "refs" issue with
  | JList (r :: rs) => fold_left (check_ref w location) (r :: rs) report
  | _ => ReportOps.error report "`refs` must be a non-empty array" location
  end.

(** Lines 471-476: the rule for committed issues. *)
Definition check_committed (location : string) (issue : dict) (report : Report)
  : Report :=
  if Py.eq_str (Py.get "git_state" issue) "committed" then
    let report :=
      fold_left (fun r state_name =>
        if negb (Py.eq_str (Py.get state_name issue) "done") then
          ReportOps.error r
            ("Committed issue must have `" +:+ state_name +:+ "=done`") location
        else r)
        ["dev_state"; "review_initial_state"; "review_regression_state"] report in
    match Py.get "blocked" issue with
    | JBool true => ReportOps.error report "Committed issue cannot be blocked" location
    | _ => report
    end
  else report.

(** [isinstance(issue_id, str) and issue_id.strip()]. *)
Definition valid_id (v : json) : option string :=
  match v with
  | JStr s => if nonblank s then Some s else None
  | _ => None
  end.

Abbreviation issue_map := (list (string * (nat * dict))).

(** Lines 427-429: the required fields of an issue. *)
Definition check_required (location : string) (issue : dict) (report : Report)
  : Report :=
  fold_left (fun r field_name =>
    if negb (Py.has_key field_name issue) then
      ReportOps.error r ("Issue missing field `" +:+ field_name +:+ "`") location
    else r) required_issue_fields report.

(** Lines 439-440: [priority]. *)
Definition check_priority (w : world) (location : string) (issue : dict)
    (report : Report) : res Report :=
  let* bad := Py.not_in_strs (Py.get "priority" issue) ["P0"; "P1"; "P2"] in
  Ok (if bad then
        ReportOps.error report
          ("Invalid priority `" +:+ Py.str (py_repr w) (Py.get "priority" issue)
           +:+ "`") location
      else report).

(** Lines 442-445: the status enums. *)
Definition check_status_enums (w : world) (location : string) (issue : dict)
    (report : Report) : res Report :=
  for_each STATUS_ENUMS (fun r '(field_name, allowed) =>
    let value := Py.get field_name issue in
    let* bad := Py.not_in_strs value allowed in
    Ok (if bad then
          ReportOps.error r
            ("Invalid " +:+ field_name +:+ " `" +:+ Py.str (py_repr w) value
             +:+ "`") location
        else r)) report.

(** Lines 447-452: the types of [blocked] and [depends_on]. *)
Definition check_blocked_type (location : string) (issue : dict)
    (report : Report) : Report :=
  match Py.get "blocked" issue with
  | JBool _ => report
  | _ => ReportOps.error report "`blocked` must be boolean" location
  end.

Definition check_depends_type (location : string) (issue : dict)
    (report : Report) : Report :=
  match Py.get "depends_on" issue with
  | JList _ => report
  | _ => ReportOps.error report "`depends_on` must be an array" location
  end.

(** The body of [for line_no, issue in issue_rows] (lines 424-476). *)
Definition check_issue (w : world) (path : string)
    (acc : Report * issue_map) (row : nat * dict) : res (Report * issue_map) :=
  let '(report, imap) := acc in
  let '(line_no, issue) := row in
  let location := loc path line_no in
  let report := check_required location issue report in
  match valid_id (Py.get "id" issue) with
  | None =>
      Ok (ReportOps.error report "Issue `id` must be a non-empty string" location,
          imap)
  | Some issue_id =>
      let report :=
        if Py.odict_mem issue_id imap then
          ReportOps.error report ("Duplicate issue id `" +:+ issue_id +:+ "`") location
        else report in
      let imap := Py.odict_set issue_id (line_no, issue) imap in
      let* report := check_priority w location issue report in
      let* report := check_status_enums w location issue report in
      let report := check_blocked_type location issue report in
      let report := check_depends_type location issue report in
      let report := check_refs w location issue report in
      let report := check_committed location issue report in
      Ok (report, imap)
  end.

(** [isinstance(dep_id, str) and dep_id.strip()] fails. *)
Definition bad_dep (v : json) : bool :=
  match valid_id v with Some _ => false | None => true end.

(** The body of [for dep_id in depends_on] (lines 486-496). *)
Definition check_dep (location issue_id : string) (imap : issue_map)
    (acc : Report * gmap string (list string)) (dep : json)
  : Report * gmap string (list string) :=
  let '(report, edges) := acc in
  match valid_id dep with
  | None =>
      (ReportOps.error report "depends_on entries must be non-empty strings" location,
       edges)
  | Some dep_id =>
      if String.eqb dep_id issue_id then
        (ReportOps.error report "Issue cannot depend on itself" location, edges)
      else if negb (Py.odict_mem dep_id imap) then
        (ReportOps.error report ("Issue depends on unknown id `" +:+ dep_id +:+ "`")
           location, edges)
      else (report, alter (fun l => l ++ [dep_id]) issue_id edges)
  end.

(** The body of [for issue_id, (line_no, issue) in issue_map.items()]. *)
Definition check_deps (path : string) (imap : issue_map)
    (acc : Report * gmap string (list string))
    (entry : string * (nat * dict)) : Report * gmap string (list string) :=
  let '(issue_id, (line_no, issue)) := entry in
  match Py.get_default "depends_on" (JList []) issue with
  | JList depends_on =>
      fold_left (check_dep (loc path line_no) issue_id imap) depends_on acc
  | _ => acc
  end.

(** Lines 478-496: the edge mapping handed to [detect_cycle]. *)
Definition build_edges (path : string) (imap : issue_map) (report : Report)
  : Report * gmap string (list string) :=
  let issue_ids := map fst imap in
  let edges : gmap string (list string) :=
    fold_left (fun m issue_id => <[issue_id := []]> m) issue_ids ∅ in
  fold_left (check_deps path imap) imap (report, edges).

(** [check_issues] from line 345 on: [rows] are the parsed rows. *)
Definition check_rows (w : world) (path : string) (rows : list (nat * dict))
    (report : Report) : res Report :=
  match rows with
  | [] => Ok report
  | (meta_line_no, meta) :: issue_rows =>
      let report := check_meta_fields path meta_line_no meta report in
      let report := check_execution_context w path meta_line_no meta report in
      let report := check_source w path meta_line_no meta report in
      match issue_rows with
      | [] => Ok (ReportOps.error report "No issue rows after meta" path)
      | _ =>
          let report :=
            check_total w path meta_line_no meta (length issue_rows) report in
          let* (report, imap) :=
            for_each issue_rows (check_issue w path) (report, []) in
          let issue_ids := map fst imap in
          let '(report, edges) := build_edges path imap report in
          let* cycle := Cycle.detect_cycle issue_ids edges in
          if Cycle.truthy cycle then
            Ok (ReportOps.error report
                  ("Issue dependency cycle detected: "
                   +:+ join " -> " (default [] cycle)) path)
          else Ok report
      end
  end.

Definition check_issues (w : world) (f : file (list jsonl_line))
    (issues_path : string) : res Report :=
  let report := ReportOps.new "issues" in
  match read_text f issues_path report with
  | (report, None) => Ok report
  | (report, Some text) =>
      let lines :=
        List.filter (fun l => match l with Blank => false | _ => true end) text in
      match lines with
      | [] => Ok (ReportOps.error report "JSONL is empty" issues_path)
      | _ =>
          let '(report, rows) := parse_rows 1 lines report issues_path in
          check_rows w issues_path rows report
      end
  end.

End Issues.

(* ===================================================================== *)
(** * Vocabulary of the statements                                        *)
(* ===================================================================== *)

(** Graphs, walks and cycles, for the statements about [detect_cycle]. *)
Module Graph.
Import Cycle.

Abbreviation graph := (gmap string (list string)).

(** [b] is in the adjacency list of [a]. *)
Definition edge (E : graph) (a b : string) : Prop := b ∈ edges_get E a.

(** Every consecutive pair of [l] is an edge. *)
Fixpoint is_walk (E : graph) (l : list string) : Prop :=
  match l with
  | [] => True
  | a :: tl =>
      match tl with
      | [] => True
      | b :: _ => edge E a b /\ is_walk E tl
      end
  end.

(** A closed walk: at least two entries, the first equal to the last, and
    every consecutive pair an edge. *)
Definition closed_walk (E : graph) (c : list string) : Prop :=
  2 <= length c /\ head c = last c /\
  forall i a b, c !! i = Some a -> c !! (S i) = Some b -> edge E a b.

(** The graph has a cycle: some node reaches itself in one or more steps. *)
Definition has_cycle (E : graph) : Prop := exists x, tc (edge E) x x.

(** A cycle can be reached from a node of [N]. *)
Definition cycle_reachable (N : list string) (E : graph) : Prop :=
  exists n x, n ∈ N /\ rtc (edge E) n x /\ tc (edge E) x x.

(** Edges point only to nodes of [N]. *)
Definition targets_in (N : list string) (E : graph) : Prop :=
  forall a b, edge E a b -> b ∈ N.

(** ** Invariants of the search *)

(** The stack of visiting nodes, innermost first: each node's [parent] is
    the next one, and the parent has an edge to it. *)
Fixpoint linked (E : graph) (par : gmap string string) (stk : list string)
  : Prop :=
  match stk with
  | [] => True
  | c :: tl =>
      match tl with
      | [] => True
      | p :: _ => par !! c = Some p /\ edge E p c /\ linked E par tl
      end
  end.

(** The done nodes in the order they finished, latest first: every
    successor of a done node finished before it. *)
Fixpoint topo (E : graph) (L : list string) : Prop :=
  match L with
  | [] => True
  | u :: L' => (forall v, edge E u v -> v ∈ L') /\ topo E L'
  end.

Record inv (E : graph) (N : list string) (s : search) (stk : list string)
  : Prop := mkInv {
  inv_visiting : forall n, state_get s n = 1 <-> n ∈ stk;
  inv_nodup : NoDup stk;
  inv_linked : linked E (parent s) stk;
  inv_values : forall n, state_get s n <= 2;
  inv_done : exists L, topo E L /\ forall n, state_get s n = 2 <-> n ∈ L;
  inv_reach : forall n, n ∈ stk -> exists r, r ∈ N /\ rtc (edge E) r n;
  inv_cand : forall n, n ∈ stk -> n ∈ candidates N E
}.

(** A node about to be visited is linked to the top of the stack. *)
Definition link_to_top (E : graph) (s : search) (stk : list string)
    (node : string) : Prop :=
  match stk with
  | [] => True
  | top :: _ => parent s !! node = Some top /\ edge E top node
  end.

(** What a call of [dfs] or a run of its loop guarantees, from a state
    [s] with stack [stk]: it returns; without a cycle the node is done,
    nothing done is undone and the invariant holds again; with a cycle,
    the cycle is a closed walk that a node of [N] reaches. *)
Definition post (E : graph) (N : list string) (s : search) (stk : list string)
    (node : string) (out : res (search * option (list string))) : Prop :=
  exists s' r, out = Ok (s', r) /\
    match r with
    | None =>
        inv E N s' stk /\ state_get s' node = 2 /\
        (forall n, state_get s n = 2 -> state_get s' n = 2)
    | Some c =>
        closed_walk E c /\
        exists n x, n ∈ N /\ rtc (edge E) n x /\ head c = Some x
    end.

(** The contract of [dfs] with [f] units of fuel: from an unseen node
    linked to the stack, with fuel for the nodes not yet on the stack. *)
Definition dfs_ok (E : graph) (N : list string) (f : nat) : Prop :=
  forall node s stk,
    inv E N s stk -> state_get s node = 0 -> node ∈ candidates N E ->
    (exists r, r ∈ N /\ rtc (edge E) r node) ->
    link_to_top E s stk node ->
    length (candidates N E) < f + length stk ->
    post E N s stk node (dfs E f node s).

End Graph.

(** The wording of the field extractor's contract. *)
Module FieldSpec.
Import Text.

(** All characters of [s] are whitespace. *)
Definition blank (s : chars) : Prop := Forall (fun c => isspace c = true) s.

(** [a] and [b] are the same text up to case. *)
Definition same_caseless (a b : chars) : Prop := lower_chars a = lower_chars b.

(** [line] reads: optional leading whitespace, the bold-marked label, a
    colon, optional whitespace, [value], optional trailing whitespace. *)
Definition field_line (label : string) (line value : chars) : Prop :=
  exists ws1 lbl ws2 ws3,
    line = ws1 ++ String.list_ascii_of_string "**" ++ lbl
               ++ String.list_ascii_of_string ":**" ++ ws2 ++ value ++ ws3
    /\ blank ws1 /\ blank ws2 /\ blank ws3
    /\ same_caseless lbl (String.list_ascii_of_string label).

(** A line of text holds no line feed. *)
Definition one_line (line : chars) : Prop := LF ∉ line.

(** ** Pieces of [field_re], for the proofs *)

(** A run of the class cannot be extended into [tl]. *)
Definition stops (c : Re.cclass) (tl : chars) : Prop :=
  match tl with [] => True | b :: _ => Re.in_class c b = false end.

(** The part of the pattern after the label: [\s*], the group, [\s*],
    line end. *)
Definition tail_re : Re.re :=
  Re.seq [Re.Star Re.Space; Re.Group (Re.Star Re.Dot); Re.Star Re.Space; Re.Eol].

(** The continuation of the leading [\s*] in [field_re]. *)
Definition after_indent (label : string) (p : option ascii) (s : chars)
  : option Re.mstate :=
  match Re.eat Re.IGNORECASE (String.list_ascii_of_string "**") p s with
  | Some (p1, s1) =>
      match Re.eat Re.IGNORECASE (String.list_ascii_of_string label) p1 s1 with
      | Some (p2, s2) =>
          match Re.eat Re.IGNORECASE (String.list_ascii_of_string ":**") p2 s2 with
          | Some (p3, s3) =>
              Re.run Re.IGNORECASE tail_re (Re.mkM p3 s3 []) Some
          | None => None
          end
      | None => None
      end
  | None => None
  end.

End FieldSpec.

(** Reports as accumulators, and the wording of the issue rules. *)
Module IssueSpec.
Import Text Issues.

(** [r] with the findings [l] appended. *)
Definition app_report (r : Report) (l : list Finding) : Report :=
  mkReport (name r) (findings r ++ l).

Definition empty_report : Report := mkReport "" [].

(** A step that only appends findings, the same ones whatever the report
    holds already. *)
Definition appending (B : Report -> Report) : Prop :=
  forall r, B r = app_report r (findings (B empty_report)).

(** The same for a step that carries a second component and can raise. *)
Definition shift {X} (r : Report) (o : res (Report * X)) : res (Report * X) :=
  match o with
  | Ok (r1, x) => Ok (app_report r (findings r1), x)
  | Raise e => Raise e
  | Timeout => Timeout
  end.

Definition appending_res {X} (B : Report -> res (Report * X)) : Prop :=
  forall r, B r = shift r (B empty_report).

Definition shift1 (r : Report) (o : res Report) : res Report :=
  match o with
  | Ok r1 => Ok (app_report r (findings r1))
  | Raise e => Raise e
  | Timeout => Timeout
  end.

Definition appending_res1 (B : Report -> res Report) : Prop :=
  forall r, B r = shift1 r (B empty_report).

(** A step that appends findings that all satisfy [P]. *)
Definition adds (P : Finding -> Prop) (B : Report -> Report) : Prop :=
  forall r, exists added, B r = app_report r added /\ Forall P added.


(** The ERROR and WARN findings of a list. *)
Definition alarms (l : list Finding) : list Finding :=
  List.filter (fun f => negb (severity_eqb (f_severity f) INFO)) l.

Definition is_info (f : Finding) : Prop := f_severity f = INFO.

(** Two outcomes of a validation with the same ERROR and WARN findings
    (or the same failure). *)
Definition same_alarms (o o' : res Report) : Prop :=
  match o, o' with
  | Ok r, Ok r' => alarms (findings r) = alarms (findings r')
  | Raise e, Raise e' => e = e'
  | Timeout, Timeout => True
  | _, _ => False
  end.

(** Two dicts that agree on every key but [k]. *)
Definition agree_except (k : string) (d d' : dict) : Prop :=
  forall k', k' <> k -> Py.lookup k' d = Py.lookup k' d'.

(** A value that can be hashed: anything but a list or a dict. *)
Definition hashable (v : json) : bool :=
  match v with
  | JList _ | JDict _ => false
  | _ => true
  end.







(** The id of a row when it is a string that is not blank. *)
Definition row_id (row : nat * dict) : option string :=
  valid_id (Py.get "id" (snd row)).


(** The edge mapping holds no self-edge and no edge to an id that the
    issue map does not know. *)
Definition clean_edges (imap : issue_map) (e : gmap string (list string))
  : Prop :=
  forall a b, b ∈ Cycle.edges_get e a -> a <> b /\ Py.odict_mem b imap = true.

(** The finding for a duplicate id. *)
Definition duplicate_finding (path : string) (line_no : nat) (id : string)
  : Finding :=
  mkFinding ERROR ("Duplicate issue id `" +:+ id +:+ "`") (loc path line_no).

End IssueSpec.

(** Sample inputs for the closed statements. *)
Module Samples.
Import Issues.

Definition sample_world : world :=
  mkWorld "/project" "main" (fun _ => true) (fun p => p) (fun _ => "?").

(** A complete meta record; [extra] is appended to its fields. *)
Definition meta_with (total : Z) (extra : dict) : dict :=
  [("type", JStr "meta"); ("plan", JStr "docs/plans/plan.md");
   ("goal", JStr "Build it"); ("tech_stack", JStr "Python");
   ("source", JStr "plan.md"); ("total_issues", JInt total);
   ("execution_context",
    JDict [("worktree_path", JStr "/project"); ("branch", JStr "main");
           ("base_branch", JStr "main")])] ++ extra.

(** The same meta record without [execution_context]. *)
Definition meta_without_context (total : Z) : dict :=
  List.filter (fun kv => negb (String.eqb (fst kv) "execution_context"))
    (meta_with total []).

(** A complete issue record but for its [id], given as [idv]. *)
Definition issue_with (idv : json) (depends_on : list json)
    (dev_state git_state : string) : dict :=
  [("id", idv); ("priority", JStr "P0"); ("phase", JInt 1);
   ("area", JStr "backend"); ("title", JStr "Do something");
   ("description", JStr "Details"); ("depends_on", JList depends_on);
   ("acceptance_criteria", JStr "Works"); ("test_approach", JStr "Unit tests");
   ("review_initial_requirements", JStr "Review");
   ("review_regression_requirements", JStr "Regression");
   ("dev_state", JStr dev_state); ("review_initial_state", JStr "done");
   ("review_regression_state", JStr "done"); ("git_state", JStr git_state);
   ("blocked", JBool false); ("owner", JStr "agent");
   ("refs", JList [JStr "src/main.py:1-10"]); ("notes", JStr "")].

(** A plan whose only task depends on itself. *)
Definition self_dependent_plan : string :=
  "**Goal:** G
**Architecture:** A
**Tech Stack:** T
**Execution Context:** E

### Task 1: First
**Priority:** P0
**Area:** a
**Depends On:** Task 1
**Acceptance Criteria:** c
**Review (Dev):** r
**Review (Regression):** r
**Files:** f.py
".

(** One way Python may order a set: each element once, in the order of
    the last occurrences. *)
Definition first_seen (l : list string) : list string := remove_dups l.

End Samples.

(* ===================================================================== *)
(** * The skills validator and the command line (lines 195-211, 505-667) *)
(* ===================================================================== *)

Module Cli.
Import Text Issues.

(** [SKILL_CONTRACTS]: the required markers of each skill file, in the
    order of the dict. *)
Definition SKILL_CONTRACTS : list (string * list string) :=
  [("brainstorming/SKILL.md",
    ["brainstorming.worktree_handoff";
     "brainstorming.transition_writing_plans"]);
   ("writing-plans/SKILL.md",
    ["writing-plans.execution_context_header";
     "writing-plans.depends_on_field";
     "writing-plans.health_gate.plan";
     "writing-plans.health_gate.checker_path"]);
   ("compile-plans/SKILL.md",
    ["compile-plans.schema.depends_on";
     "compile-plans.schema.blocked";
     "compile-plans.topological_sorting";
     "compile-plans.health_gate.issues";
     "compile-plans.health_gate.checker_path"]);
   ("executing-plan-issues/SKILL.md",
    ["executing-plan-issues.schema.blocked";
     "executing-plan-issues.health_gate.per_issue_pre_amend";
     "executing-plan-issues.health_gate.full_convergence";
     "executing-plan-issues.health_gate.anti_loop"]);
   ("workflow-health-check/SKILL.md",
    ["workflow-health-check.path_resolution_protocol";
     "workflow-health-check.anti_loop_policy";
     "workflow-health-check.integration_contract"])].

(** What a run takes from its surroundings: the file system, the paths
    that [pathlib] computes, the order of Python's sets, and the scan of a
    text for [SKILL_MARKER_RE]. *)
Record env := mkEnv {
  (** the surroundings of [check_issues] *)
  e_world : world;
  (** the order in which a set of task ids is iterated *)
  e_set_iter : list string -> list string;
  (** [str(resolve_under(project_root, p))] *)
  e_resolve_under : string -> string;
  (** [latest_file(project_root / "docs" / "plans", "*.md")] *)
  e_latest_plan : option string;
  (** [latest_file(project_root / "docs" / "issues", "*.jsonl")] *)
  e_latest_issues : option string;
  e_plan_file : string -> file string;
  e_issues_file : string -> file (list jsonl_line);
  (** [str(skills_root / rel_path)] *)
  e_skill_path : string -> string;
  e_skill_file : string -> file string;
  (** group 1 of the matches of [SKILL_MARKER_RE.finditer(text)] *)
  e_markers : string -> list string
}.

(** The body of [for rel_path, contract in SKILL_CONTRACTS.items()]. *)
Definition check_skill (e : env) (report : Report)
    (entry : string * list string) : Report :=
  let '(rel_path, required) := entry in
  let path := e_skill_path e rel_path in
  match read_text (e_skill_file e path) path report with
  | (report, None) => report
  | (report, Some text) =>
      let markers := map (fun g => lower (strip g)) (e_markers e text) in
      let required_markers := map lower required in
      fold_left (fun r marker =>
        if negb (Plan.mem marker markers) then
          ReportOps.error r
            ("Missing workflow contract marker `" +:+ marker +:+ "`") path
        else r) required_markers report
  end.

(** [check_skills] (lines 195-211). *)
Definition check_skills (e : env) : Report :=
  fold_left (check_skill e) SKILL_CONTRACTS (ReportOps.new "skills").

Definition severity_str (s : severity) : string :=
  match s with
  | ERROR => "ERROR"
  | WARN => "WARN"
  | INFO => "INFO"
  end.

(** The text that [print_reports] hands to [print] for a finding. *)
Definition finding_text (f : Finding) : string :=
  let suffix :=
    if nonempty (f_location f) then " [" +:+ f_location f +:+ "]" else "" in
  severity_str (f_severity f) +:+ ": " +:+ f_message f +:+ suffix.

(** The calls of [print] for one report: the text of each call, in
    order.  A call prints its text and a line feed, so a text that holds
    line feeds itself prints several lines. *)
Definition report_prints (r : Report) : list string :=
  ("== " +:+ name r +:+ " ==")
  :: match findings r with
     | [] => ["PASS: no findings"]
     | fs => map finding_text fs
     end
  ++ [""].

(** [print_reports] (lines 505-524): the texts of the calls of [print],
    in order, and the counts. *)
Definition print_reports (reports : list Report) : list string * (nat * nat) :=
  let '(out, error_count, warning_count) :=
    fold_left (fun '(out, error_count, warning_count) report =>
      (out ++ report_prints report,
       error_count + ReportOps.errors report,
       warning_count + ReportOps.warnings report))
      reports ([], 0, 0) in
  (out ++ ["== summary ==";
           "errors=" +:+ str_of_nat error_count
           +:+ " warnings=" +:+ str_of_nat warning_count],
   (error_count, warning_count)).

(** [resolve_plan_report] (lines 527-540). *)
Definition resolve_plan_report (e : env) (plan_arg : option string)
    (required : bool) : res Report :=
  match plan_arg with
  | Some p =>
      let plan_path := e_resolve_under e p in
      Plan.check_plan (e_set_iter e) (e_plan_file e plan_path) plan_path
  | None =>
      match e_latest_plan e with
      | None =>
          let report := ReportOps.new "plan" in
          Ok (if required then
                ReportOps.error report "No plan file found under docs/plans" ""
              else
                ReportOps.info report
                  "Plan check skipped: no file under docs/plans" "")
      | Some candidate =>
          Plan.check_plan (e_set_iter e) (e_plan_file e candidate) candidate
      end
  end.

(** [resolve_issues_report] (lines 543-556). *)
Definition resolve_issues_report (e : env) (issues_arg : option string)
    (required : bool) : res Report :=
  match issues_arg with
  | Some p =>
      let issues_path := e_resolve_under e p in
      check_issues (e_world e) (e_issues_file e issues_path) issues_path
  | None =>
      match e_latest_issues e with
      | None =>
          let report := ReportOps.new "issues" in
          Ok (if required then
                ReportOps.error report
                  "No issues snapshot found under docs/issues/" ""
              else
                ReportOps.info report
                  "Issues check skipped: no file under docs/issues/" "")
      | Some candidate =>
          check_issues (e_world e) (e_issues_file e candidate) candidate
      end
  end.

(** [decide_exit_code(errors, warnings, fail_on)]. *)
Definition decide_exit_code (errors warnings : nat) (fail_on : string) : nat :=
  if String.eqb fail_on "never" then 0
  else if 0 <? errors then 1
  else if String.eqb fail_on "warning" && (0 <? warnings) then 2
  else 0.

(** The modes that the argument parser accepts. *)
Inductive mode := ModeSkills | ModePlan | ModeIssues | ModeFull.

(** The parsed arguments that [run] reads. *)
Record args := mkArgs {
  a_mode : mode;
  a_plan : option string;
  a_issues : option string;
  include_skills : bool;
  require_plan : bool;
  require_issues : bool;
  fail_on : string;
  strict_warnings : bool
}.

(** The reports of [run], by mode (lines 579-596). *)
Definition collect_reports (e : env) (a : args) : res (list Report) :=
  match a_mode a with
  | ModeSkills => Ok [check_skills e]
  | ModePlan =>
      let* r := resolve_plan_report e (a_plan a) true in
      Ok [r]
  | ModeIssues =>
      let* r := resolve_issues_report e (a_issues a) true in
      Ok [r]
  | ModeFull =>
      let reports := if include_skills a then [check_skills e] else [] in
      let* p := resolve_plan_report e (a_plan a) (require_plan a) in
      let* i := resolve_issues_report e (a_issues a) (require_issues a) in
      Ok (reports ++ [p; i])
  end.

(** [run] (lines 569-599): the printed lines and the exit code. *)
Definition run (e : env) (a : args) : res (list string * nat) :=
  let fail_on := if strict_warnings a then "warning" else fail_on a in
  let* reports := collect_reports e a in
  let '(out, (errors, warnings)) := print_reports reports in
  Ok (out, decide_exit_code errors warnings fail_on).

(** [str(exc)]. *)
Definition exn_str (exc : exn) : string :=
  match exc with
  | TypeError what => what
  | RecursionError => "maximum recursion depth exceeded"
  end.

(** [main] (lines 660-668), after the arguments are parsed. *)
Definition main (e : env) (a : args) : res (list string * nat) :=
  match run e a with
  | Ok r => Ok r
  | Raise exc =>
      Ok (["== runtime ==";
           "ERROR: unexpected checker failure: " +:+ exn_str exc], 3)
  | Timeout => Timeout
  end.

End Cli.

(** Vocabulary of the further statements. *)
Module MoreSpec.
Import Text Issues.

Definition is_error (f : Finding) : Prop := f_severity f = ERROR.

Definition not_warn (f : Finding) : Prop := f_severity f <> WARN.

(** A task number as the patterns write it: digits, or digits, a dot and
    digits. *)
Definition dotted_decimal (s : chars) : Prop :=
  exists d1 d2,
    s = d1 ++ d2 /\ d1 <> [] /\ Forall (fun c => isdigit c = true) d1
    /\ (d2 = [] \/
        exists d, d2 = "."%char :: d /\ d <> []
                  /\ Forall (fun c => isdigit c = true) d).

(** The JSON objects among the lines of a snapshot, in order. *)
Fixpoint dict_lines (lines : list jsonl_line) : list dict :=
  match lines with
  | [] => []
  | Json (JDict d) :: rest => d :: dict_lines rest
  | _ :: rest => dict_lines rest
  end.

(** A line that [parse_json_line] accepts. *)
Definition is_dict_line (l : jsonl_line) : bool :=
  match l with
  | Json (JDict _) => true
  | _ => false
  end.

(** The message of the cycle finding of the issues validator. *)
Definition issue_cycle_finding (path : string) (c : list string) : Finding :=
  mkFinding ERROR ("Issue dependency cycle detected: " +:+ join " -> " c) path.

(** The message of the cycle finding of the plan validator. *)
Definition task_cycle_finding (path : string) (c : list string) : Finding :=
  mkFinding ERROR ("Task dependency cycle detected: " +:+ join " -> " c) path.

(** A step on a report paired with a second component that appends
    findings satisfying [P] to the report. *)
Definition adds_pair {X A} (P : Finding -> Prop)
    (step : Report * X -> A -> Report * X) : Prop :=
  forall r x a, exists added,
    fst (step (r, x) a) = IssueSpec.app_report r added /\ Forall P added.

(** The last task of [tasks] whose id is [id]. *)
Fixpoint task_last (id : string) (tasks : list Plan.task) : option Plan.task :=
  match tasks with
  | [] => None
  | t :: rest =>
      match task_last id rest with
      | Some t' => Some t'
      | None => if String.eqb (Plan.task_id t) id then Some t else None
      end
  end.

(** The references parsed from the [Depends On] field of a task. *)
Definition deps_of (t : Plan.task) : list string :=
  Plan.parse_depends (Plan.extract_field (Plan.block t) "Depends On").

(** The dependencies the plan validator records for a task id: those of
    the last task with that id. *)
Definition task_deps (tasks : list Plan.task) (id : string) : list string :=
  match task_last id tasks with
  | Some t => deps_of t
  | None => []
  end.

Definition self_dependency_finding (plan_path : string) (t : Plan.task)
  : Finding :=
  mkFinding ERROR ("Task " +:+ Plan.task_id t +:+ " cannot depend on itself")
    (plan_path +:+ ":" +:+ str_of_nat (Plan.start_line t)).

(** The fields whose values the enum checks of an issue hash. *)
Definition enum_fields : list string :=
  ["priority"; "dev_state"; "review_initial_state";
   "review_regression_state"; "git_state"].

(** An issue record that passes the id check and holds an array or an
    object in a field of the enum checks. *)
Definition unhashable_issue (issue : dict) : bool :=
  match valid_id (Py.get "id" issue) with
  | Some _ =>
      negb (forallb (fun k => IssueSpec.hashable (Py.get k issue)) enum_fields)
  | None => false
  end.

(** The edge that an entry of [depends_on] adds for the issue [id]: none
    for an entry that is not a non-blank string, that is [id] itself, or
    that the issue map does not know. *)
Definition dep_target (imap : issue_map) (id : string) (dep : json)
  : list string :=
  match valid_id dep with
  | Some dep_id =>
      if String.eqb dep_id id then []
      else if Py.odict_mem dep_id imap then [dep_id] else []
  | None => []
  end.

(** The edges that the [depends_on] of [issue] adds for the issue [id]. *)
Definition deps_list (imap : issue_map) (id : string) (issue : dict)
  : list string :=
  match Py.get_default "depends_on" (JList []) issue with
  | JList depends_on => flat_map (dep_target imap id) depends_on
  | _ => []
  end.

(** The adjacency list of an issue id in the dependency graph. *)
Definition issue_deps (imap : issue_map) (id : string) : list string :=
  match Py.odict_get id imap with
  | Some (_, issue) => deps_list imap id issue
  | None => []
  end.

(** The elements of a list, each once, in the order of their first
    occurrences. *)
Fixpoint first_occurrences (l : list string) : list string :=
  match l with
  | [] => []
  | x :: rest =>
      x :: List.filter (fun y => negb (String.eqb y x)) (first_occurrences rest)
  end.

(** The ids of the rows that pass the id check, in order. *)
Fixpoint valid_ids (rows : list (nat * dict)) : list string :=
  match rows with
  | [] => []
  | row :: rest =>
      match IssueSpec.row_id row with
      | Some id => id :: valid_ids rest
      | None => valid_ids rest
      end
  end.

(** A non-empty run of digits. *)
Definition digits (s : chars) : Prop :=
  s <> [] /\ Forall (fun c => isdigit c = true) s.

(** [s] reads: [path], a colon, a number, optionally a dash and a second
    number, and optionally one final line feed; [path] is not empty and
    holds no line feed. *)
Definition ref_shape (s path : chars) : Prop :=
  exists n range nl,
    s = path ++ ":"%char :: n ++ range ++ nl
    /\ path <> [] /\ (LF ∉ path) /\ digits n
    /\ (range = [] \/ exists m, range = "-"%char :: m /\ digits m)
    /\ (nl = [] \/ nl = [LF]).

(** A non-empty run of whitespace. *)
Definition spaces (s : chars) : Prop := s <> [] /\ FieldSpec.blank s.

(** [s] reads as a task header: three hashes, whitespace, [Task],
    whitespace, the number [id], a colon, whitespace and the text [g],
    which is not empty and holds no line feed (one final line feed is let
    through). *)
Definition header_shape (s id g : chars) : Prop :=
  exists ws1 ws2 ws3 nl,
    s = String.list_ascii_of_string "###" ++ ws1
        ++ String.list_ascii_of_string "Task" ++ ws2
        ++ id ++ ":"%char :: ws3 ++ g ++ nl
    /\ spaces ws1 /\ spaces ws2 /\ spaces ws3
    /\ dotted_decimal id
    /\ g <> [] /\ (LF ∉ g)
    /\ (nl = [] \/ nl = [LF]).

(** A text without line feed: [print] shows it as one line. *)
Definition no_linefeed (s : string) : Prop :=
  FieldSpec.one_line (String.list_ascii_of_string s).

(** [enumerate(lines, start=idx)]. *)
Definition enumerate {A} (idx : nat) (l : list A) : list (nat * A) :=
  zip (seq idx (length l)) l.

(** The rows and the locations of the ERRORs that the loop over the
    lines of a snapshot gives. *)
Definition parsed_row (entry : nat * jsonl_line) : option (nat * dict) :=
  match entry with
  | (n, Json (JDict d)) => Some (n, d)
  | _ => None
  end.

Definition rejected_at (path : string) (entry : nat * jsonl_line)
  : option string :=
  if is_dict_line (snd entry) then None else Some (loc path (fst entry)).

(** A list of numbers in which each one is below all the later ones. *)
Fixpoint increasing (l : list nat) : Prop :=
  match l with
  | [] => True
  | x :: rest => Forall (fun y => x < y) rest /\ increasing rest
  end.

(** The id and the title of a task header line, when the line is one. *)
Definition header_of (line : string) : option (string * string) :=
  match Re.match_ Re.no_flags Re.TASK_HEADER_RE
          (String.list_ascii_of_string (strip line)) with
  | Some m =>
      Some (String.string_of_list_ascii (Re.group 1 m),
            String.string_of_list_ascii (strip_chars (Re.group 2 m)))
  | None => None
  end.

(** The lines up to the first task header. *)
Fixpoint body_lines (lines : list string) : list string :=
  match lines with
  | [] => []
  | line :: rest =>
      match header_of line with
      | Some _ => []
      | None => line :: body_lines rest
      end
  end.

(** The text cut at its task headers: a task for each header line, with
    the lines up to the next header; [idx] is the number of the first
    line. *)
Fixpoint segments (idx : nat) (lines : list string) : list Plan.task :=
  match lines with
  | [] => []
  | line :: rest =>
      match header_of line with
      | Some (tid, ttl) =>
          Plan.mkTask tid ttl idx (line :: body_lines rest)
          :: segments (S idx) rest
      | None => segments (S idx) rest
      end
  end.

End MoreSpec.

(* ===================================================================== *)
(** * Theorems                                                            *)
(* ===================================================================== *)

(** ** The report model *)

Module ReportFacts.
Import ReportOps.

Lemma count_severity_app sev l1 l2 :
  count_severity sev (l1 ++ l2) = count_severity sev l1 + count_severity sev l2.
Proof.
  induction l1 as [|f l1 IH]; simpl; [reflexivity|].
  rewrite IH. lia.
Qed.

Lemma count_severity_filter sev l :
  count_severity sev l
  = length (List.filter (fun f => severity_eqb (f_severity f) sev) l).
Proof.
  induction l as [|f l IH]; simpl; [reflexivity|].
  destruct (severity_eqb (f_severity f) sev); simpl; lia.
Qed.

Lemma apply_call_findings r c :
  findings (apply_call r c) = findings r ++ [call_finding c].
Proof. destruct c; reflexivity. Qed.

Lemma apply_calls_findings cs : forall r,
  findings (apply_calls r cs) = findings r ++ map call_finding cs.
Proof.
  unfold apply_calls.
  induction cs as [|c cs IH]; intros r; cbn [fold_left map].
  - by rewrite app_nil_r.
  - rewrite IH, apply_call_findings. by rewrite <- app_assoc.
Qed.

Lemma count_call_findings sev cs :
  count_severity sev (map call_finding cs)
  = length (List.filter (fun c => severity_eqb (call_severity c) sev) cs).
Proof.
  induction cs as [|c cs IH]; simpl; [reflexivity|].
  rewrite IH. destruct c; destruct sev; simpl; reflexivity.
Qed.

(** C9.  After any sequence of [error]/[warn]/[info] calls on a report,
    [errors] is the number of findings with severity ERROR and [warnings]
    the number with severity WARN; each grows by the number of calls of
    its own kind, so INFO findings count toward neither; and the findings
    are the old ones, in their order, followed by the new ones in call
    order: nothing is removed. *)
Theorem report_counts_and_growth (r : Report) (cs : list append_call) :
  let r' := apply_calls r cs in
  errors r'
    = length (List.filter (fun f => severity_eqb (f_severity f) ERROR) (findings r'))
  /\ warnings r'
    = length (List.filter (fun f => severity_eqb (f_severity f) WARN) (findings r'))
  /\ errors r'
    = errors r + length (List.filter (fun c => severity_eqb (call_severity c) ERROR) cs)
  /\ warnings r'
    = warnings r + length (List.filter (fun c => severity_eqb (call_severity c) WARN) cs)
  /\ findings r' = findings r ++ map call_finding cs
  /\ length (findings r') = length (findings r) + length cs.
Proof.
  cbv zeta. unfold errors, warnings.
  rewrite !apply_calls_findings, !count_severity_app, !count_call_findings.
  rewrite <- !count_severity_filter, !count_severity_app, !count_call_findings.
  rewrite length_app, length_map. repeat split; reflexivity.
Qed.

End ReportFacts.

(** ** The cycle detector *)

Module CycleFacts.
Import Cycle Graph.

Lemma state_get_set_state n v s m :
  state_get (set_state n v s) m = if decide (n = m) then v else state_get s m.
Proof.
  unfold state_get, set_state; simpl. rewrite lookup_insert.
  by destruct (decide (n = m)).
Qed.

Lemma state_get_set_parent n p s m :
  state_get (set_parent n p s) m = state_get s m.
Proof. reflexivity. Qed.

Lemma state_get_init nodes n : default 0 (init_state nodes !! n) = 0.
Proof.
  unfold init_state.
  assert (H : forall (m : gmap string nat),
             default 0 (m !! n) = 0 ->
             default 0 (fold_left (fun m n => <[n := 0]> m) nodes m !! n) = 0).
  { induction nodes as [|x nodes IH]; intros m Hm; simpl; [done|].
    apply IH. rewrite lookup_insert. by destruct (decide (x = n)). }
  apply H. by rewrite lookup_empty.
Qed.

Section Search.
Variable E : graph.
Variable N : list string.

(** *** Walks *)

Lemma is_walk_snoc l a b :
  is_walk E (l ++ [a]) -> edge E a b -> is_walk E (l ++ [a; b]).
Proof.
  induction l as [|x l IH]; simpl; intros Hw Hab.
  - by split.
  - destruct l as [|y l]; simpl in *.
    + destruct Hw as [Hxa _]. by repeat split.
    + destruct Hw as [Hxy Hw]. split; [done|]. by apply IH.
Qed.

Lemma is_walk_lookup l :
  is_walk E l ->
  forall i a b, l !! i = Some a -> l !! (S i) = Some b -> edge E a b.
Proof.
  induction l as [|x l IH]; intros Hw i a b Ha Hb; [done|].
  destruct l as [|y l]; [done|].
  destruct Hw as [Hxy Hw].
  destruct i as [|i]; simpl in *.
  - by simplify_eq.
  - by eapply IH.
Qed.

Lemma is_walk_tc l a b :
  is_walk E (a :: l ++ [b]) -> tc (edge E) a b.
Proof.
  revert a. induction l as [|x l IH]; intros a Hw; simpl in *.
  - apply tc_once, Hw.
  - destruct Hw as [Hax Hw]. eapply tc_l; [done|]. by apply IH.
Qed.

Lemma linked_app_l par l1 l2 : linked E par (l1 ++ l2) -> linked E par l1.
Proof.
  induction l1 as [|c l1 IH]; [done|]. simpl.
  destruct l1 as [|p l1]; [done|]. simpl.
  intros (Hp & He & Hl). by repeat split; [..|apply IH].
Qed.

Lemma linked_rev_walk par l : linked E par l -> is_walk E (rev l).
Proof.
  induction l as [|c l IH]; [done|]. simpl.
  destruct l as [|p l]; [done|].
  intros (Hp & He & Hl). simpl. rewrite <- app_assoc. simpl.
  apply is_walk_snoc; [|done]. by apply IH.
Qed.

Lemma linked_insert par stk n p :
  n ∉ stk -> linked E par stk -> linked E (<[n := p]> par) stk.
Proof.
  induction stk as [|c stk IH]; [done|]. simpl.
  destruct stk as [|q stk]; [done|].
  intros Hn (Hp & He & Hl). split; [|split; [done|]].
  - rewrite lookup_insert_ne; [done|]. intros ->. apply Hn. by left.
  - apply IH; [|done]. intros Hin. apply Hn. by right.
Qed.

Lemma linked_parent par l x l' :
  linked E par (l ++ x :: l') -> forall c, c ∈ l -> is_Some (par !! c).
Proof.
  induction l as [|c0 l IH]; intros Hl c Hc; [by apply elem_of_nil in Hc|].
  simpl in Hl. destruct l as [|c1 l]; simpl in *.
  - destruct Hl as (Hp & _). apply list_elem_of_singleton in Hc. subst. eauto.
  - destruct Hl as (Hp & _ & Hl).
    apply elem_of_cons in Hc as [->|Hc]; [eauto|]. by apply IH.
Qed.

Lemma nodup_keys_size (par : gmap string string) l :
  NoDup l -> (forall c, c ∈ l -> is_Some (par !! c)) -> length l <= size par.
Proof.
  intros Hnd Hin.
  rewrite <- (size_dom (D := gset string)).
  rewrite <- (size_list_to_set (C := gset string) l) by done.
  apply subseteq_size. intros c Hc.
  apply elem_of_list_to_set in Hc. apply elem_of_dom. by apply Hin.
Qed.

(** *** The parent walk *)

Lemma walk_parents_spec par nxt post pre : forall fuel chain,
  linked E par (pre ++ nxt :: post) -> nxt ∉ pre -> length pre < fuel ->
  walk_parents fuel par nxt (default nxt (head pre)) chain
  = Some (chain ++ pre).
Proof.
  induction pre as [|c pre IH]; intros fuel chain Hl Hn Hf.
  - destruct fuel; [simpl in *; lia|]. simpl.
    rewrite String.eqb_refl. simpl. by rewrite app_nil_r.
  - destruct fuel; [simpl in *; lia|]. simpl.
    assert (c <> nxt) as Hc by (intros ->; apply Hn; by left).
    apply String.eqb_neq in Hc. rewrite Hc. simpl.
    assert (par !! c = Some (default nxt (head pre))) as ->.
    { simpl in Hl. destruct pre; simpl in *; tauto. }
    rewrite IH.
    + by rewrite <- app_assoc.
    + simpl in Hl. destruct pre; simpl in *; tauto.
    + intros Hin. apply Hn. by right.
    + simpl in Hf. lia.
Qed.

Lemma build_cycle_spec s node stk nxt :
  inv E N s (node :: stk) -> state_get s nxt = 1 -> edge E node nxt ->
  exists c, build_cycle s node nxt = Ok c /\ closed_walk E c
            /\ head c = Some nxt.
Proof.
  intros Hinv Hst Hedge.
  assert (nxt ∈ node :: stk) as Hin by by apply (inv_visiting _ _ _ _ Hinv).
  apply list_elem_of_split_l in Hin as (pre & post & Hsplit & Hpre).
  assert (default nxt (head pre) = node) as Hhd.
  { destruct pre; simpl in *; by simplify_eq. }
  pose proof (inv_linked _ _ _ _ Hinv) as Hl. rewrite Hsplit in Hl.
  pose proof (inv_nodup _ _ _ _ Hinv) as Hnd. rewrite Hsplit in Hnd.
  assert (length pre <= size (parent s)) as Hlen.
  { apply nodup_keys_size.
    - by apply NoDup_app in Hnd as (? & _).
    - by eapply linked_parent. }
  unfold build_cycle.
  pose proof (walk_parents_spec (parent s) nxt post pre
                (S (size (parent s))) [nxt] Hl Hpre ltac:(lia)) as Hwalk.
  rewrite Hhd in Hwalk. rewrite Hwalk.
  eexists; split; [done|].
  assert (rev (([nxt] ++ pre) ++ [nxt]) = (nxt :: rev pre) ++ [nxt]) as ->.
  { rewrite !rev_app_distr. reflexivity. }
  assert (is_walk E ((nxt :: rev pre) ++ [nxt])) as Hw.
  { assert (is_walk E (rev (pre ++ [nxt]))) as Hw0.
    { eapply linked_rev_walk.
      replace (pre ++ nxt :: post) with ((pre ++ [nxt]) ++ post) in Hl
        by by rewrite <- app_assoc.
      by eapply linked_app_l. }
    rewrite rev_app_distr in Hw0.
    destruct pre as [|c pre].
    - simpl in Hhd. subst. by split.
    - simpl in Hhd. subst c.
      replace ((nxt :: rev (node :: pre)) ++ [nxt])
        with ((nxt :: rev pre) ++ [node; nxt])
        by (simpl; by rewrite <- app_assoc).
      apply is_walk_snoc; [|done]. exact Hw0. }
  split; [|done].
  split; [|split].
  - rewrite length_app. simpl. lia.
  - by rewrite last_snoc.
  - by apply is_walk_lookup.
Qed.

(** *** The invariant under the state updates *)

Lemma inv_set_parent s stk nxt p :
  inv E N s stk -> state_get s nxt = 0 -> inv E N (set_parent nxt p s) stk.
Proof.
  intros [H1 H2 H3 H4 H5 H6 H7] H0. split; try done.
  simpl. apply linked_insert; [|done].
  intros Hin. apply H1 in Hin. lia.
Qed.

Lemma inv_push s stk node :
  inv E N s stk -> state_get s node = 0 -> node ∈ candidates N E ->
  (exists r, r ∈ N /\ rtc (edge E) r node) ->
  link_to_top E s stk node ->
  inv E N (set_state node 1 s) (node :: stk).
Proof.
  intros [H1 H2 H3 H4 H5 H6 H7] H0 Hc Hr Hl.
  assert (node ∉ stk) as Hnotin.
  { intros Hin. apply H1 in Hin. lia. }
  split.
  - intros n. rewrite state_get_set_state, elem_of_cons.
    destruct (decide (node = n)) as [->|Hne].
    + split; [by left|done].
    + rewrite H1. split; [by right|]. intros [?|?]; [congruence|done].
  - by constructor.
  - simpl. destruct stk as [|top stk]; [done|].
    destruct Hl as [Hp He]. by repeat split.
  - intros n. rewrite state_get_set_state.
    destruct (decide (node = n)); [lia|apply H4].
  - destruct H5 as (L & Ht & HL). exists L. split; [done|].
    intros n. rewrite state_get_set_state.
    destruct (decide (node = n)) as [->|Hne]; [|apply HL].
    split; [lia|]. intros Hin. apply HL in Hin. lia.
  - intros n [->|Hin]%elem_of_cons; [done|by apply H6].
  - intros n [->|Hin]%elem_of_cons; [done|by apply H7].
Qed.

Lemma inv_pop s stk node :
  inv E N s (node :: stk) ->
  (forall v, edge E node v -> state_get s v = 2) ->
  inv E N (set_state node 2 s) stk.
Proof.
  intros [H1 H2 H3 H4 H5 H6 H7] Hsucc.
  apply NoDup_cons in H2 as [Hnotin Hnd].
  split.
  - intros n. rewrite state_get_set_state.
    destruct (decide (node = n)) as [->|Hne].
    + split; [lia|done].
    + rewrite H1, elem_of_cons. split; [|by right].
      intros [?|?]; [congruence|done].
  - done.
  - simpl in H3. destruct stk as [|p stk]; [done|]. tauto.
  - intros n. rewrite state_get_set_state.
    destruct (decide (node = n)); [lia|apply H4].
  - destruct H5 as (L & Ht & HL). exists (node :: L). split.
    + simpl. split; [|done]. intros v Hv. apply HL. by apply Hsucc.
    + intros n. rewrite state_get_set_state, elem_of_cons.
      destruct (decide (node = n)) as [->|Hne].
      * split; [by left|done].
      * rewrite HL. split; [by right|]. intros [?|?]; [congruence|done].
  - intros n Hin. apply H6. by right.
  - intros n Hin. apply H7. by right.
Qed.

Lemma edge_candidate a b : edge E a b -> b ∈ candidates N E.
Proof.
  unfold edge, edges_get, candidates. intros Hb.
  destruct (E !! a) as [l|] eqn:Ha; simpl in Hb; [|by apply elem_of_nil in Hb].
  apply elem_of_app. right.
  apply list_elem_of_In, in_concat. exists l. split.
  - apply in_map_iff. exists (a, l). split; [done|].
    apply list_elem_of_In. by apply elem_of_map_to_list.
  - by apply list_elem_of_In.
Qed.

Lemma stack_bound s stk : inv E N s stk -> length stk <= length (candidates N E).
Proof.
  intros Hinv. apply submseteq_length, NoDup_submseteq.
  - apply (inv_nodup _ _ _ _ Hinv).
  - apply (inv_cand _ _ _ _ Hinv).
Qed.

Lemma closed_walk_truthy c : closed_walk E c -> truthy (Some c) = true.
Proof. intros (Hlen & _). destruct c; simpl in *; [lia|done]. Qed.

(** *** The search *)

Lemma dfs_loop_spec f node stk s0 :
  dfs_ok E N f ->
  length (candidates N E) < S f + length stk ->
  forall succs done_ s,
    edges_get E node = done_ ++ succs ->
    inv E N s (node :: stk) ->
    (forall v, v ∈ done_ -> state_get s v = 2) ->
    (forall n, state_get s0 n = 2 -> state_get s n = 2) ->
    post E N s0 stk node (dfs_loop (dfs E f) node succs s).
Proof.
  intros Hok Hfuel.
  induction succs as [|nxt rest IH]; intros done_ s Hsplit Hinv Hdone Hmono.
  - simpl. exists (set_state node 2 s), None. split; [done|].
    rewrite app_nil_r in Hsplit.
    split; [|split].
    + apply inv_pop; [done|]. intros v Hv. apply Hdone.
      unfold edge in Hv. by rewrite Hsplit in Hv.
    + rewrite state_get_set_state. by destruct (decide (node = node)).
    + intros n Hn. rewrite state_get_set_state.
      destruct (decide (node = n)); [done|by apply Hmono].
  - assert (edge E node nxt) as Hedge.
    { unfold edge. rewrite Hsplit. apply elem_of_app. right. by left. }
    assert (edges_get E node = (done_ ++ [nxt]) ++ rest) as Hsplit'.
    { by rewrite <- app_assoc. }
    simpl. destruct (state_get s nxt) as [|[|k]] eqn:Hst.
    + (* unseen: recurse *)
      destruct (Hok nxt (set_parent nxt node s) (node :: stk)) as (s' & r & Hr & Hpost).
      * by apply inv_set_parent.
      * done.
      * by eapply edge_candidate.
      * destruct (inv_reach _ _ _ _ Hinv node) as (r & HrN & Hrn); [by left|].
        exists r. split; [done|]. by eapply rtc_r.
      * simpl. split; [|done]. by rewrite lookup_insert_eq.
      * simpl. lia.
      * rewrite Hr. simpl. destruct r as [c|].
        -- destruct Hpost as (Hcw & Hreach).
           rewrite (closed_walk_truthy c Hcw).
           exists s', (Some c). by split.
        -- destruct Hpost as (Hinv' & Hnxt & Hmono').
           simpl. apply (IH (done_ ++ [nxt])); [done|done| |].
           ++ intros v [Hv|Hv]%elem_of_app.
              ** apply Hmono'. rewrite state_get_set_parent. by apply Hdone.
              ** apply list_elem_of_singleton in Hv. by subst.
           ++ intros n Hn. apply Hmono'. rewrite state_get_set_parent.
              by apply Hmono.
    + (* visiting: a cycle *)
      destruct (build_cycle_spec s node stk nxt Hinv Hst Hedge)
        as (c & Hc & Hcw & Hhd).
      rewrite Hc. simpl. exists s, (Some c). split; [done|].
      split; [done|].
      destruct (inv_reach _ _ _ _ Hinv nxt) as (r & HrN & Hrn).
      { by apply (inv_visiting _ _ _ _ Hinv). }
      by exists r, nxt.
    + (* done *)
      assert (state_get s nxt = 2) as Hst2.
      { pose proof (inv_values _ _ _ _ Hinv nxt). lia. }
      apply (IH (done_ ++ [nxt])); [done|done| |done].
      intros v [Hv|Hv]%elem_of_app; [by apply Hdone|].
      apply list_elem_of_singleton in Hv. by subst.
Qed.

Lemma dfs_spec f : dfs_ok E N f.
Proof.
  induction f as [|f IH]; intros node s stk Hinv Hst Hc Hr Hl Hfuel.
  - pose proof (stack_bound s stk Hinv). lia.
  - simpl.
    apply (dfs_loop_spec f node stk s IH Hfuel (edges_get E node) []).
    + done.
    + by apply inv_push.
    + intros v Hv. by apply elem_of_nil in Hv.
    + intros n Hn. rewrite state_get_set_state.
      destruct (decide (node = n)); [subst; lia|done].
Qed.

Lemma top_loop_spec fuel :
  length (candidates N E) < fuel ->
  forall nodes s,
    (forall n, n ∈ nodes -> n ∈ N) -> inv E N s [] ->
    exists r, top_loop E fuel nodes s = Ok r /\
      match r with
      | None =>
          exists s', inv E N s' [] /\
            (forall n, n ∈ nodes -> state_get s' n = 2) /\
            (forall n, state_get s n = 2 -> state_get s' n = 2)
      | Some c =>
          closed_walk E c /\
          exists n x, n ∈ N /\ rtc (edge E) n x /\ head c = Some x
      end.
Proof.
  intros Hfuel.
  induction nodes as [|node rest IH]; intros s HN Hinv.
  - exists None. split; [done|]. exists s. split; [done|]. split; [|done].
    intros n Hn. by apply elem_of_nil in Hn.
  - simpl. destruct (state_get s node =? 0) eqn:Hz.
    + apply Nat.eqb_eq in Hz.
      destruct (dfs_spec fuel node s []) as (s' & r & Hr & Hpost).
      * done.
      * done.
      * apply elem_of_app. left. apply HN. by left.
      * exists node. split; [apply HN; by left|done].
      * done.
      * simpl. lia.
      * rewrite Hr. simpl. destruct r as [c|].
        -- destruct Hpost as (Hcw & Hreach).
           rewrite (closed_walk_truthy c Hcw).
           exists (Some c). by split.
        -- destruct Hpost as (Hinv' & Hnode & Hmono). simpl.
           destruct (IH s') as (r & Hr' & Hpost'); [|done|].
           { intros n Hn. apply HN. by right. }
           exists r. split; [done|]. destruct r as [c|]; [done|].
           destruct Hpost' as (s'' & Hinv'' & Hall & Hmono').
           exists s''. split; [done|]. split.
           ++ intros n [->|Hn]%elem_of_cons; [by apply Hmono'|by apply Hall].
           ++ intros n Hn. by apply Hmono', Hmono.
    + apply Nat.eqb_neq in Hz.
      assert (state_get s node = 2) as Hst2.
      { pose proof (inv_values _ _ _ _ Hinv node) as Hv.
        assert (state_get s node <> 1).
        { intros H1. apply (inv_visiting _ _ _ _ Hinv) in H1.
          by apply elem_of_nil in H1. }
        lia. }
      destruct (IH s) as (r & Hr' & Hpost'); [|done|].
      { intros n Hn. apply HN. by right. }
      exists r. split; [done|]. destruct r as [c|]; [done|].
      destruct Hpost' as (s'' & Hinv'' & Hall & Hmono').
      exists s''. split; [done|]. split; [|done].
      intros n [->|Hn]%elem_of_cons; [by apply Hmono'|by apply Hall].
Qed.

Lemma inv_init : inv E N (mkSearch (init_state N) ∅) [].
Proof.
  assert (forall n, state_get (mkSearch (init_state N) ∅) n = 0) as H0.
  { intros n. apply state_get_init. }
  split.
  - intros n. rewrite H0. split; [done|]. intros Hn. by apply elem_of_nil in Hn.
  - constructor.
  - done.
  - intros n. rewrite H0. lia.
  - exists []. split; [done|]. intros n. rewrite H0. split; [done|].
    intros Hn. by apply elem_of_nil in Hn.
  - intros n Hn. by apply elem_of_nil in Hn.
  - intros n Hn. by apply elem_of_nil in Hn.
Qed.

(** *** Done nodes lie on no cycle *)

Lemma topo_closed L : topo E L -> forall x y, x ∈ L -> edge E x y -> y ∈ L.
Proof.
  induction L as [|u L IH]; intros Ht x y Hx Hxy.
  - by apply elem_of_nil in Hx.
  - destruct Ht as [Hu Ht]. apply elem_of_cons in Hx as [->|Hx].
    + right. by apply Hu.
    + right. by eapply IH.
Qed.

Lemma topo_closed_rtc L : topo E L -> forall x y, rtc (edge E) x y -> x ∈ L -> y ∈ L.
Proof.
  intros Ht x y Hrtc. induction Hrtc as [|x y z Hxy _ IH]; [done|].
  intros Hx. apply IH. by eapply topo_closed.
Qed.

Lemma topo_no_cycle L : topo E L -> forall x, x ∈ L -> ~ tc (edge E) x x.
Proof.
  induction L as [|u L IH]; intros Ht x Hx Hcyc.
  - by apply elem_of_nil in Hx.
  - destruct Ht as [Hu Ht].
    destruct (decide (x ∈ L)) as [HxL|HxL]; [by eapply IH|].
    apply elem_of_cons in Hx as [->|Hx]; [|done].
    assert (exists v, edge E u v /\ rtc (edge E) v u) as (v & Huv & Hvu).
    { inversion Hcyc as [? ? Hxy|? y ? Hxy Hyz]; subst.
      - exists u. by split.
      - exists y. split; [done|]. by apply tc_rtc. }
    apply HxL. eapply topo_closed_rtc; [done|done|]. by apply Hu.
Qed.

(** *** [detect_cycle] *)

Lemma detect_cycle_spec :
  exists r, detect_cycle N E = Ok r /\
    match r with
    | None => forall n, n ∈ N -> ~ tc (edge E) n n
    | Some c =>
        closed_walk E c /\
        exists n x, n ∈ N /\ rtc (edge E) n x /\ head c = Some x
    end.
Proof.
  unfold detect_cycle, detect_cycle_fuel.
  destruct (top_loop_spec (depth_bound N E) ltac:(unfold depth_bound; lia)
              N (mkSearch (init_state N) ∅) ltac:(done) inv_init)
    as (r & Hr & Hpost).
  exists r. split; [done|]. destruct r as [c|]; [done|].
  destruct Hpost as (s' & Hinv & Hall & _).
  destruct (inv_done _ _ _ _ Hinv) as (L & Ht & HL).
  intros n Hn. eapply topo_no_cycle; [done|]. apply HL. by apply Hall.
Qed.

Lemma closed_walk_cycle c x :
  closed_walk E c -> head c = Some x -> tc (edge E) x x.
Proof.
  intros (Hlen & Hhl & Hw) Hhd.
  destruct c as [|a c]; [done|]. simpl in Hhd. simplify_eq.
  destruct (decide (c = [])) as [->|Hne]; [simpl in Hlen; lia|].
  destruct (exists_last Hne) as (l & b & ->).
  simpl in Hhl. rewrite app_comm_cons, last_snoc in Hhl. simplify_eq.
  clear Hlen Hne.
  assert (forall l a, (forall i p q, (a :: l ++ [b]) !! i = Some p ->
            (a :: l ++ [b]) !! S i = Some q -> edge E p q) ->
          tc (edge E) a b) as Hgen.
  { clear. induction l as [|y l IH]; intros a Hw.
    - apply tc_once. by apply (Hw 0).
    - eapply tc_l; [by apply (Hw 0)|]. apply IH.
      intros i p q Hp Hq. by apply (Hw (S i)). }
  by apply Hgen with l.
Qed.

End Search.

(** *** Consequences used by the statements *)

Lemma tc_last_step (E : graph) x z :
  tc (edge E) x z -> exists y, edge E y z.
Proof.
  induction 1 as [x y Hxy|x y z Hxy _ IH]; [by exists x|done].
Qed.

Lemma no_edges_no_cycle (N : list string) (E : graph) :
  (forall a, edges_get E a = []) -> ~ cycle_reachable N E.
Proof.
  intros Hno (n & x & _ & _ & Hcyc).
  apply tc_last_step in Hcyc as (y & Hy).
  unfold edge in Hy. rewrite Hno in Hy. by apply elem_of_nil in Hy.
Qed.

Lemma no_nodes_no_cycle (E : graph) : ~ cycle_reachable [] E.
Proof. intros (n & x & Hn & _). by apply elem_of_nil in Hn. Qed.

(** A decision procedure for [targets_in] on a concrete graph. *)
Lemma targets_in_check (N : list string) (E : graph) :
  forallb (fun kl => forallb (fun b => bool_decide (b ∈ N)) (snd kl))
          (map_to_list E) = true ->
  targets_in N E.
Proof.
  intros Hall a b Hab. unfold edge, edges_get in Hab.
  destruct (E !! a) as [l|] eqn:Ha; simpl in Hab; [|by apply elem_of_nil in Hab].
  rewrite forallb_forall in Hall.
  specialize (Hall (a, l)). simpl in Hall.
  rewrite forallb_forall in Hall.
  eapply bool_decide_eq_true_1, Hall.
  - apply list_elem_of_In. by apply elem_of_map_to_list.
  - by apply list_elem_of_In.
Qed.

(** The empty graph and a graph without edges, for the record. *)
Lemma detect_cycle_empty_graph : detect_cycle [] ∅ = Ok None.
Proof.
  destruct (detect_cycle_spec ∅ []) as (r & Hr & Hpost).
  rewrite Hr. destruct r as [c|]; [|done].
  destruct Hpost as (_ & n & x & Hn & _). by apply elem_of_nil in Hn.
Qed.

Lemma detect_cycle_no_edges (N : list string) (E : graph) :
  (forall a, edges_get E a = []) -> detect_cycle N E = Ok None.
Proof.
  intros Hno.
  destruct (detect_cycle_spec E N) as (r & Hr & Hpost).
  rewrite Hr. destruct r as [c|]; [|done]. exfalso.
  destruct Hpost as (Hcw & n & x & Hn & Hnx & Hhd).
  apply (no_edges_no_cycle N E Hno). exists n, x.
  repeat split; [done|done|]. by eapply closed_walk_cycle.
Qed.

(** C1.  When no cycle can be reached from the nodes of [N],
    [detect_cycle N E] returns [None].  (The statement does not need the
    edges to stay inside [N].)  The empty graph and the graphs without
    edges are instances: see [no_nodes_no_cycle], [no_edges_no_cycle]. *)
Theorem detect_cycle_acyclic_none (N : list string) (E : graph)
    (Hacyclic : ~ cycle_reachable N E) :
  detect_cycle N E = Ok None.
Proof.
  destruct (detect_cycle_spec E N) as (r & Hr & Hpost).
  rewrite Hr. destruct r as [c|]; [|done]. exfalso.
  destruct Hpost as (Hcw & n & x & Hn & Hnx & Hhd).
  apply Hacyclic. exists n, x.
  repeat split; [done|done|]. by eapply closed_walk_cycle.
Qed.

Lemma detect_cycle_acyclic_none_witness :
  detect_cycle [] ∅ = Ok None
  /\ detect_cycle ["A"; "B"] (list_to_map [("A", []); ("B", [])]) = Ok None.
Proof.
  split.
  - apply (detect_cycle_acyclic_none [] ∅). apply no_nodes_no_cycle.
  - apply (detect_cycle_acyclic_none ["A"; "B"]
             (list_to_map [("A", []); ("B", [])])).
    apply no_edges_no_cycle. intros a. unfold edges_get.
    destruct (decide (a = "A")) as [->|HA]; [done|].
    destruct (decide (a = "B")) as [->|HB]; [done|].
    simpl. by rewrite !lookup_insert_ne, lookup_empty.
Defined.

(** C2.  When the edges point only to nodes of [N] and the graph has a
    cycle, [detect_cycle N E] returns a list that is a closed walk: at
    least two entries, the first equal to the last, and every consecutive
    pair [(a, b)] has [b] in the adjacency list of [a]. *)
Theorem detect_cycle_cyclic_walk (N : list string) (E : graph)
    (Htargets : targets_in N E) (Hcycle : has_cycle E) :
  exists c, detect_cycle N E = Ok (Some c) /\
    2 <= length c /\ head c = last c /\
    forall i a b, c !! i = Some a -> c !! (S i) = Some b ->
                  b ∈ edges_get E a.
Proof.
  destruct (detect_cycle_spec E N) as (r & Hr & Hpost).
  destruct r as [c|].
  - exists c. split; [done|]. apply Hpost.
  - exfalso. destruct Hcycle as (x & Hx).
    apply (Hpost x); [|done].
    destruct (tc_last_step E x x Hx) as (y & Hy). by eapply Htargets.
Qed.

Lemma detect_cycle_cyclic_walk_witness :
  exists c,
    detect_cycle ["A"; "B"] (list_to_map [("A", ["B"]); ("B", ["A"])])
    = Ok (Some c) /\
    2 <= length c /\ head c = last c /\
    forall i a b, c !! i = Some a -> c !! (S i) = Some b ->
      b ∈ edges_get (list_to_map [("A", ["B"]); ("B", ["A"])]) a.
Proof.
  apply (detect_cycle_cyclic_walk ["A"; "B"]
           (list_to_map [("A", ["B"]); ("B", ["A"])])).
  - apply targets_in_check. vm_compute. reflexivity.
  - exists "A". apply tc_l with "B".
    + unfold edge. vm_compute. constructor.
    + apply tc_once. unfold edge. vm_compute. constructor.
Defined.

End CycleFacts.

(** ** The field extractor *)

Module FieldFacts.
Import Text Re Plan FieldSpec.

(** *** Stripping *)

Lemma lstrip_blank (ws x : chars) : blank ws -> lstrip_chars (ws ++ x) = lstrip_chars x.
Proof.
  induction 1 as [|c ws Hc _ IH]; [done|]. simpl. by rewrite Hc.
Qed.

Lemma lstrip_all_blank (ws : chars) : blank ws -> lstrip_chars ws = [].
Proof.
  intros H. rewrite <- (app_nil_r ws). by rewrite lstrip_blank.
Qed.

Lemma lstrip_split (s : chars) :
  exists ws, s = ws ++ lstrip_chars s /\ blank ws /\
    match lstrip_chars s with [] => True | c :: _ => isspace c = false end.
Proof.
  induction s as [|c s (ws & Hs & Hws & Hhd)].
  - exists []. split; [done|]. split; [constructor|done].
  - simpl. destruct (isspace c) eqn:Hc.
    + exists (c :: ws). split; [by rewrite <- app_comm_cons, <- Hs|].
      split; [by constructor|done].
    + exists []. split; [done|]. split; [constructor|done].
Qed.

Lemma lstrip_stop (s : chars) :
  match s with [] => True | c :: _ => isspace c = false end ->
  lstrip_chars s = s.
Proof. destruct s as [|c s]; [done|]. simpl. by intros ->. Qed.

Lemma lstrip_idem (s : chars) : lstrip_chars (lstrip_chars s) = lstrip_chars s.
Proof.
  destruct (lstrip_split s) as (ws & _ & _ & Hhd). by apply lstrip_stop.
Qed.

Lemma lstrip_app_nonblank (x y : chars) :
  lstrip_chars x <> [] -> lstrip_chars (x ++ y) = lstrip_chars x ++ y.
Proof.
  induction x as [|c x IH]; [done|]. simpl.
  destruct (isspace c); [apply IH|done].
Qed.

Lemma blank_rev (ws : chars) : blank ws -> blank (rev ws).
Proof. intros H. unfold blank. apply Forall_forall. intros c Hc.
  apply list_elem_of_In, in_rev, list_elem_of_In in Hc.
  by eapply Forall_forall in H. Qed.

Lemma rstrip_blank (x ws : chars) : blank ws -> rstrip_chars (x ++ ws) = rstrip_chars x.
Proof.
  intros H. unfold rstrip_chars. rewrite rev_app_distr.
  by rewrite lstrip_blank by by apply blank_rev.
Qed.

Lemma rstrip_nil : rstrip_chars [] = [].
Proof. reflexivity. Qed.

Lemma strip_padded (ws2 v ws3 : chars) :
  blank ws2 -> blank ws3 -> strip_chars (ws2 ++ v ++ ws3) = strip_chars v.
Proof.
  intros H2 H3. unfold strip_chars. rewrite lstrip_blank by done.
  destruct (lstrip_chars v) as [|c v'] eqn:Hv.
  - destruct (lstrip_split v) as (ws & Hs & Hws & _). rewrite Hv, app_nil_r in Hs.
    subst v. rewrite lstrip_blank by done. by rewrite lstrip_all_blank.
  - rewrite lstrip_app_nonblank by by rewrite Hv.
    rewrite Hv. by apply rstrip_blank.
Qed.

Lemma strip_lstrip (s : chars) : strip_chars (lstrip_chars s) = strip_chars s.
Proof. unfold strip_chars. by rewrite lstrip_idem. Qed.

(** *** Characters *)

Lemma lower_char_star (b : ascii) :
  lower_char b = "*"%char -> b = "*"%char.
Proof.
  destruct b as [[] [] [] [] [] [] [] []]; vm_compute; congruence.
Qed.

Lemma lower_char_colon (b : ascii) :
  lower_char b = ":"%char -> b = ":"%char.
Proof.
  destruct b as [[] [] [] [] [] [] [] []]; vm_compute; congruence.
Qed.

Lemma space_not_star (a : ascii) :
  isspace a = true -> char_eq IGNORECASE "*"%char a = false.
Proof.
  destruct a as [[] [] [] [] [] [] [] []]; vm_compute; congruence.
Qed.

Lemma LF_space : isspace LF = true.
Proof. reflexivity. Qed.

Lemma char_eq_icase a b :
  char_eq IGNORECASE a b = true <-> lower_char a = lower_char b.
Proof. unfold char_eq. simpl. apply Ascii.eqb_eq. Qed.

(** *** The matcher *)

Section Engine.
Context {R : Type}.
Variable fl : flags.

Lemma eat_sound lit : forall p s p' s',
  eat fl lit p s = Some (p', s') ->
  exists pre, s = pre ++ s' /\
    Forall2 (fun a b => char_eq fl a b = true) lit pre.
Proof.
  induction lit as [|a lit IH]; intros p s p' s' H; simpl in H.
  - simplify_eq. exists []. by split.
  - destruct s as [|b s]; [done|].
    destruct (char_eq fl a b) eqn:Hab; [|done].
    apply IH in H as (pre & -> & Hpre).
    exists (b :: pre). split; [done|]. by constructor.
Qed.

Lemma eat_complete lit : forall pre p s',
  Forall2 (fun a b => char_eq fl a b = true) lit pre ->
  exists p', eat fl lit p (pre ++ s') = Some (p', s').
Proof.
  induction lit as [|a lit IH]; intros pre p s' H.
  - inversion H; subst. by exists p.
  - inversion H as [|? b ? pre' Hab Hrest]; subst. simpl. rewrite Hab.
    apply IH. done.
Qed.

Lemma rep_sound c : forall s p (k : option ascii -> chars -> option R) r,
  rep c p s k = Some r ->
  exists ws tl p', s = ws ++ tl /\
    Forall (fun a => in_class c a = true) ws /\ k p' tl = Some r.
Proof.
  induction s as [|a s IH]; intros p k r H; simpl in H.
  - exists [], [], p. by repeat split.
  - destruct (in_class c a) eqn:Ha.
    + destruct (rep c (Some a) s k) as [r'|] eqn:Hrec.
      * simplify_eq. apply IH in Hrec as (ws & tl & p' & -> & Hws & Hk).
        exists (a :: ws), tl, p'. split; [done|]. split; [by constructor|done].
      * exists [], (a :: s), p. by repeat split.
    + exists [], (a :: s), p. by repeat split.
Qed.

(** Greedy success: when the continuation accepts right after the
    longest run of the class, that is the result. *)
Lemma rep_greedy c ws : forall tl p (k : option ascii -> chars -> option R),
  Forall (fun a => in_class c a = true) ws -> stops c tl ->
  (forall p', exists r, k p' tl = Some r) ->
  exists p', rep c p (ws ++ tl) k = k p' tl.
Proof.
  induction ws as [|a ws IH]; intros tl p k Hws Hst Hk.
  - exists p. destruct tl as [|b tl]; [done|]. simpl in *. by rewrite Hst.
  - inversion Hws as [|? ? Ha Hws']; subst. simpl. rewrite Ha.
    destruct (IH tl (Some a) k Hws' Hst Hk) as (p' & Hrec).
    exists p'. rewrite Hrec. by destruct (Hk p') as (r & ->).
Qed.

(** Committed choice: when the continuation rejects every position that
    starts with a character of the class, only the longest run counts. *)
Lemma rep_commit c ws : forall tl p (k : option ascii -> chars -> option R),
  Forall (fun a => in_class c a = true) ws -> stops c tl ->
  (forall p' a s', in_class c a = true -> k p' (a :: s') = None) ->
  exists p', rep c p (ws ++ tl) k = k p' tl.
Proof.
  induction ws as [|a ws IH]; intros tl p k Hws Hst Hk.
  - exists p. destruct tl as [|b tl]; [done|]. simpl in *. by rewrite Hst.
  - inversion Hws as [|? ? Ha Hws']; subst. simpl. rewrite Ha.
    destruct (IH tl (Some a) k Hws' Hst Hk) as (p' & Hrec).
    exists p'. rewrite Hrec. destruct (k p' tl) eqn:Hres; [done|].
    by apply Hk.
Qed.
End Engine.


Lemma forall2_caseless (x y : chars) :
  Forall2 (fun a b => char_eq IGNORECASE a b = true) x y
  <-> lower_chars x = lower_chars y.
Proof.
  split.
  - induction 1 as [|a b x y Hab _ IH]; [done|]. simpl.
    apply char_eq_icase in Hab. by rewrite Hab, IH.
  - revert y. induction x as [|a x IH]; intros [|b y] H; simpl in H.
    + constructor.
    + discriminate.
    + discriminate.
    + injection H as Hab Hxy.
      constructor; [by apply char_eq_icase|by apply IH].
Qed.

Lemma stars_exact (pre : chars) :
  Forall2 (fun a b => char_eq IGNORECASE a b = true)
          (String.list_ascii_of_string "**") pre ->
  pre = String.list_ascii_of_string "**".
Proof.
  intros H. apply forall2_caseless in H.
  destruct pre as [|a [|b [|c pre]]]; simpl in H; try done.
  injection H as Ha Hb. symmetry in Ha, Hb.
  apply lower_char_star in Ha, Hb. by subst.
Qed.

Lemma colon_stars_exact (pre : chars) :
  Forall2 (fun a b => char_eq IGNORECASE a b = true)
          (String.list_ascii_of_string ":**") pre ->
  pre = String.list_ascii_of_string ":**".
Proof.
  intros H. apply forall2_caseless in H.
  destruct pre as [|a [|b [|c [|d pre]]]]; simpl in H; try done.
  injection H as Ha Hb Hc. symmetry in Ha, Hb, Hc.
  apply lower_char_colon in Ha. apply lower_char_star in Hb, Hc. by subst.
Qed.

Lemma match_field_re label (s : chars) :
  match_ IGNORECASE (field_re label) s = rep Space None s (after_indent label).
Proof. reflexivity. Qed.

Lemma firstn_consumed (g tl : chars) :
  firstn (length (g ++ tl) - length tl) (g ++ tl) = g.
Proof.
  rewrite length_app.
  replace (length g + length tl - length tl) with (length g) by lia.
  by rewrite firstn_app, firstn_all, Nat.sub_diag, app_nil_r.
Qed.

Lemma at_eol_end p (s : chars) G :
  at_eol IGNORECASE (mkM p s G) = true -> s = [] \/ s = [LF].
Proof.
  unfold at_eol. simpl. destruct s as [|c [|d s]]; auto.
  - rewrite andb_true_r. intros H%Ascii.eqb_eq. subst. by right.
  - by rewrite andb_false_r.
Qed.

Lemma tail_sound p (rest0 : chars) m :
  run IGNORECASE tail_re (mkM p rest0 []) Some = Some m ->
  exists ws2 g ws3, rest0 = ws2 ++ g ++ ws3 /\ blank ws2 /\ blank ws3
                    /\ groups m = [g].
Proof.
  unfold tail_re. cbn [seq run prev rest groups]. intros H.
  apply rep_sound in H as (ws2 & tl & p1 & -> & Hws2 & H).
  apply rep_sound in H as (g & tl2 & p2 & -> & _ & H).
  cbn [prev rest groups] in H.
  apply rep_sound in H as (ws3 & e & p3 & -> & Hws3 & H).
  destruct (at_eol IGNORECASE _) eqn:Heol in H; [|done].
  simplify_eq. apply at_eol_end in Heol.
  exists ws2, g, (ws3 ++ e). split; [done|]. split; [done|]. split.
  - apply Forall_app. split; [done|].
    destruct Heol as [->| ->]; [constructor|]. by repeat constructor.
  - simpl. by rewrite firstn_consumed.
Qed.

Lemma one_line_dot (s : chars) :
  one_line s -> Forall (fun a => in_class Dot a = true) s.
Proof.
  unfold one_line. intros H. apply Forall_forall. intros c Hc. simpl.
  apply negb_true_iff, Ascii.eqb_neq. intros ->. done.
Qed.

Lemma tail_complete_split p (ws tl : chars) :
  blank ws -> stops Space tl -> one_line tl ->
  exists m, run IGNORECASE tail_re (mkM p (ws ++ tl) []) Some = Some m
            /\ groups m = [tl].
Proof.
  intros Hws Hstop Htl.
  assert (forall p', exists m,
            run IGNORECASE (seq [Group (Star Dot); Star Space; Eol])
                (mkM p' tl []) Some = Some m /\ groups m = [tl]) as Hk.
  { intros p'. cbn [seq run prev rest groups].
    destruct (rep_greedy (R := mstate) Dot tl [] p'
                (fun p0 s' =>
                   rep Space p0 s' (fun p1 s'0 =>
                     if at_eol IGNORECASE
                          (mkM p1 s'0 ([] ++ [firstn (length tl - length s') tl]))
                     then Some (mkM p1 s'0 ([] ++ [firstn (length tl - length s') tl]))
                     else None)))
      as (p'' & Hrep).
    - by apply one_line_dot.
    - done.
    - intros p0. simpl. eauto.
    - rewrite app_nil_r in Hrep. rewrite Hrep. simpl.
      eexists. split; [done|]. simpl. by rewrite Nat.sub_0_r, firstn_all. }
  unfold tail_re. cbn [seq run prev rest groups].
  destruct (rep_greedy (R := mstate) Space ws tl p
              (fun p0 s' =>
                 run IGNORECASE (seq [Group (Star Dot); Star Space; Eol])
                     (mkM p0 s' []) Some)) as (p' & Hrep).
  - done.
  - exact Hstop.
  - intros p'. destruct (Hk p') as (m & Hm & _). eauto.
  - cbn [seq run prev rest groups] in Hrep. rewrite Hrep.
    destruct (Hk p') as (m & Hm & Hg).
    cbn [seq run prev rest groups] in Hm. eauto.
Qed.

Lemma tail_complete p (rest0 : chars) :
  one_line rest0 ->
  exists m, run IGNORECASE tail_re (mkM p rest0 []) Some = Some m
            /\ groups m = [lstrip_chars rest0].
Proof.
  intros Hone.
  destruct (lstrip_split rest0) as (ws & Hsplit & Hws & Hstop).
  assert (one_line (lstrip_chars rest0)) as Htl.
  { unfold one_line in *. rewrite Hsplit in Hone. intros Hin. apply Hone.
    apply elem_of_app. by right. }
  destruct (tail_complete_split p ws (lstrip_chars rest0) Hws Hstop Htl)
    as (m & Hm & Hg).
  rewrite <- Hsplit in Hm. eauto.
Qed.

(** A line that reads as the contract says is matched, and the group is
    the value up to surrounding whitespace. *)
Lemma field_match_complete label line v :
  field_line label line v -> one_line line ->
  exists g, field_match label line = Some g /\ strip_chars g = strip_chars v.
Proof.
  intros (ws1 & lbl & ws2 & ws3 & Hline & H1 & H2 & H3 & Hlbl) Hone.
  assert (one_line (ws2 ++ v ++ ws3)) as Hrest.
  { unfold one_line in *. rewrite Hline in Hone. intros Hin. apply Hone.
    do 4 (apply elem_of_app; right). done. }
  unfold field_match. rewrite match_field_re, Hline.
  destruct (rep_commit (R := mstate) Space ws1
              (String.list_ascii_of_string "**" ++ lbl
               ++ String.list_ascii_of_string ":**" ++ ws2 ++ v ++ ws3)
              None (after_indent label)) as (p' & ->).
  - done.
  - done.
  - intros p' a s' Ha. simpl in Ha. unfold after_indent. simpl.
    by rewrite (space_not_star a Ha).
  - unfold after_indent.
    destruct (eat_complete IGNORECASE (String.list_ascii_of_string "**")
                (String.list_ascii_of_string "**") p'
                (lbl ++ String.list_ascii_of_string ":**" ++ ws2 ++ v ++ ws3))
      as (p1 & ->).
    { by apply forall2_caseless. }
    destruct (eat_complete IGNORECASE (String.list_ascii_of_string label) lbl
                p1 (String.list_ascii_of_string ":**" ++ ws2 ++ v ++ ws3))
      as (p2 & ->).
    { apply forall2_caseless. by symmetry. }
    destruct (eat_complete IGNORECASE (String.list_ascii_of_string ":**")
                (String.list_ascii_of_string ":**") p2 (ws2 ++ v ++ ws3))
      as (p3 & ->).
    { by apply forall2_caseless. }
    destruct (tail_complete p3 (ws2 ++ v ++ ws3) Hrest) as (m & -> & Hg).
    exists (group 1 m). split; [done|].
    unfold group. rewrite Hg. simpl.
    rewrite strip_lstrip. by apply strip_padded.
Qed.

(** Whatever the matcher accepts reads as the contract says. *)
Lemma field_match_sound label line g :
  field_match label line = Some g -> field_line label line g.
Proof.
  unfold field_match. rewrite match_field_re.
  destruct (rep _ _ _ _) as [m|] eqn:Hrun; [|done].
  intros [= <-].
  apply rep_sound in Hrun as (ws1 & tl & p1 & -> & Hws1 & H).
  unfold after_indent in H.
  destruct (eat IGNORECASE (String.list_ascii_of_string "**") p1 tl)
    as [[p2 s2]|] eqn:He1; [|done].
  destruct (eat IGNORECASE (String.list_ascii_of_string label) p2 s2)
    as [[p3 s3]|] eqn:He2; [|done].
  destruct (eat IGNORECASE (String.list_ascii_of_string ":**") p3 s3)
    as [[p4 s4]|] eqn:He3; [|done].
  apply eat_sound in He1 as (pre1 & -> & Hpre1).
  apply eat_sound in He2 as (pre2 & -> & Hpre2).
  apply eat_sound in He3 as (pre3 & -> & Hpre3).
  apply stars_exact in Hpre1. apply colon_stars_exact in Hpre3. subst.
  apply tail_sound in H as (ws2 & g & ws3 & -> & Hws2 & Hws3 & Hg).
  exists ws1, pre2, ws2, ws3. unfold group. rewrite Hg. simpl.
  split; [done|]. repeat split; try done.
  unfold same_caseless. symmetry. by apply forall2_caseless.
Qed.

Lemma extract_field_chars_first (block : list chars) label :
  (forall line, line ∈ block -> one_line line) ->
  forall i line v,
    block !! i = Some line -> field_line label line v ->
    (forall j line', j < i -> block !! j = Some line' ->
                     forall v', ~ field_line label line' v') ->
    extract_field_chars block label = strip_chars v.
Proof.
  induction block as [|l0 block IH]; intros Hone i line v Hi Hv Hfirst; [done|].
  simpl. destruct i as [|i]; simpl in Hi.
  - simplify_eq.
    destruct (field_match_complete label line v Hv) as (g & -> & Hg); [|done].
    apply Hone. by left.
  - destruct (field_match label l0) as [g|] eqn:Hm.
    + exfalso. apply (Hfirst 0 l0 ltac:(lia) eq_refl g).
      by apply field_match_sound.
    + apply (IH ltac:(intros; apply Hone; by right) i line v Hi Hv).
      intros j line' Hj Hl'. apply (Hfirst (S j) line' ltac:(lia) Hl').
Qed.

Lemma extract_field_chars_none (block : list chars) label :
  (forall line v, line ∈ block -> ~ field_line label line v) ->
  extract_field_chars block label = [].
Proof.
  induction block as [|l0 block IH]; intros Hnone; [done|].
  simpl. destruct (field_match label l0) as [g|] eqn:Hm.
  - exfalso. apply (Hnone l0 g); [by left|]. by apply field_match_sound.
  - apply IH. intros line v Hin. apply Hnone. by right.
Qed.

(** C8.  On lines of text (no line feed inside a line), [extract_field]
    returns the value of the first line that reads "optional whitespace,
    bold-marked label (in any case), colon, optional whitespace, value,
    optional whitespace", stripped of surrounding whitespace and otherwise
    unchanged, and the empty string when no line reads so.  The function
    is total: no line content makes it fail. *)
Theorem extract_field_contract (block : list string) (label : string)
    (Hlines : forall line, line ∈ block ->
                one_line (String.list_ascii_of_string line)) :
  (forall i line v,
     block !! i = Some line ->
     field_line label (String.list_ascii_of_string line) v ->
     (forall j line', j < i -> block !! j = Some line' ->
        forall v', ~ field_line label (String.list_ascii_of_string line') v') ->
     extract_field block label = String.string_of_list_ascii (strip_chars v))
  /\ ((forall line v, line ∈ block ->
         ~ field_line label (String.list_ascii_of_string line) v) ->
      extract_field block label = "").
Proof.
  split.
  - intros i line v Hi Hv Hfirst. unfold extract_field. f_equal.
    apply (extract_field_chars_first _ label) with (i := i)
      (line := String.list_ascii_of_string line).
    + intros l Hl. apply list_elem_of_In, in_map_iff in Hl as (l' & <- & Hl').
      apply Hlines. by apply list_elem_of_In.
    + change (map String.list_ascii_of_string block)
        with (String.list_ascii_of_string <$> block).
      by rewrite list_lookup_fmap, Hi.
    + done.
    + intros j line' Hj Hl'.
      change (map String.list_ascii_of_string block)
        with (String.list_ascii_of_string <$> block) in Hl'.
      rewrite list_lookup_fmap in Hl'.
      destruct (block !! j) as [l'|] eqn:Hbj; [|done]. simpl in Hl'.
      simplify_eq. by apply (Hfirst j l').
  - intros Hnone. unfold extract_field.
    rewrite extract_field_chars_none; [done|].
    intros l v Hl. apply list_elem_of_In, in_map_iff in Hl as (l' & <- & Hl').
    apply Hnone. by apply list_elem_of_In.
Qed.

Lemma extract_field_contract_witness :
  extract_field ["**Area:** backend"; "  **priority:**    P1   "] "Priority"
  = "P1"
  /\ extract_field ["**Area:** backend"] "Priority" = "".
Proof.
  assert (forall v, ~ field_line "Priority"
                      (String.list_ascii_of_string "**Area:** backend") v)
    as Harea.
  { intros v Hv.
    destruct (field_match_complete _ _ _ Hv) as (g & Hg & _).
    - apply (bool_decide_unpack _). vm_compute. exact I.
    - vm_compute in Hg. discriminate. }
  split.
  - apply (proj1 (extract_field_contract
                    ["**Area:** backend"; "  **priority:**    P1   "]
                    "Priority"
                    ltac:(intros line Hin;
                          repeat (apply elem_of_cons in Hin as [->|Hin]);
                          [..|by apply elem_of_nil in Hin];
                          apply (bool_decide_unpack _); vm_compute; exact I))
             1 "  **priority:**    P1   " (String.list_ascii_of_string "P1")).
    + reflexivity.
    + exists (String.list_ascii_of_string "  "),
             (String.list_ascii_of_string "priority"),
             (String.list_ascii_of_string "    "),
             (String.list_ascii_of_string "   ").
      split; [reflexivity|].
      repeat split; try (repeat constructor).
    + intros j line' Hj Hl. destruct j as [|j]; [|lia].
      simpl in Hl. injection Hl as <-. exact Harea.
  - apply (proj2 (extract_field_contract ["**Area:** backend"] "Priority"
                    ltac:(intros line Hin;
                          repeat (apply elem_of_cons in Hin as [->|Hin]);
                          [..|by apply elem_of_nil in Hin];
                          apply (bool_decide_unpack _); vm_compute; exact I))).
    intros line v Hin.
    apply list_elem_of_singleton in Hin. subst. apply Harea.
Defined.

End FieldFacts.

(** ** The issues validator and the plan validator *)

Module IssueFacts.
Import Text Issues IssueSpec.

(** *** Reports as accumulators *)

Lemma app_report_nil r : app_report r [] = r.
Proof. destruct r. unfold app_report. simpl. by rewrite app_nil_r. Qed.

Lemma app_report_app r l1 l2 :
  app_report (app_report r l1) l2 = app_report r (l1 ++ l2).
Proof. unfold app_report. simpl. by rewrite app_assoc. Qed.

Lemma add_app_report r sev m l :
  ReportOps.add r sev m l = app_report r [mkFinding sev m l].
Proof. reflexivity. Qed.

Lemma appending_app B r X :
  appending B -> B (app_report r X) = app_report r (X ++ findings (B empty_report)).
Proof. intros HB. by rewrite HB, app_report_app. Qed.

Lemma appending_id : appending (fun r => r).
Proof. intros r. simpl. by rewrite app_report_nil. Qed.

Lemma appending_add sev m l : appending (fun r => ReportOps.add r sev m l).
Proof. intros r. reflexivity. Qed.

Lemma appending_error m l : appending (fun r => ReportOps.error r m l).
Proof. apply appending_add. Qed.

Lemma appending_info m l : appending (fun r => ReportOps.info r m l).
Proof. apply appending_add. Qed.

Lemma appending_comp B1 B2 :
  appending B1 -> appending B2 -> appending (fun r => B2 (B1 r)).
Proof.
  intros H1 H2 r.
  rewrite (H2 (B1 r)), (H1 r), (H2 (B1 empty_report)).
  by rewrite app_report_app.
Qed.

Lemma appending_if (c : bool) B1 B2 :
  appending B1 -> appending B2 -> appending (fun r => if c then B1 r else B2 r).
Proof. by destruct c. Qed.

Lemma appending_fold {A} (f : Report -> A -> Report) (l : list A) :
  (forall x, appending (fun r => f r x)) ->
  appending (fun r => fold_left f l r).
Proof.
  intros Hf. induction l as [|x l IH]; simpl.
  - apply appending_id.
  - apply (appending_comp (fun r => f r x) (fun r => fold_left f l r)); auto.
Qed.

Lemma shift_shift {X} r l (o : res (Report * X)) :
  shift (app_report r l) o = shift r (shift (app_report empty_report l) o).
Proof.
  destruct o as [[r1 x]| |]; simpl; [|done|done].
  by rewrite app_report_app.
Qed.

Lemma shift1_shift1 r l (o : res Report) :
  shift1 (app_report r l) o = shift1 r (shift1 (app_report empty_report l) o).
Proof.
  destruct o as [r1| |]; simpl; [|done|done].
  by rewrite app_report_app.
Qed.

Lemma appending_res1_app B r X :
  appending_res1 B ->
  B (app_report r X) = shift1 r (B (app_report empty_report X)).
Proof.
  intros HB. rewrite (HB (app_report r X)), (HB (app_report empty_report X)).
  destruct (B empty_report) as [r1| |]; simpl; [|done|done].
  by rewrite !app_report_app.
Qed.

Lemma appending_res_app {X} (B : Report -> res (Report * X)) r l :
  appending_res B ->
  B (app_report r l) = shift r (B (app_report empty_report l)).
Proof.
  intros HB. rewrite (HB (app_report r l)), (HB (app_report empty_report l)).
  destruct (B empty_report) as [[r1 x]| |]; simpl; [|done|done].
  by rewrite !app_report_app.
Qed.

Lemma appending_res1_pure B : appending B -> appending_res1 (fun r => Ok (B r)).
Proof. intros HB r. simpl. by rewrite (HB r). Qed.

Lemma appending_res1_bind B1 B2 :
  appending_res1 B1 -> appending_res1 B2 ->
  appending_res1 (fun r => let* r1 := B1 r in B2 r1).
Proof.
  intros H1 H2 r. rewrite (H1 r).
  destruct (B1 empty_report) as [r1| |]; simpl; [|done|done].
  rewrite (H2 (app_report r (findings r1))), (H2 r1).
  destruct (B2 empty_report) as [r2| |]; simpl; [|done|done].
  by rewrite !app_report_app.
Qed.

Lemma appending_res1_guard {A} (m : res A) (K : A -> Report -> res Report) :
  (forall a, appending_res1 (K a)) ->
  appending_res1 (fun r => let* a := m in K a r).
Proof. intros HK r. destruct m as [a| |]; simpl; [apply HK|done|done]. Qed.

Lemma appending_res1_for_each {A} (body : Report -> A -> res Report) (l : list A) :
  (forall x, appending_res1 (fun r => body r x)) ->
  appending_res1 (fun r => for_each l body r).
Proof.
  intros Hb. induction l as [|x l IH]; simpl.
  - apply (appending_res1_pure (fun r => r)), appending_id.
  - apply (appending_res1_bind (fun r => body r x) (fun r => for_each l body r));
      auto.
Qed.


(** Solves [appending B] for a block built from conditionals, folds and
    [error]/[info] calls. *)
Ltac appending_step :=
  lazymatch goal with
  | |- appending (fun r => r) => apply appending_id
  | |- appending (fun r => ReportOps.error r ?m ?l) => apply appending_error
  | |- appending (fun r => ReportOps.info r ?m ?l) => apply appending_info
  | |- appending (fun r => ReportOps.error (@?B r) ?m ?l) =>
      apply (appending_comp B (fun r => ReportOps.error r m l))
  | |- appending (fun r => ReportOps.info (@?B r) ?m ?l) =>
      apply (appending_comp B (fun r => ReportOps.info r m l))
  | |- appending (fun r => fold_left ?f ?l r) =>
      apply appending_fold; intros ?
  | |- appending (fun r => fold_left ?f ?l (@?B r)) =>
      apply (appending_comp B (fun r => fold_left f l r))
  | |- appending (fun r => if ?c then @?B1 r else @?B2 r) =>
      apply (appending_if c B1 B2)
  end.

Ltac appending_solve := cbv zeta; repeat appending_step.

Lemma check_meta_fields_appending path n meta :
  appending (check_meta_fields path n meta).
Proof. unfold check_meta_fields. appending_solve. Qed.

Lemma check_execution_context_appending w path n meta :
  appending (check_execution_context w path n meta).
Proof.
  unfold check_execution_context.
  destruct (Py.get "execution_context" meta); appending_solve.
Qed.

Lemma check_source_appending w path n meta :
  appending (check_source w path n meta).
Proof.
  unfold check_source. destruct (Py.get "source" meta); appending_solve.
Qed.

Lemma check_total_appending w path n meta actual :
  appending (check_total w path n meta actual).
Proof.
  unfold check_total. cbv zeta.
  destruct (Py.as_int (Py.get "total_issues" meta)); appending_solve.
Qed.

Lemma check_ref_appending w location ref :
  appending (fun r => check_ref w location r ref).
Proof.
  unfold check_ref. destruct ref; try appending_solve.
  destruct (Re.match_ _ _ _); appending_solve.
Qed.

Lemma check_refs_appending w location issue :
  appending (check_refs w location issue).
Proof.
  unfold check_refs.
  destruct (Py.get "refs" issue) as [| | | | |[|x l]|];
    try apply appending_error.
  apply (appending_fold (check_ref w location) (x :: l)).
  apply check_ref_appending.
Qed.

Lemma check_committed_appending location issue :
  appending (check_committed location issue).
Proof.
  unfold check_committed.
  destruct (Py.eq_str (Py.get "git_state" issue) "committed");
    [|apply appending_id].
  cbv zeta.
  destruct (Py.get "blocked" issue) as [|[]| | | | |]; appending_solve.
Qed.


Lemma check_required_appending location issue :
  appending (check_required location issue).
Proof. unfold check_required. appending_solve. Qed.

Lemma check_blocked_type_appending location issue :
  appending (check_blocked_type location issue).
Proof.
  unfold check_blocked_type. destruct (Py.get "blocked" issue); appending_solve.
Qed.

Lemma check_depends_type_appending location issue :
  appending (check_depends_type location issue).
Proof.
  unfold check_depends_type.
  destruct (Py.get "depends_on" issue); appending_solve.
Qed.

Lemma check_priority_appending w location issue :
  appending_res1 (check_priority w location issue).
Proof.
  unfold check_priority.
  apply (appending_res1_guard _ (fun bad r =>
           Ok (if bad : bool then ReportOps.error r _ location else r))).
  intros bad. apply appending_res1_pure. appending_solve.
Qed.

Lemma check_status_enums_appending w location issue :
  appending_res1 (check_status_enums w location issue).
Proof.
  unfold check_status_enums.
  apply appending_res1_for_each. intros [field_name allowed]. cbv zeta.
  apply (appending_res1_guard _ (fun bad r =>
           Ok (if bad : bool then ReportOps.error r _ location else r))).
  intros bad. apply appending_res1_pure. appending_solve.
Qed.

(** The checks of an issue with a valid id, after the duplicate test. *)
Lemma issue_tail_appending w location issue :
  appending_res1 (fun r =>
    let* r := check_priority w location issue r in
    let* r := check_status_enums w location issue r in
    Ok (check_committed location issue
          (check_refs w location issue
             (check_depends_type location issue
                (check_blocked_type location issue r))))).
Proof.
  apply (appending_res1_bind (check_priority w location issue)).
  { apply check_priority_appending. }
  apply (appending_res1_bind (check_status_enums w location issue)
           (fun r => Ok (check_committed location issue
                           (check_refs w location issue
                              (check_depends_type location issue
                                 (check_blocked_type location issue r)))))).
  { apply check_status_enums_appending. }
  apply appending_res1_pure.
  apply (appending_comp _ (check_committed location issue));
    [|apply check_committed_appending].
  apply (appending_comp _ (check_refs w location issue));
    [|apply check_refs_appending].
  apply (appending_comp _ (check_depends_type location issue));
    [|apply check_depends_type_appending].
  apply check_blocked_type_appending.
Qed.

(** [check_issue], unfolded for a row with a valid id. *)
Lemma check_issue_valid w path r imap line_no issue issue_id :
  valid_id (Py.get "id" issue) = Some issue_id ->
  check_issue w path (r, imap) (line_no, issue)
  = let* r' :=
      (let* r1 :=
         check_priority w (loc path line_no) issue
           (if Py.odict_mem issue_id imap
            then ReportOps.error (check_required (loc path line_no) issue r)
                   ("Duplicate issue id `" +:+ issue_id +:+ "`") (loc path line_no)
            else check_required (loc path line_no) issue r) in
       let* r2 := check_status_enums w (loc path line_no) issue r1 in
       Ok (check_committed (loc path line_no) issue
             (check_refs w (loc path line_no) issue
                (check_depends_type (loc path line_no) issue
                   (check_blocked_type (loc path line_no) issue r2))))) in
    Ok (r', Py.odict_set issue_id (line_no, issue) imap).
Proof.
  intros Hid. unfold check_issue. rewrite Hid. cbv zeta.
  destruct (check_priority _ _ _ _) as [r1| |]; simpl; [|done|done].
  by destruct (check_status_enums _ _ _ _) as [r2| |].
Qed.

Lemma check_issue_invalid w path r imap line_no issue :
  valid_id (Py.get "id" issue) = None ->
  check_issue w path (r, imap) (line_no, issue)
  = Ok (ReportOps.error (check_required (loc path line_no) issue r)
          "Issue `id` must be a non-empty string" (loc path line_no), imap).
Proof. intros Hid. unfold check_issue. by rewrite Hid. Qed.

Lemma check_issue_appending w path imap row :
  appending_res (fun r => check_issue w path (r, imap) row).
Proof.
  destruct row as [line_no issue]. intros r.
  destruct (valid_id (Py.get "id" issue)) as [issue_id|] eqn:Hid.
  - rewrite !(check_issue_valid _ _ _ _ _ _ issue_id) by done.
    pose proof (issue_tail_appending w (loc path line_no) issue) as Htail.
    set (tail := fun r => _) in Htail.
    set (pre := fun r : Report =>
                  if Py.odict_mem issue_id imap
                  then ReportOps.error (check_required (loc path line_no) issue r)
                         ("Duplicate issue id `" +:+ issue_id +:+ "`")
                         (loc path line_no)
                  else check_required (loc path line_no) issue r).
    assert (appending pre) as Hpre.
    { unfold pre. apply appending_if.
      - apply (appending_comp _ (fun r => ReportOps.error r _ _));
          [apply check_required_appending|apply appending_error].
      - apply check_required_appending. }
    change ((let* r' := tail (pre r) in
             Ok (r', Py.odict_set issue_id (line_no, issue) imap))
            = shift r (let* r' := tail (pre empty_report) in
                       Ok (r', Py.odict_set issue_id (line_no, issue) imap))).
    rewrite (Hpre r), (appending_res1_app tail) by done.
    rewrite (Htail (app_report empty_report _)).
    rewrite (Htail (pre empty_report)).
    by destruct (tail empty_report) as [r1| |].
  - rewrite !check_issue_invalid by done. simpl.
    pose proof (check_required_appending (loc path line_no) issue r) as Hr.
    rewrite Hr. unfold ReportOps.error, ReportOps.add, app_report. simpl.
    by rewrite app_assoc.
Qed.

Lemma for_each_appending {A X} (step : Report * X -> A -> res (Report * X))
    (l : list A) :
  (forall x a, appending_res (fun r => step (r, x) a)) ->
  forall x, appending_res (fun r => for_each l step (r, x)).
Proof.
  intros Hstep. induction l as [|a l IH]; intros x r; simpl.
  - by rewrite app_report_nil.
  - rewrite (Hstep x a r).
    destruct (step (empty_report, x) a) as [[r1 x1]| |]; simpl; [|done|done].
    rewrite (IH x1 (app_report r (findings r1))), (IH x1 r1).
    destruct (for_each l step (empty_report, x1)) as [[r2 x2]| |]; simpl;
      [|done|done].
    by rewrite !app_report_app.
Qed.


Lemma for_each_pure {A S} (f : S -> A -> S) (l : list A) (s : S) :
  for_each l (fun s a => Ok (f s a)) s = Ok (fold_left f l s).
Proof. revert s. induction l as [|a l IH]; intros s; simpl; [done|apply IH]. Qed.

Lemma check_dep_appending location issue_id imap edges dep :
  appending_res (fun r => Ok (check_dep location issue_id imap (r, edges) dep)).
Proof.
  intros r. unfold check_dep.
  destruct (valid_id dep) as [dep_id|]; [|done].
  destruct (String.eqb dep_id issue_id); [done|].
  destruct (negb (Py.odict_mem dep_id imap)); [done|].
  simpl. by rewrite app_report_nil.
Qed.

Lemma check_deps_appending path imap edges entry :
  appending_res (fun r => Ok (check_deps path imap (r, edges) entry)).
Proof.
  destruct entry as [issue_id [line_no issue]]. unfold check_deps.
  destruct (Py.get_default "depends_on" (JList []) issue) as [| | | | |deps|];
    try (intros r; simpl; by rewrite app_report_nil).
  intros r. rewrite <- !for_each_pure.
  apply (for_each_appending
           (fun s a => Ok (check_dep (loc path line_no) issue_id imap s a))).
  intros x a. apply check_dep_appending.
Qed.

Lemma build_edges_appending path imap :
  appending_res (fun r => Ok (build_edges path imap r)).
Proof.
  intros r. unfold build_edges. cbv zeta. rewrite <- !for_each_pure.
  apply (for_each_appending (fun s a => Ok (check_deps path imap s a))).
  intros x a. apply check_deps_appending.
Qed.

(** [check_rows] after the checks of meta: the count, the issue rows, the
    dependency graph and the cycle search. *)
Lemma check_rows_unfold w path meta_line_no meta row issue_rows report :
  check_rows w path ((meta_line_no, meta) :: row :: issue_rows) report
  = let* (r, imap) :=
      for_each (row :: issue_rows) (check_issue w path)
        (check_total w path meta_line_no meta (length (row :: issue_rows))
           (check_source w path meta_line_no meta
              (check_execution_context w path meta_line_no meta
                 (check_meta_fields path meta_line_no meta report))), []) in
    let* cycle :=
      Cycle.detect_cycle (map fst imap) (snd (build_edges path imap r)) in
    if Cycle.truthy cycle then
      Ok (ReportOps.error (fst (build_edges path imap r))
            ("Issue dependency cycle detected: "
             +:+ join " -> " (default [] cycle)) path)
    else Ok (fst (build_edges path imap r)).
Proof.
  unfold check_rows. cbv zeta.
  destruct (for_each _ _ _) as [[r imap]| |]; simpl; [|done|done].
  by destruct (build_edges path imap r).
Qed.

Lemma graph_checks_appending path imap :
  appending_res1 (fun r =>
    let* cycle :=
      Cycle.detect_cycle (map fst imap) (snd (build_edges path imap r)) in
    if Cycle.truthy cycle then
      Ok (ReportOps.error (fst (build_edges path imap r))
            ("Issue dependency cycle detected: "
             +:+ join " -> " (default [] cycle)) path)
    else Ok (fst (build_edges path imap r))).
Proof.
  intros r.
  pose proof (build_edges_appending path imap r) as Hb. simpl in Hb.
  destruct (build_edges path imap empty_report) as [r0 e0] eqn:H0.
  simpl in Hb. injection Hb as Hb. rewrite Hb. simpl.
  destruct (Cycle.detect_cycle (map fst imap) e0) as [cycle| |]; simpl;
    [|done|done].
  destruct (Cycle.truthy cycle); simpl; [|done].
  unfold ReportOps.error, ReportOps.add, app_report. simpl.
  by rewrite app_assoc.
Qed.

Lemma issue_rows_appending w path rows :
  appending_res1 (fun r =>
    let* (r, imap) := for_each rows (check_issue w path) (r, []) in
    let* cycle :=
      Cycle.detect_cycle (map fst imap) (snd (build_edges path imap r)) in
    if Cycle.truthy cycle then
      Ok (ReportOps.error (fst (build_edges path imap r))
            ("Issue dependency cycle detected: "
             +:+ join " -> " (default [] cycle)) path)
    else Ok (fst (build_edges path imap r))).
Proof.
  intros r.
  rewrite (for_each_appending (check_issue w path) rows
             (fun x a => check_issue_appending w path x a) [] r).
  destruct (for_each rows (check_issue w path) (empty_report, []))
    as [[r1 imap]| |]; simpl; [|done|done].
  rewrite (graph_checks_appending path imap (app_report r (findings r1))).
  rewrite (graph_checks_appending path imap r1).
  match goal with
  | |- context [shift1 r1 ?o] => destruct o as [r2| |]
  end; simpl; [|done|done].
  by rewrite !app_report_app.
Qed.


(** *** Steps that add findings of one kind *)

Lemma adds_id P : adds P (fun r => r).
Proof. intros r. exists []. by rewrite app_report_nil. Qed.

Lemma adds_add P sev m l :
  P (mkFinding sev m l) -> adds P (fun r => ReportOps.add r sev m l).
Proof. intros HP r. exists [mkFinding sev m l]. split; [done|]. by constructor. Qed.

Lemma adds_comp P B1 B2 : adds P B1 -> adds P B2 -> adds P (fun r => B2 (B1 r)).
Proof.
  intros H1 H2 r. destruct (H1 r) as (a1 & -> & Ha1).
  destruct (H2 (app_report r a1)) as (a2 & -> & Ha2).
  exists (a1 ++ a2). split; [apply app_report_app|]. by apply Forall_app.
Qed.

Lemma adds_if P (c : bool) B1 B2 :
  adds P B1 -> adds P B2 -> adds P (fun r => if c then B1 r else B2 r).
Proof. by destruct c. Qed.

Lemma adds_fold {A} P (f : Report -> A -> Report) (l : list A) :
  (forall x, adds P (fun r => f r x)) -> adds P (fun r => fold_left f l r).
Proof.
  intros Hf. induction l as [|x l IH]; simpl.
  - apply adds_id.
  - apply (adds_comp P (fun r => f r x) (fun r => fold_left f l r)); auto.
Qed.





(** Solves [adds P B] for a block built from conditionals, folds and
    [error]/[info] calls, leaving [P] of each new finding. *)
Ltac adds_step :=
  lazymatch goal with
  | |- adds _ (fun r => r) => apply adds_id
  | |- adds ?P (fun r => ReportOps.error r ?m ?l) =>
      apply (adds_add P ERROR m l)
  | |- adds ?P (fun r => ReportOps.info r ?m ?l) =>
      apply (adds_add P INFO m l)
  | |- adds ?P (fun r => ReportOps.error (@?B r) ?m ?l) =>
      apply (adds_comp P B (fun r => ReportOps.error r m l))
  | |- adds ?P (fun r => ReportOps.info (@?B r) ?m ?l) =>
      apply (adds_comp P B (fun r => ReportOps.info r m l))
  | |- adds ?P (fun r => fold_left ?f ?l r) =>
      apply adds_fold; intros ?
  | |- adds ?P (fun r => fold_left ?f ?l (@?B r)) =>
      apply (adds_comp P B (fun r => fold_left f l r))
  | |- adds ?P (fun r => if ?c then @?B1 r else @?B2 r) =>
      apply (adds_if P c B1 B2)
  end.

Ltac adds_solve := cbv zeta; repeat adds_step.

(** *** C4: the findings about [execution_context] *)

Lemma check_execution_context_info w path n meta :
  adds is_info (check_execution_context w path n meta).
Proof.
  unfold check_execution_context.
  destruct (Py.get "execution_context" meta); adds_solve; reflexivity.
Qed.

Lemma alarms_app l1 l2 : alarms (l1 ++ l2) = alarms l1 ++ alarms l2.
Proof. apply List.filter_app. Qed.

Lemma alarms_info l : Forall is_info l -> alarms l = [].
Proof.
  induction 1 as [|f l Hf _ IH]; [done|]. simpl.
  unfold is_info in Hf. by rewrite Hf.
Qed.

Lemma agree_get d d' k :
  agree_except "execution_context" d d' -> k <> "execution_context" ->
  Py.get k d = Py.get k d'.
Proof. intros H Hk. unfold Py.get. by rewrite (H k Hk). Qed.

Lemma agree_has_key d d' k :
  agree_except "execution_context" d d' -> k <> "execution_context" ->
  Py.has_key k d = Py.has_key k d'.
Proof. intros H Hk. unfold Py.has_key. by rewrite (H k Hk). Qed.

Lemma check_meta_fields_agree path n d d' r :
  agree_except "execution_context" d d' ->
  check_meta_fields path n d r = check_meta_fields path n d' r.
Proof.
  intros H. unfold check_meta_fields. simpl.
  rewrite (agree_get d d' "type" H) by done.
  by rewrite !(agree_has_key d d' _ H) by done.
Qed.

Lemma check_source_agree w path n d d' r :
  agree_except "execution_context" d d' ->
  check_source w path n d r = check_source w path n d' r.
Proof.
  intros H. unfold check_source. by rewrite (agree_get d d' "source" H).
Qed.

Lemma check_total_agree w path n d d' k r :
  agree_except "execution_context" d d' ->
  check_total w path n d k r = check_total w path n d' k r.
Proof.
  intros H. unfold check_total. by rewrite (agree_get d d' "total_issues" H).
Qed.

(** The findings of the meta record before the issue rows are looked at. *)
Lemma meta_checks_alarms w path n d d' r :
  agree_except "execution_context" d d' ->
  exists X X',
    check_source w path n d
      (check_execution_context w path n d (check_meta_fields path n d r))
    = app_report r X
    /\ check_source w path n d'
         (check_execution_context w path n d' (check_meta_fields path n d' r))
       = app_report r X'
    /\ alarms X = alarms X'.
Proof.
  intros H.
  rewrite <- (check_meta_fields_agree path n d d' r H).
  rewrite (check_meta_fields_appending path n d r).
  set (F1 := findings (check_meta_fields path n d empty_report)).
  destruct (check_execution_context_info w path n d (app_report r F1))
    as (A & -> & HA).
  destruct (check_execution_context_info w path n d' (app_report r F1))
    as (A' & -> & HA').
  rewrite <- (check_source_agree w path n d d' _ H).
  rewrite !(check_source_appending w path n d (app_report _ _)).
  set (F3 := findings (check_source w path n d empty_report)).
  exists (F1 ++ A ++ F3), (F1 ++ A' ++ F3).
  rewrite !app_report_app, <- ?app_assoc. split; [done|]. split; [done|].
  by rewrite !alarms_app, (alarms_info A), (alarms_info A').
Qed.


Lemma agree_except_filter k (d : dict) :
  agree_except k d
    (List.filter (fun kv => negb (String.eqb (fst kv) k)) d).
Proof.
  intros k' Hk. unfold Py.lookup.
  induction d as [|[k0 v0] d IH]; simpl; [done|].
  destruct (String.eqb k0 k) eqn:Hk0; simpl.
  - apply String.eqb_eq in Hk0. subst k0.
    destruct (String.eqb k k') eqn:Hkk; [|done].
    apply String.eqb_eq in Hkk. congruence.
  - by rewrite IH.
Qed.

(** C4.  The checks of [execution_context] add INFO findings only,
    whether the object is absent, a sub-field is absent or empty, or the
    value is not an object; and nothing else in the validation looks at
    it: two snapshots whose meta records differ only in
    [execution_context] get the same ERROR and WARN findings. *)
Theorem execution_context_only_info (w : world) (path : string) (n : nat)
    (meta : dict) :
  (forall report, exists added,
      check_execution_context w path n meta report = app_report report added
      /\ Forall (fun f => f_severity f = INFO) added)
  /\ (forall meta' rows report,
        agree_except "execution_context" meta meta' ->
        same_alarms (check_rows w path ((n, meta) :: rows) report)
                    (check_rows w path ((n, meta') :: rows) report)).
Proof.
  split.
  - intros report. apply check_execution_context_info.
  - intros meta' rows report Hagree.
    destruct (meta_checks_alarms w path n meta meta' report Hagree)
      as (X & X' & HX & HX' & Halarms).
    destruct rows as [|row rest].
    + unfold check_rows. rewrite HX, HX'. simpl.
      by rewrite !alarms_app, Halarms.
    + rewrite !check_rows_unfold, HX, HX'.
      rewrite <- (check_total_agree w path n meta meta' _ _ Hagree).
      rewrite !(appending_app _ _ _ (check_total_appending w path n meta _)).
      set (T := findings (check_total w path n meta _ empty_report)).
      pose proof (issue_rows_appending w path (row :: rest)) as HG.
      set (G := fun r => _) in HG.
      change (same_alarms (G (app_report report (X ++ T)))
                          (G (app_report report (X' ++ T)))).
      rewrite (HG (app_report report (X ++ T))).
      rewrite (HG (app_report report (X' ++ T))).
      destruct (G empty_report) as [r1| |]; simpl; [|done|done].
      by rewrite !alarms_app, Halarms.
Qed.

Lemma execution_context_only_info_witness :
  (exists added,
      check_execution_context Samples.sample_world "i.jsonl" 1
        (Samples.meta_without_context 1) (ReportOps.new "issues")
      = app_report (ReportOps.new "issues") added
      /\ Forall (fun f => f_severity f = INFO) added)
  /\ same_alarms
       (check_rows Samples.sample_world "i.jsonl"
          [(1, Samples.meta_with 1 []);
           (2, Samples.issue_with (JStr "A") [] "pending" "committed")]
          (ReportOps.new "issues"))
       (check_rows Samples.sample_world "i.jsonl"
          [(1, Samples.meta_without_context 1);
           (2, Samples.issue_with (JStr "A") [] "pending" "committed")]
          (ReportOps.new "issues")).
Proof.
  split.
  - apply (proj1 (execution_context_only_info Samples.sample_world "i.jsonl" 1
                    (Samples.meta_without_context 1))).
  - apply (proj2 (execution_context_only_info Samples.sample_world "i.jsonl" 1
                    (Samples.meta_with 1 []))).
    apply agree_except_filter.
Defined.


(** *** C3: the rule for committed issues *)


Lemma not_in_strs_hashable v allowed :
  hashable v = true -> exists b, Py.not_in_strs v allowed = Ok b.
Proof. destruct v; simpl; intros H; try discriminate; eauto. Qed.




















(** *** C6: duplicate ids *)


(** What one row does to the report and to the issue map, when its
    checks return. *)
Lemma check_issue_step w path r imap row r' imap' :
  check_issue w path (r, imap) row = Ok (r', imap') ->
  match row_id row with
  | Some id =>
      imap' = Py.odict_set id row imap
      /\ exists a b,
           r' = app_report r
                  (a ++ (if Py.odict_mem id imap
                         then [duplicate_finding path (fst row) id] else [])
                     ++ b)
  | None => imap' = imap /\ exists a, r' = app_report r a
  end.
Proof.
  destruct row as [line_no issue]. unfold row_id. cbn [fst snd].
  destruct (valid_id (Py.get "id" issue)) as [id|] eqn:Hid.
  - rewrite (check_issue_valid _ _ _ _ _ _ id Hid).
    pose proof (issue_tail_appending w (loc path line_no) issue) as Htail.
    set (tail := fun r => _) in Htail.
    match goal with
    | |- (let* r' := ?t in _) = _ -> _ =>
        change t with (tail (if Py.odict_mem id imap
                             then ReportOps.error
                                    (check_required (loc path line_no) issue r)
                                    ("Duplicate issue id `" +:+ id +:+ "`")
                                    (loc path line_no)
                             else check_required (loc path line_no) issue r))
    end.
    rewrite (check_required_appending (loc path line_no) issue r).
    set (a := findings (check_required (loc path line_no) issue empty_report)).
    rewrite Htail.
    destruct (tail empty_report) as [rt| |]; simpl; [|done|done].
    intros [= <- <-]. split; [done|].
    exists a, (findings rt).
    destruct (Py.odict_mem id imap); simpl.
    + unfold ReportOps.error. rewrite add_app_report, !app_report_app.
      by rewrite <- ?app_assoc.
    + by rewrite app_report_app.
  - rewrite (check_issue_invalid _ _ _ _ _ _ Hid).
    intros [= <- <-]. split; [done|].
    rewrite (check_required_appending (loc path line_no) issue r).
    unfold ReportOps.error. rewrite add_app_report, app_report_app. eauto.
Qed.






(** *** C5: [schema_version] *)

Lemma agree_get_key k0 d d' k :
  agree_except k0 d d' -> k <> k0 -> Py.get k d = Py.get k d'.
Proof. intros H Hk. unfold Py.get. by rewrite (H k Hk). Qed.

Lemma agree_has_key_key k0 d d' k :
  agree_except k0 d d' -> k <> k0 -> Py.has_key k d = Py.has_key k d'.
Proof. intros H Hk. unfold Py.has_key. by rewrite (H k Hk). Qed.

(** The validation does not look at [schema_version]: two snapshots whose
    meta records differ only there get the same outcome. *)
Lemma check_rows_ignores_schema_version w path n meta meta' rows report :
  agree_except "schema_version" meta meta' ->
  check_rows w path ((n, meta) :: rows) report
  = check_rows w path ((n, meta') :: rows) report.
Proof.
  intros H. unfold check_rows.
  assert (check_meta_fields path n meta report
          = check_meta_fields path n meta' report) as ->.
  { unfold check_meta_fields. simpl.
    rewrite (agree_get_key _ meta meta' "type" H) by done.
    by rewrite !(agree_has_key_key _ meta meta' _ H) by done. }
  assert (forall r, check_execution_context w path n meta r
                    = check_execution_context w path n meta' r) as Hec.
  { intros r. unfold check_execution_context.
    by rewrite (agree_get_key _ meta meta' "execution_context" H). }
  assert (forall r, check_source w path n meta r
                    = check_source w path n meta' r) as Hsrc.
  { intros r. unfold check_source.
    by rewrite (agree_get_key _ meta meta' "source" H). }
  assert (forall k r, check_total w path n meta k r
                      = check_total w path n meta' k r) as Htot.
  { intros k r. unfold check_total.
    by rewrite (agree_get_key _ meta meta' "total_issues" H). }
  rewrite Hec, Hsrc. destruct rows as [|row rest]; [done|].
  cbv zeta. by rewrite Htot.
Qed.

(** C5: the code at the failing inputs.  A snapshot that is complete but
    for [schema_version] gets no finding at all, so no WARN about it; the
    same snapshot with [schema_version] 999 gets no finding either, so no
    ERROR. *)
Theorem schema_version_not_checked :
  let issue := Samples.issue_with (JStr "A") [] "pending" "uncommitted" in
  Py.has_key "schema_version" (Samples.meta_with 1 []) = false
  /\ check_issues Samples.sample_world
       (Content [Json (JDict (Samples.meta_with 1 [])); Json (JDict issue)])
       "i.jsonl"
     = Ok (mkReport "issues" [])
  /\ check_issues Samples.sample_world
       (Content [Json (JDict (Samples.meta_with 1 [("schema_version", JInt 999)]));
                 Json (JDict issue)])
       "i.jsonl"
     = Ok (mkReport "issues" []).
Proof. cbv zeta. repeat split; vm_compute; reflexivity. Qed.

(** *** C7: what reaches the cycle search *)

Lemma edges_get_alter (e : gmap string (list string)) k x a :
  Cycle.edges_get (alter (fun l => l ++ [x]) k e) a
  = if decide (k = a)
    then match e !! k with Some l => l ++ [x] | None => [] end
    else Cycle.edges_get e a.
Proof.
  unfold Cycle.edges_get. destruct (decide (k = a)) as [->|Hne].
  - rewrite lookup_alter_eq. by destruct (e !! a).
  - by rewrite lookup_alter_ne.
Qed.

Lemma check_dep_clean location issue_id imap r e dep :
  clean_edges imap e ->
  clean_edges imap (snd (check_dep location issue_id imap (r, e) dep)).
Proof.
  intros He. unfold check_dep.
  destruct (valid_id dep) as [dep_id|]; [|done].
  destruct (String.eqb dep_id issue_id) eqn:Hself; [done|].
  destruct (Py.odict_mem dep_id imap) eqn:Hmem; [|done].
  simpl. intros a b. rewrite edges_get_alter.
  destruct (decide (issue_id = a)) as [->|Hne]; [|apply He].
  destruct (e !! a) as [l|] eqn:Hl; [|by intros ?%elem_of_nil].
  intros [Hb|Hb]%elem_of_app.
  - apply He. unfold Cycle.edges_get. by rewrite Hl.
  - apply list_elem_of_singleton in Hb. subst b.
    apply String.eqb_neq in Hself. by split.
Qed.

Lemma fold_check_dep_clean location issue_id imap deps : forall r e,
  clean_edges imap e ->
  clean_edges imap
    (snd (fold_left (check_dep location issue_id imap) deps (r, e))).
Proof.
  induction deps as [|dep deps IH]; intros r e He; [done|].
  cbn [fold_left].
  pose proof (check_dep_clean location issue_id imap r e dep He) as Hstep.
  destruct (check_dep location issue_id imap (r, e) dep) as [r1 e1].
  by apply IH.
Qed.

Lemma fold_check_deps_clean path imap entries : forall r e,
  clean_edges imap e ->
  clean_edges imap (snd (fold_left (check_deps path imap) entries (r, e))).
Proof.
  induction entries as [|[issue_id [line_no issue]] entries IH];
    intros r e He; [done|].
  cbn [fold_left]. unfold check_deps at 2.
  destruct (Py.get_default "depends_on" (JList []) issue)
    as [| | | | |deps|]; try by apply IH.
  pose proof (fold_check_dep_clean (loc path line_no) issue_id imap deps r e He)
    as Hstep.
  destruct (fold_left _ deps (r, e)) as [r1 e1]. by apply IH.
Qed.

Lemma initial_edges_empty (ids : list string) : forall (e : gmap string (list string)),
  (forall a, Cycle.edges_get e a = []) ->
  forall a, Cycle.edges_get (fold_left (fun m k => <[k := []]> m) ids e) a = [].
Proof.
  induction ids as [|k ids IH]; intros e He a; [apply He|]. simpl.
  apply IH. intros a'. unfold Cycle.edges_get.
  rewrite lookup_insert. destruct (decide (k = a')); [done|apply He].
Qed.

(** In the issues validator, the edge mapping handed to [detect_cycle]
    holds no self-edge and no edge to an unknown id. *)
Lemma build_edges_clean path imap r :
  clean_edges imap (snd (build_edges path imap r)).
Proof.
  unfold build_edges. cbv zeta. apply fold_check_deps_clean.
  intros a b Hb. rewrite initial_edges_empty in Hb.
  - by apply elem_of_nil in Hb.
  - intros a'. unfold Cycle.edges_get. by rewrite lookup_empty.
Qed.

(** C7: the code at the failing input.  For a plan whose only task
    depends on itself, [check_plan] reports the self-dependency and, since
    the reference stays in the edge mapping, a dependency cycle as well.
    (With one task id, the set of ids has only one iteration order.) *)
Theorem plan_self_dependency_reports_cycle :
  Plan.check_plan Samples.first_seen (Content Samples.self_dependent_plan)
    "plan.md"
  = Ok (mkReport "plan"
          [mkFinding ERROR "Task 1 cannot depend on itself" "plan.md:6";
           mkFinding ERROR "Task dependency cycle detected: 1 -> 1" "plan.md"]).
Proof. vm_compute. reflexivity. Qed.

End IssueFacts.

(** ** More on the cycle detector *)

Module CycleMore.
Import Cycle Graph CycleFacts.

(** The search returns, with a cycle that a node reaches or with the
    knowledge that no node reaches one. *)
Lemma detect_cycle_reach_spec (N : list string) (E : graph) :
  exists r, detect_cycle N E = Ok r /\
    match r with
    | None => ~ cycle_reachable N E
    | Some c =>
        closed_walk E c /\
        exists n x, n ∈ N /\ rtc (edge E) n x /\ head c = Some x
    end.
Proof.
  unfold detect_cycle, detect_cycle_fuel.
  destruct (top_loop_spec E N (depth_bound N E)
              ltac:(unfold depth_bound; lia)
              N (mkSearch (init_state N) ∅) ltac:(done) (inv_init E N))
    as (r & Hr & Hpost).
  exists r. split; [done|]. destruct r as [c|]; [done|].
  destruct Hpost as (s' & Hinv & Hall & _).
  destruct (inv_done _ _ _ _ Hinv) as (L & Ht & HL).
  intros (n & x & Hn & Hnx & Hcyc).
  apply (topo_no_cycle E L Ht x); [|done].
  apply (topo_closed_rtc E L Ht n x Hnx). apply HL. by apply Hall.
Qed.

(** [detect_cycle] reports a cycle exactly when some node of [N] reaches
    one, whether or not the edges stay inside [N]; the reported list is then
    a closed walk that starts at a node reachable from [N]. *)
Theorem detect_cycle_exact (N : list string) (E : graph) :
  (detect_cycle N E = Ok None <-> ~ cycle_reachable N E)
  /\ ((exists c, detect_cycle N E = Ok (Some c)) <-> cycle_reachable N E)
  /\ (forall c, detect_cycle N E = Ok (Some c) ->
        closed_walk E c /\
        exists n x, n ∈ N /\ rtc (edge E) n x /\ head c = Some x).
Proof.
  destruct (detect_cycle_reach_spec N E) as (r & Hr & Hpost).
  assert (forall c, r = Some c -> cycle_reachable N E) as Hsome.
  { intros c ->. destruct Hpost as (Hcw & n & x & Hn & Hnx & Hhd).
    exists n, x. repeat split; [done|done|]. by eapply closed_walk_cycle. }
  rewrite Hr. split; [|split].
  - split.
    + intros [= ->]. exact Hpost.
    + intros Hno. destruct r as [c|]; [|done]. exfalso. by eapply Hno, Hsome.
  - split.
    + intros (c & [= ->]). by eapply Hsome.
    + intros Hcyc. destruct r as [c|]; [by exists c|]. by destruct Hpost.
  - intros c [= ->]. exact Hpost.
Qed.

End CycleMore.

(** ** The cycle detector under the recursion limit *)

Module CycleLimit.
Import Cycle Graph CycleFacts.

(** A loop of [dfs] returns the same with a recursive call that returns
    whenever the first one does. *)
Lemma dfs_loop_mono
    (rec1 rec2 : string -> search -> res (search * option (list string)))
    (node : string) :
  (forall n s x, rec1 n s = Ok x -> rec2 n s = Ok x) ->
  forall succs s x,
    dfs_loop rec1 node succs s = Ok x -> dfs_loop rec2 node succs s = Ok x.
Proof.
  intros Hrec. induction succs as [|nxt rest IH]; intros s x; [done|].
  cbn [dfs_loop]. destruct (state_get s nxt) as [|[|k]]; [| |apply IH].
  - destruct (rec1 nxt (set_parent nxt node s)) as [[s' cycle]| |] eqn:H1;
      cbn [bind]; [|done|done].
    rewrite (Hrec _ _ _ H1). cbn [bind].
    destruct (truthy cycle); [done|apply IH].
  - done.
Qed.

(** Within the limit the limited search is the search. *)
Lemma dfs_limited_of_dfs (E : graph) (f : nat) : forall d node s x,
  f <= d -> dfs E f node s = Ok x -> dfs_limited E d node s = Ok x.
Proof.
  induction f as [|f IH]; intros d node s x Hle; [done|].
  destruct d as [|d]; [lia|]. cbn [dfs dfs_limited].
  apply dfs_loop_mono. intros n s0 x0. apply IH. lia.
Qed.

Lemma top_loop_limited_of (E : graph) (f d : nat) :
  f <= d ->
  forall nodes s r,
    top_loop E f nodes s = Ok r -> top_loop_limited E d nodes s = Ok r.
Proof.
  intros Hle. induction nodes as [|node rest IH]; intros s r; [done|].
  cbn [top_loop top_loop_limited].
  destruct (state_get s node =? 0); [|apply IH].
  destruct (dfs E f node s) as [[s' cycle]| |] eqn:Hdfs;
    cbn [bind]; [|done|done].
  rewrite (dfs_limited_of_dfs E f d node s _ Hle Hdfs). cbn [bind].
  destruct (truthy cycle); [done|apply IH].
Qed.

Lemma dfs_of_dfs_limited (E : graph) (d : nat) : forall f node s x,
  d <= f -> dfs_limited E d node s = Ok x -> dfs E f node s = Ok x.
Proof.
  induction d as [|d IH]; intros f node s x Hle; [done|].
  destruct f as [|f]; [lia|]. cbn [dfs dfs_limited].
  apply dfs_loop_mono. intros n s0 x0. apply IH. lia.
Qed.

Lemma top_loop_of_limited (E : graph) (d f : nat) :
  d <= f ->
  forall nodes s r,
    top_loop_limited E d nodes s = Ok r -> top_loop E f nodes s = Ok r.
Proof.
  intros Hle. induction nodes as [|node rest IH]; intros s r; [done|].
  cbn [top_loop top_loop_limited].
  destruct (state_get s node =? 0); [|apply IH].
  destruct (dfs_limited E d node s) as [[s' cycle]| |] eqn:Hdfs;
    cbn [bind]; [|done|done].
  rewrite (dfs_of_dfs_limited E d f node s _ Hle Hdfs). cbn [bind].
  destruct (truthy cycle); [done|apply IH].
Qed.

(** Whatever the limit, a result that the limited search returns is the
    result of the search. *)
Lemma detect_cycle_limited_result (limit : nat) (N : list string) (E : graph) r :
  detect_cycle_limited limit N E = Ok r -> detect_cycle N E = Ok r.
Proof.
  unfold detect_cycle_limited, detect_cycle, detect_cycle_fuel. intros Hr.
  destruct (le_lt_dec limit (depth_bound N E)) as [Hle|Hlt].
  - by apply (top_loop_of_limited E limit).
  - destruct (CycleMore.detect_cycle_reach_spec N E) as (r0 & Hr0 & _).
    unfold detect_cycle, detect_cycle_fuel in Hr0.
    pose proof (top_loop_limited_of E (depth_bound N E) limit
                  ltac:(lia) _ _ _ Hr0) as Hlim.
    rewrite Hlim in Hr. by injection Hr as <-.
Qed.

(** C10, as stated, fails in three ways.  A target outside the node set
    is traversed with its own adjacency list when the edge mapping has
    one: here "b" is not a node, the search follows its edge back to "a"
    and reports a cycle, and without the entry for "b" there is none.  The
    function is not total: a chain of three nodes needs three nested calls
    of [dfs], and with two allowed the third raises [RecursionError].  And
    a target outside the node set has an entry in [state] once it was
    visited: at the second of the edges a -> z, z reads 2. *)
Lemma detect_cycle_total_counterexample :
  let E : graph := list_to_map [("a", ["b"]); ("b", ["a"])] in
  let chain : graph := list_to_map [("a", ["b"]); ("b", ["c"])] in
  let twice : graph := list_to_map [("a", ["z"; "z"])] in
  (edge E "a" "b" /\ ("b" ∉ ["a"]) /\ edges_get E "b" = ["a"]
   /\ detect_cycle_limited 10 ["a"] E = Ok (Some ["a"; "b"; "a"])
   /\ detect_cycle_limited 10 ["a"] (delete "b" E) = Ok None)
  /\ (detect_cycle_limited 2 ["a"] chain = Raise RecursionError
      /\ detect_cycle_limited 3 ["a"] chain = Ok None)
  /\ (("z" ∉ ["a"])
      /\ exists s1,
           dfs_limited twice 9 "z"
             (set_parent "z" "a"
                (set_state "a" 1 (mkSearch (init_state ["a"]) ∅)))
           = Ok (s1, None)
           /\ state s1 !! "z" = Some 2
           /\ dfs_loop (dfs_limited twice 9) "a" ["z"] s1
              = Ok (set_state "a" 2 s1, None)).
Proof.
  cbv zeta.
  assert (forall x : string, x <> "a" -> x ∉ ["a"]) as Hnot.
  { intros x Hx Hin. by apply list_elem_of_singleton in Hin. }
  split; [|split].
  - split; [unfold edge; vm_compute; constructor|].
    split; [by apply Hnot|]. by repeat split.
  - by split.
  - split; [by apply Hnot|]. eexists. split; [vm_compute; reflexivity|].
    split; [by vm_compute|]. by vm_compute.
Qed.

(** C10, amended.  When the interpreter still allows more nested calls of
    [dfs] than the node list and the adjacency lists have entries,
    [detect_cycle] returns, whether or not the edges stay inside the node
    set: [None] when no cycle can be reached from a node and a closed walk
    when one can, edges out of targets outside the node set included.
    With fewer calls allowed it may raise, but what it returns is still
    that result.  A target outside the node set has no entry in [state]
    before the search; a call of [dfs] that finds no cycle leaves every
    node it can reach, inside the node set or not, with the entry 2. *)
Theorem detect_cycle_total (limit : nat) (N : list string) (E : graph)
    (Hdepth : length (candidates N E) < limit) :
  (exists r,
      detect_cycle_limited limit N E = Ok r
      /\ detect_cycle N E = Ok r
      /\ match r with
         | None => ~ cycle_reachable N E
         | Some c => closed_walk E c /\ cycle_reachable N E
         end)
  /\ (forall limit' r,
        detect_cycle_limited limit' N E = Ok r -> detect_cycle N E = Ok r)
  /\ (forall t, t ∉ N -> init_state N !! t = None)
  /\ (forall a s',
        a ∈ N ->
        dfs_limited E limit a (mkSearch (init_state N) ∅) = Ok (s', None) ->
        forall t, rtc (edge E) a t -> state s' !! t = Some 2).
Proof.
  split; [|split; [intros limit' r; apply detect_cycle_limited_result|split]].
  - destruct (CycleMore.detect_cycle_reach_spec N E) as (r & Hr & Hpost).
    exists r. split; [|split; [done|]].
    + unfold detect_cycle_limited.
      apply (top_loop_limited_of E (depth_bound N E) limit);
        [unfold depth_bound; lia|exact Hr].
    + destruct r as [c|]; [|done].
      destruct Hpost as (Hcw & n & x & Hn & Hnx & Hhd). split; [done|].
      exists n, x. repeat split; [done|done|]. by eapply closed_walk_cycle.
  - intros t Ht. unfold init_state.
    assert (forall (l : list string) (m : gmap string nat),
              t ∉ l -> m !! t = None ->
              fold_left (fun m n => <[n := 0]> m) l m !! t = None) as Hgen.
    { induction l as [|x l IH]; intros m Hl Hm; simpl; [done|].
      apply not_elem_of_cons in Hl as [Hne Hl].
      apply IH; [done|]. by rewrite lookup_insert_ne. }
    by apply Hgen.
  - intros a s' Ha Hrun t Hreach.
    destruct (dfs_spec E N limit a (mkSearch (init_state N) ∅) [])
      as (s'' & r & Hdfs & Hpost).
    + apply inv_init.
    + apply state_get_init.
    + unfold candidates. apply elem_of_app. by left.
    + exists a. by split.
    + done.
    + simpl. lia.
    + apply (dfs_limited_of_dfs E limit limit) in Hdfs; [|done].
      rewrite Hdfs in Hrun. injection Hrun as -> ->.
      destruct Hpost as (Hinv & Hdone & _).
      destruct (inv_done _ _ _ _ Hinv) as (L & Htopo & HL).
      assert (state_get s' t = 2) as Ht.
      { apply HL. eapply topo_closed_rtc; [done|exact Hreach|].
        by apply HL. }
      unfold state_get in Ht.
      destruct (state s' !! t) as [v|]; simpl in Ht; [by subst|done].
Qed.

Lemma detect_cycle_total_witness :
  let N := ["a"] in
  let E : graph := list_to_map [("a", ["z"])] in
  (exists r,
      detect_cycle_limited 5 N E = Ok r
      /\ detect_cycle N E = Ok r
      /\ match r with
         | None => ~ cycle_reachable N E
         | Some c => closed_walk E c /\ cycle_reachable N E
         end)
  /\ (forall limit' r,
        detect_cycle_limited limit' N E = Ok r -> detect_cycle N E = Ok r)
  /\ (forall t, t ∉ N -> init_state N !! t = None)
  /\ (forall a s',
        a ∈ N ->
        dfs_limited E 5 a (mkSearch (init_state N) ∅) = Ok (s', None) ->
        forall t, rtc (edge E) a t -> state s' !! t = Some 2).
Proof.
  cbv zeta. apply (detect_cycle_total 5 ["a"] (list_to_map [("a", ["z"])])).
  vm_compute. lia.
Defined.

End CycleLimit.

(** ** The plan validator as a whole *)

Module PlanFacts.
Import Text Plan IssueSpec MoreSpec IssueFacts.

Lemma adds_pair_fold {X A} P (step : Report * X -> A -> Report * X)
    (l : list A) :
  adds_pair P step ->
  forall r x, exists added,
    fst (fold_left step l (r, x)) = app_report r added /\ Forall P added.
Proof.
  intros Hstep. induction l as [|a l IH]; intros r x; simpl.
  - exists []. by rewrite app_report_nil.
  - destruct (Hstep r x a) as (a1 & H1 & HP1).
    destruct (step (r, x) a) as [r1 x1]. simpl in H1. subst r1.
    destruct (IH (app_report r a1) x1) as (a2 & -> & HP2).
    exists (a1 ++ a2). split; [apply app_report_app|]. by apply Forall_app.
Qed.

Lemma check_task_errors plan_path ids :
  adds_pair is_error (check_task plan_path ids).
Proof.
  intros r e t. unfold check_task. cbv zeta. cbn [fst].
  match goal with
  | |- exists added, ?B = _ /\ _ =>
      let F := eval pattern r in B in
      match F with
      | ?G r => assert (adds is_error G) as HF
      end
  end.
  { adds_solve; reflexivity. }
  apply HF.
Qed.

(** [check_tasks] returns, and adds ERROR findings only. *)
Lemma check_tasks_errors set_iter plan_path tasks report :
  exists added,
    check_tasks set_iter plan_path tasks report
    = Ok (app_report report added)
    /\ Forall is_error added.
Proof.
  unfold check_tasks. cbv zeta.
  match goal with
  | |- context [fold_left (check_task plan_path ?ids) tasks (report, ?e0)] =>
      destruct (adds_pair_fold is_error (check_task plan_path ids) tasks
                  (check_task_errors plan_path ids) report e0)
        as (a1 & H1 & HP1);
      destruct (fold_left (check_task plan_path ids) tasks (report, e0))
        as [r1 edges]
  end.
  simpl in H1. subst r1.
  destruct (CycleMore.detect_cycle_reach_spec (set_iter (map task_id tasks)) edges)
    as (c & -> & _).
  simpl. destruct (Cycle.truthy c).
  - exists (a1 ++ [mkFinding ERROR
                     ("Task dependency cycle detected: "
                      +:+ join " -> " (default [] c)) plan_path]).
    split.
    + unfold ReportOps.error. by rewrite add_app_report, app_report_app.
    + apply Forall_app. split; [done|]. by repeat constructor.
  - by exists a1.
Qed.

Lemma check_plan_errors (set_iter : list string -> list string)
    (f : file string) (plan_path : string) :
  exists r, check_plan set_iter f plan_path = Ok r
            /\ name r = "plan"
            /\ Forall is_error (findings r).
Proof.
  unfold check_plan. destruct f as [| | |text];
    try (simpl; eexists; split; [done|]; split; [done|]; by repeat constructor).
  cbn [read_text]. cbv zeta.
  match goal with
  | |- context [fold_left ?g header_patterns ?r0] =>
      assert (adds is_error (fun r => fold_left g header_patterns r)) as Hh
  end.
  { apply adds_fold. intros [label pattern]. adds_solve; reflexivity. }
  destruct (Hh (ReportOps.new "plan")) as (a0 & H0 & HP0).
  cbv beta in H0. rewrite H0.
  destruct (parse_tasks text) as [|t tasks].
  - eexists. split; [done|]. split; [done|]. simpl.
    apply Forall_app. split; [done|]. by repeat constructor.
  - destruct (check_tasks_errors set_iter plan_path (t :: tasks)
                (app_report (ReportOps.new "plan") a0)) as (a1 & -> & HP1).
    eexists. split; [done|]. split; [done|]. simpl.
    apply Forall_app. by split.
Qed.

Lemma count_errors_all l :
  Forall is_error l ->
  ReportOps.count_severity ERROR l = length l
  /\ ReportOps.count_severity WARN l = 0.
Proof.
  unfold ReportOps.count_severity.
  induction 1 as [|x l Hx _ [IH1 IH2]]; [done|]. simpl.
  unfold is_error in Hx. rewrite Hx. simpl. by rewrite IH1, IH2.
Qed.

(** Whenever [check_plan] returns, whatever the file holds and however
    Python orders the set of task ids, its report is named "plan" and every
    finding of the report is an ERROR: the plan validator emits no WARN and
    no INFO, so [errors] counts all its findings and [warnings] is 0.  (In
    the model the cycle search never runs out of fuel.) *)
Theorem check_plan_errors_only (set_iter : list string -> list string)
    (f : file string) (plan_path : string) :
  match check_plan set_iter f plan_path with
  | Ok r =>
      name r = "plan"
      /\ Forall (fun x => f_severity x = ERROR) (findings r)
      /\ ReportOps.errors r = length (findings r)
      /\ ReportOps.warnings r = 0
  | Raise _ => True
  | Timeout => False
  end.
Proof.
  destruct (check_plan_errors set_iter f plan_path) as (r & -> & Hn & Hall).
  split; [done|]. split; [done|]. by apply count_errors_all.
Qed.

Lemma check_task_edges plan_path ids r e t :
  snd (check_task plan_path ids (r, e) t) = <[task_id t := deps_of t]> e.
Proof. reflexivity. Qed.

Lemma fold_check_task_edges plan_path ids tasks : forall r e id,
  Cycle.edges_get (snd (fold_left (check_task plan_path ids) tasks (r, e))) id
  = match task_last id tasks with
    | Some t => deps_of t
    | None => Cycle.edges_get e id
    end.
Proof.
  induction tasks as [|t tasks IH]; intros r e id; [done|].
  cbn [fold_left task_last].
  pose proof (check_task_edges plan_path ids r e t) as Hedges.
  destruct (check_task plan_path ids (r, e) t) as [r1 e1].
  simpl in Hedges. subst e1. rewrite IH.
  destruct (task_last id tasks); [done|].
  unfold Cycle.edges_get. rewrite lookup_insert.
  destruct (decide (task_id t = id)) as [->|Hne].
  - by rewrite String.eqb_refl.
  - apply String.eqb_neq in Hne. by rewrite Hne.
Qed.

Lemma task_last_in id tasks t : task_last id tasks = Some t -> In t tasks.
Proof.
  induction tasks as [|t0 tasks IH]; [done|]. simpl.
  destruct (task_last id tasks) as [t'|].
  - intros [= ->]. right. by apply IH.
  - destruct (String.eqb (task_id t0) id); [|done]. intros [= ->]. by left.
Qed.

(** The report and the edge mapping after the loop over the tasks. *)
Lemma check_tasks_graph set_iter plan_path tasks report :
  exists r1 edges,
    (exists added, r1 = app_report report added /\ Forall is_error added)
    /\ (forall id, Cycle.edges_get edges id = task_deps tasks id)
    /\ check_tasks set_iter plan_path tasks report
       = (let* cycle :=
            Cycle.detect_cycle (set_iter (map task_id tasks)) edges in
          if Cycle.truthy cycle then
            Ok (ReportOps.error r1
                  ("Task dependency cycle detected: "
                   +:+ join " -> " (default [] cycle)) plan_path)
          else Ok r1).
Proof.
  unfold check_tasks. cbv zeta.
  match goal with
  | |- context [fold_left (check_task plan_path ?ids) tasks (report, ?e0)] =>
      set (init := e0);
      destruct (adds_pair_fold is_error (check_task plan_path ids) tasks
                  (check_task_errors plan_path ids) report init)
        as (a1 & H1 & HP1);
      pose proof (fold_check_task_edges plan_path ids tasks report init)
        as Hedges;
      destruct (fold_left (check_task plan_path ids) tasks (report, init))
        as [r1 edges]
  end.
  simpl in H1, Hedges. exists r1, edges. split; [by exists a1|].
  split; [|done].
  intros id. rewrite Hedges. unfold task_deps.
  destruct (task_last id tasks); [done|].
  apply IssueFacts.initial_edges_empty.
  intros a. unfold Cycle.edges_get. by rewrite lookup_empty.
Qed.

(** The plan validator reports a dependency cycle exactly when a cycle
    can be reached from a task id in the graph whose adjacency lists are
    the parsed [Depends On] references (of the last task of each id),
    unknown ids and self references included; the path it names is then a
    closed walk of that graph. *)
Theorem check_tasks_cycle_report (set_iter : list string -> list string)
    (plan_path : string) (tasks : list task) (report : Report) :
  exists r1 edges,
    (exists added, r1 = app_report report added /\ Forall is_error added)
    /\ (forall id, Cycle.edges_get edges id = task_deps tasks id)
    /\ ((Graph.cycle_reachable (set_iter (map task_id tasks)) edges
         /\ exists c,
              Graph.closed_walk edges c
              /\ check_tasks set_iter plan_path tasks report
                 = Ok (app_report r1 [task_cycle_finding plan_path c]))
        \/ (~ Graph.cycle_reachable (set_iter (map task_id tasks)) edges
            /\ check_tasks set_iter plan_path tasks report = Ok r1)).
Proof.
  destruct (check_tasks_graph set_iter plan_path tasks report)
    as (r1 & edges & Hadd & Hedges & ->).
  exists r1, edges. split; [done|]. split; [done|].
  destruct (CycleMore.detect_cycle_reach_spec
              (set_iter (map task_id tasks)) edges) as (c & -> & Hpost).
  destruct c as [c|]; cbn [bind].
  - left. destruct Hpost as (Hcw & n & x & Hn & Hnx & Hhd). split.
    + exists n, x. repeat split; [done|done|].
      by eapply CycleFacts.closed_walk_cycle.
    + exists c. split; [done|].
      by rewrite (CycleFacts.closed_walk_truthy edges c Hcw).
  - by right.
Qed.

Lemma fold_adds_in {A} (g : Report -> A -> Report) (l : list A) (x : A)
    (f : Finding) :
  (forall a, adds (fun _ => True) (fun r => g r a)) ->
  (forall r, In f (findings (g r x))) ->
  In x l -> forall r, In f (findings (fold_left g l r)).
Proof.
  intros Hadds Hx. induction l as [|a l IH]; intros Hin r; [done|]. simpl.
  destruct Hin as [->|Hin].
  - destruct (adds_fold (fun _ => True) g l Hadds (g r x)) as (b & -> & _).
    simpl. apply in_app_iff. left. apply Hx.
  - by apply IH.
Qed.

(** What [check_task] adds for a task that names itself. *)
Lemma check_task_self plan_path ids r e t :
  In (task_id t) (deps_of t) ->
  In (self_dependency_finding plan_path t)
     (findings (fst (check_task plan_path ids (r, e) t))).
Proof.
  intros Hself. unfold check_task. cbv zeta. cbn [fst].
  fold (deps_of t).
  match goal with
  | |- In _ (findings (if ?c then ReportOps.error ?r0 ?m ?l else ?r0)) =>
      assert (In (self_dependency_finding plan_path t) (findings r0)) as Hin;
      [|destruct c; [|done]; simpl; apply in_app_iff; by left]
  end.
  apply (fold_adds_in _ (deps_of t) (task_id t)); [| |done].
  - intros dep. adds_solve; done.
  - intros r0. rewrite String.eqb_refl. simpl. apply in_app_iff. right.
    by left.
Qed.

Lemma fold_check_task_self plan_path ids tasks t :
  In t tasks -> In (task_id t) (deps_of t) ->
  forall r e,
    In (self_dependency_finding plan_path t)
       (findings (fst (fold_left (check_task plan_path ids) tasks (r, e)))).
Proof.
  intros Hin Hself. induction tasks as [|t0 tasks IH]; intros r e; [done|].
  cbn [fold_left]. destruct Hin as [->|Hin].
  - pose proof (check_task_self plan_path ids r e t Hself) as Hf.
    destruct (check_task plan_path ids (r, e) t) as [r1 e1].
    destruct (adds_pair_fold (fun _ => True) (check_task plan_path ids) tasks
                ltac:(intros r0 x0 a0;
                      destruct (check_task_errors plan_path ids r0 x0 a0)
                        as (b & Hb & _);
                      exists b; split; [done|by apply Forall_true])
                r1 e1) as (b & -> & _).
    simpl. apply in_app_iff. by left.
  - destruct (check_task plan_path ids (r, e) t0) as [r1 e1]. by apply IH.
Qed.

(** A task that lists its own number in [Depends On] (the last task with
    that number, when several share one) gets two findings: the
    self-dependency ERROR and, because the reference stays in the edge
    mapping, a dependency-cycle ERROR.  It is assumed of Python's sets only
    that iterating over a set yields each of its elements. *)
Theorem self_dependency_also_cycle (set_iter : list string -> list string)
    (plan_path : string) (tasks : list task) (report : Report) (t : task)
    (Hset : forall l x, In x l -> In x (set_iter l))
    (Hlast : task_last (task_id t) tasks = Some t)
    (Hself : In (task_id t) (deps_of t)) :
  exists r c,
    check_tasks set_iter plan_path tasks report = Ok r
    /\ In (self_dependency_finding plan_path t) (findings r)
    /\ In (task_cycle_finding plan_path c) (findings r).
Proof.
  pose proof (task_last_in _ _ _ Hlast) as Hin.
  assert (forall ids e,
            In (self_dependency_finding plan_path t)
               (findings (fst (fold_left (check_task plan_path ids) tasks
                                 (report, e))))) as Hselfin.
  { intros ids e. by apply fold_check_task_self. }
  unfold check_tasks. cbv zeta.
  match goal with
  | |- context [fold_left (check_task plan_path ?ids) tasks (report, ?e0)] =>
      specialize (Hselfin ids e0);
      pose proof (fold_check_task_edges plan_path ids tasks report e0
                    (task_id t)) as Hedges;
      destruct (fold_left (check_task plan_path ids) tasks (report, e0))
        as [r1 edges]
  end.
  simpl in Hselfin, Hedges. rewrite Hlast in Hedges.
  destruct (CycleMore.detect_cycle_reach_spec
              (set_iter (map task_id tasks)) edges) as (c & -> & Hpost).
  destruct c as [c|]; cbn [bind].
  - destruct Hpost as (Hcw & _).
    rewrite (CycleFacts.closed_walk_truthy edges c Hcw).
    eexists _, c. split; [done|]. simpl. split.
    + apply in_app_iff. by left.
    + apply in_app_iff. right. by left.
  - exfalso. apply Hpost. exists (task_id t), (task_id t).
    split; [|split; [done|]].
    + apply list_elem_of_In, Hset, in_map_iff. by exists t.
    + apply tc_once. unfold Graph.edge. rewrite Hedges.
      by apply list_elem_of_In.
Qed.

Lemma self_dependency_also_cycle_witness :
  let t := mkTask "1" "First" 1
             ["### Task 1: First"; "**Depends On:** Task 1"] in
  exists r c,
    check_tasks Samples.first_seen "plan.md" [t] (ReportOps.new "plan") = Ok r
    /\ In (self_dependency_finding "plan.md" t) (findings r)
    /\ In (task_cycle_finding "plan.md" c) (findings r).
Proof.
  cbv zeta.
  apply (self_dependency_also_cycle Samples.first_seen "plan.md").
  - intros l x Hx. unfold Samples.first_seen.
    apply list_elem_of_In, elem_of_remove_dups, list_elem_of_In, Hx.
  - reflexivity.
  - vm_compute. by left.
Defined.

End PlanFacts.

(** ** The issues validator as a whole *)

Module IssuesMore.
Import Text Issues IssueSpec MoreSpec IssueFacts.

Lemma not_in_strs_unhashable v allowed :
  hashable v = false -> exists msg, Py.not_in_strs v allowed = Raise (TypeError msg).
Proof. destruct v; simpl; try done; eauto. Qed.

Lemma not_warn_error m l : not_warn (mkFinding ERROR m l).
Proof. done. Qed.

Lemma not_warn_info m l : not_warn (mkFinding INFO m l).
Proof. done. Qed.

#[local] Hint Resolve not_warn_error not_warn_info : core.

(** One enum check: an ERROR, nothing, or a [TypeError]. *)
Lemma enum_check_outcome (w : world) location (value : json) allowed
    (msg : string) r :
  if hashable value then
    exists added,
      (let* bad := Py.not_in_strs value allowed in
       Ok (if bad then ReportOps.error r msg location else r))
      = Ok (app_report r added) /\ Forall not_warn added
  else
    exists e,
      (let* bad := Py.not_in_strs value allowed in
       Ok (if bad then ReportOps.error r msg location else r))
      = Raise (TypeError e).
Proof.
  destruct (hashable value) eqn:Hh.
  - destruct (not_in_strs_hashable value allowed Hh) as (b & ->). simpl.
    destruct b.
    + exists [mkFinding ERROR msg location]. split; [|by repeat constructor].
      unfold ReportOps.error. by rewrite add_app_report.
    + exists []. by rewrite app_report_nil.
  - destruct (not_in_strs_unhashable value allowed Hh) as (e & ->). eauto.
Qed.

Lemma check_priority_outcome w location issue r :
  if hashable (Py.get "priority" issue) then
    exists added,
      check_priority w location issue r = Ok (app_report r added)
      /\ Forall not_warn added
  else exists e, check_priority w location issue r = Raise (TypeError e).
Proof. unfold check_priority. apply (enum_check_outcome w). Qed.

Lemma enums_loop_outcome w location issue (fields : list (string * list string)) :
  forall r,
  if forallb (fun k => hashable (Py.get k issue)) (map fst fields) then
    exists added,
      for_each fields (fun r '(field_name, allowed) =>
        let value := Py.get field_name issue in
        let* bad := Py.not_in_strs value allowed in
        Ok (if bad then
              ReportOps.error r
                ("Invalid " +:+ field_name +:+ " `" +:+ Py.str (py_repr w) value
                 +:+ "`") location
            else r)) r
      = Ok (app_report r added) /\ Forall not_warn added
  else
    exists e,
      for_each fields (fun r '(field_name, allowed) =>
        let value := Py.get field_name issue in
        let* bad := Py.not_in_strs value allowed in
        Ok (if bad then
              ReportOps.error r
                ("Invalid " +:+ field_name +:+ " `" +:+ Py.str (py_repr w) value
                 +:+ "`") location
            else r)) r
      = Raise (TypeError e).
Proof.
  induction fields as [|[field_name allowed] fields IH]; intros r.
  - simpl. exists []. by rewrite app_report_nil.
  - cbn [map fst forallb for_each]. cbv zeta.
    pose proof (enum_check_outcome w location (Py.get field_name issue) allowed
                  ("Invalid " +:+ field_name +:+ " `"
                   +:+ Py.str (py_repr w) (Py.get field_name issue) +:+ "`") r)
      as Hone.
    destruct (hashable (Py.get field_name issue)).
    + destruct Hone as (a1 & -> & Ha1). cbn [bind andb].
      specialize (IH (app_report r a1)).
      destruct (forallb _ _).
      * destruct IH as (a2 & Heq & Ha2). exists (a1 ++ a2).
        rewrite <- app_report_app. split; [exact Heq|]. by apply Forall_app.
      * destruct IH as (e & Heq). exists e. exact Heq.
    + destruct Hone as (e & ->). cbn [bind andb]. eauto.
Qed.

Lemma check_status_enums_outcome w location issue r :
  if forallb (fun k => hashable (Py.get k issue)) (map fst STATUS_ENUMS) then
    exists added,
      check_status_enums w location issue r = Ok (app_report r added)
      /\ Forall not_warn added
  else exists e, check_status_enums w location issue r = Raise (TypeError e).
Proof. apply enums_loop_outcome. Qed.

Lemma check_required_nw location issue :
  adds not_warn (check_required location issue).
Proof. unfold check_required. adds_solve; done. Qed.

Lemma check_blocked_type_nw location issue :
  adds not_warn (check_blocked_type location issue).
Proof.
  unfold check_blocked_type. destruct (Py.get "blocked" issue); adds_solve; done.
Qed.

Lemma check_depends_type_nw location issue :
  adds not_warn (check_depends_type location issue).
Proof.
  unfold check_depends_type.
  destruct (Py.get "depends_on" issue); adds_solve; done.
Qed.

Lemma check_ref_nw w location ref :
  adds not_warn (fun r => check_ref w location r ref).
Proof.
  unfold check_ref. destruct ref; try (adds_solve; done).
  destruct (Re.match_ _ _ _); adds_solve; done.
Qed.

Lemma check_refs_nw w location issue :
  adds not_warn (check_refs w location issue).
Proof.
  unfold check_refs.
  destruct (Py.get "refs" issue) as [| | | | |[|x l]|];
    try (apply (adds_add _ ERROR); done).
  apply (adds_fold _ (check_ref w location) (x :: l)).
  apply check_ref_nw.
Qed.

Lemma check_committed_nw location issue :
  adds not_warn (check_committed location issue).
Proof.
  unfold check_committed.
  destruct (Py.eq_str _ _); [|apply adds_id].
  destruct (Py.get "blocked" issue) as [|[|]| | | | |]; adds_solve; done.
Qed.

Lemma check_meta_fields_nw path n meta :
  adds not_warn (check_meta_fields path n meta).
Proof. unfold check_meta_fields. adds_solve; done. Qed.

Lemma check_execution_context_nw w path n meta :
  adds not_warn (check_execution_context w path n meta).
Proof.
  unfold check_execution_context.
  destruct (Py.get "execution_context" meta); adds_solve; done.
Qed.

Lemma check_source_nw w path n meta :
  adds not_warn (check_source w path n meta).
Proof.
  unfold check_source. destruct (Py.get "source" meta); adds_solve; done.
Qed.

Lemma check_total_nw w path n meta actual :
  adds not_warn (check_total w path n meta actual).
Proof.
  unfold check_total. cbv zeta.
  destruct (Py.as_int _); adds_solve; done.
Qed.

(** One issue row: findings that are no WARN, or a [TypeError] when the
    row passes the id check with an array or object in an enum field. *)
Lemma check_issue_outcome w path r imap row :
  if unhashable_issue (snd row) then
    exists e, check_issue w path (r, imap) row = Raise (TypeError e)
  else
    exists added imap',
      check_issue w path (r, imap) row = Ok (app_report r added, imap')
      /\ Forall not_warn added.
Proof.
  destruct row as [line_no issue]. cbn [snd]. unfold unhashable_issue.
  destruct (valid_id (Py.get "id" issue)) as [issue_id|] eqn:Hid.
  - rewrite (check_issue_valid _ _ _ _ _ _ issue_id Hid).
    set (location := loc path line_no).
    set (pre := if Py.odict_mem issue_id imap then _ else _).
    assert (exists a0, pre = app_report r a0 /\ Forall not_warn a0)
      as (a0 & -> & Ha0).
    { unfold pre.
      destruct (check_required_nw location issue r) as (a & -> & Ha).
      destruct (Py.odict_mem issue_id imap).
      - exists (a ++ [mkFinding ERROR ("Duplicate issue id `" +:+ issue_id +:+ "`")
                         location]).
        split; [by unfold ReportOps.error; rewrite add_app_report, app_report_app|].
        apply Forall_app. split; [done|]. by repeat constructor.
      - by exists a. }
    unfold enum_fields. cbn [forallb].
    pose proof (check_priority_outcome w location issue (app_report r a0)) as H1.
    destruct (hashable (Py.get "priority" issue)); cbn [andb negb].
    + destruct H1 as (a1 & -> & Ha1). cbn [bind].
      pose proof (check_status_enums_outcome w location issue
                    (app_report (app_report r a0) a1)) as H2.
      cbn [STATUS_ENUMS map fst forallb] in H2.
      destruct (hashable (Py.get "dev_state" issue) && _).
      * destruct H2 as (a2 & -> & Ha2). cbn [bind negb].
        destruct (check_blocked_type_nw location issue
                    (app_report (app_report (app_report r a0) a1) a2))
          as (a3 & -> & Ha3).
        destruct (check_depends_type_nw location issue
                    (app_report (app_report (app_report (app_report r a0) a1) a2) a3))
          as (a4 & -> & Ha4).
        destruct (check_refs_nw w location issue
                    (app_report (app_report (app_report (app_report
                       (app_report r a0) a1) a2) a3) a4))
          as (a5 & -> & Ha5).
        destruct (check_committed_nw location issue
                    (app_report (app_report (app_report (app_report (app_report
                       (app_report r a0) a1) a2) a3) a4) a5))
          as (a6 & -> & Ha6).
        exists (a0 ++ a1 ++ a2 ++ a3 ++ a4 ++ a5 ++ a6),
          (Py.odict_set issue_id (line_no, issue) imap).
        rewrite !app_report_app, <- ?app_assoc. split; [done|].
        repeat (apply Forall_app; split; try done).
      * destruct H2 as (e & ->). cbn [bind negb]. eauto.
    + destruct H1 as (e & ->). cbn [bind]. eauto.
  - rewrite (check_issue_invalid _ _ _ _ _ _ Hid).
    destruct (check_required_nw (loc path line_no) issue r) as (a & -> & Ha).
    exists (a ++ [mkFinding ERROR "Issue `id` must be a non-empty string"
                    (loc path line_no)]), imap.
    split.
    + by unfold ReportOps.error; rewrite add_app_report, app_report_app.
    + apply Forall_app. split; [done|]. by repeat constructor.
Qed.

Lemma check_issues_loop_outcome w path rows : forall r imap,
  if existsb unhashable_issue (map snd rows) then
    exists e, for_each rows (check_issue w path) (r, imap) = Raise (TypeError e)
  else
    exists added imap',
      for_each rows (check_issue w path) (r, imap)
      = Ok (app_report r added, imap')
      /\ Forall not_warn added.
Proof.
  induction rows as [|row rows IH]; intros r imap.
  - simpl. exists [], imap. by rewrite app_report_nil.
  - cbn [map existsb for_each].
    pose proof (check_issue_outcome w path r imap row) as Hone.
    destruct (unhashable_issue (snd row)); cbn [orb].
    + destruct Hone as (e & ->). cbn [bind]. eauto.
    + destruct Hone as (a1 & imap1 & -> & Ha1). cbn [bind].
      specialize (IH (app_report r a1) imap1).
      destruct (existsb _ _).
      * destruct IH as (e & ->). eauto.
      * destruct IH as (a2 & imap2 & -> & Ha2). exists (a1 ++ a2), imap2.
        rewrite app_report_app. split; [done|]. by apply Forall_app.
Qed.

Lemma check_dep_nw location issue_id imap :
  adds_pair not_warn (check_dep location issue_id imap).
Proof.
  intros r e dep. unfold check_dep.
  destruct (valid_id dep) as [dep_id|]; cbn [fst].
  - destruct (String.eqb dep_id issue_id); cbn [fst].
    + eexists [_]. split; [by unfold ReportOps.error; rewrite add_app_report|].
      by repeat constructor.
    + destruct (negb _); cbn [fst].
      * eexists [_]. split; [by unfold ReportOps.error; rewrite add_app_report|].
        by repeat constructor.
      * exists []. by rewrite app_report_nil.
  - eexists [_]. split; [by unfold ReportOps.error; rewrite add_app_report|].
    by repeat constructor.
Qed.

Lemma check_deps_nw path imap :
  adds_pair not_warn (check_deps path imap).
Proof.
  intros r e [issue_id [line_no issue]]. unfold check_deps.
  destruct (Py.get_default "depends_on" (JList []) issue) as [| | | | |deps|];
    try (exists []; by rewrite app_report_nil).
  apply PlanFacts.adds_pair_fold, check_dep_nw.
Qed.

Lemma build_edges_nw path imap r :
  exists added,
    fst (build_edges path imap r) = app_report r added /\ Forall not_warn added.
Proof.
  unfold build_edges. cbv zeta.
  apply PlanFacts.adds_pair_fold, check_deps_nw.
Qed.

(** The rows after parsing: findings that are no WARN, or a [TypeError]
    when an issue row (any row after the first) is unhashable. *)
Lemma check_rows_outcome w path rows report :
  if existsb unhashable_issue (map snd (tail rows)) then
    exists e, check_rows w path rows report = Raise (TypeError e)
  else
    exists added,
      check_rows w path rows report = Ok (app_report report added)
      /\ Forall not_warn added.
Proof.
  destruct rows as [|[n meta] [|row rest]].
  - simpl. exists []. by rewrite app_report_nil.
  - cbn [tail map existsb]. unfold check_rows.
    destruct (check_meta_fields_nw path n meta report) as (a1 & -> & Ha1).
    destruct (check_execution_context_nw w path n meta (app_report report a1))
      as (a2 & -> & Ha2).
    destruct (check_source_nw w path n meta
                (app_report (app_report report a1) a2)) as (a3 & -> & Ha3).
    exists (a1 ++ a2 ++ a3 ++ [mkFinding ERROR "No issue rows after meta" path]).
    split.
    + unfold ReportOps.error.
      by rewrite add_app_report, !app_report_app, <- ?app_assoc.
    + repeat (apply Forall_app; split; try done). by repeat constructor.
  - cbn [tail]. rewrite check_rows_unfold.
    destruct (check_meta_fields_nw path n meta report) as (a1 & -> & Ha1).
    destruct (check_execution_context_nw w path n meta (app_report report a1))
      as (a2 & -> & Ha2).
    destruct (check_source_nw w path n meta
                (app_report (app_report report a1) a2)) as (a3 & -> & Ha3).
    destruct (check_total_nw w path n meta (length (row :: rest))
                (app_report (app_report (app_report report a1) a2) a3))
      as (a4 & -> & Ha4).
    rewrite !app_report_app.
    pose proof (check_issues_loop_outcome w path (row :: rest)
                  (app_report report (a1 ++ a2 ++ a3 ++ a4)) []) as Hloop.
    destruct (existsb unhashable_issue (map snd (row :: rest))).
    + destruct Hloop as (e & ->). cbn [bind]. eauto.
    + destruct Hloop as (a5 & imap & -> & Ha5). cbn [bind].
      rewrite app_report_app.
      destruct (build_edges_nw path imap
                  (app_report report ((a1 ++ a2 ++ a3 ++ a4) ++ a5)))
        as (a6 & -> & Ha6).
      rewrite app_report_app.
      destruct (CycleMore.detect_cycle_reach_spec (map fst imap)
                  (snd (build_edges path imap
                          (app_report report ((a1 ++ a2 ++ a3 ++ a4) ++ a5)))))
        as (c & -> & _). cbn [bind].
      assert (Forall not_warn (((a1 ++ a2 ++ a3 ++ a4) ++ a5) ++ a6)) as Hall.
      { repeat (apply Forall_app; split; try done). }
      destruct (Cycle.truthy c).
      * eexists (_ ++ [_]). split.
        -- unfold ReportOps.error. by rewrite add_app_report, app_report_app.
        -- apply Forall_app. split; [done|]. by repeat constructor.
      * eauto.
Qed.

Lemma parse_rows_spec path lines : forall idx report,
  exists added,
    fst (parse_rows idx lines report path) = app_report report added
    /\ Forall is_error added
    /\ map snd (snd (parse_rows idx lines report path)) = dict_lines lines.
Proof.
  induction lines as [|line lines IH]; intros idx report.
  - simpl. exists []. by rewrite app_report_nil.
  - cbn [parse_rows dict_lines].
    destruct line as [|msg|[| | | | | |d]]; cbn [parse_json_line];
      try (destruct (IH (S idx) (ReportOps.error report
                                   "JSONL line must be a JSON object"
                                   (loc path idx)))
             as (a & Hr & Ha & Hd);
           eexists (_ :: a); unfold ReportOps.error in *;
           rewrite add_app_report, app_report_app in Hr;
           split; [exact Hr|]; split; [by constructor|exact Hd]).
    + destruct (IH (S idx) (ReportOps.error report
                              "Invalid JSON: Expecting value" (loc path idx)))
        as (a & Hr & Ha & Hd).
      eexists (_ :: a). unfold ReportOps.error in *.
      rewrite add_app_report, app_report_app in Hr.
      split; [exact Hr|]. split; [by constructor|exact Hd].
    + destruct (IH (S idx) (ReportOps.error report
                              ("Invalid JSON: " +:+ msg) (loc path idx)))
        as (a & Hr & Ha & Hd).
      eexists (_ :: a). unfold ReportOps.error in *.
      rewrite add_app_report, app_report_app in Hr.
      split; [exact Hr|]. split; [by constructor|exact Hd].
    + destruct (IH (S idx) report) as (a & Hr & Ha & Hd).
      destruct (parse_rows (S idx) lines report path) as [r1 rows].
      exists a. cbn [fst snd map] in *. by rewrite Hd.
Qed.

Lemma dict_lines_filter lines :
  dict_lines
    (List.filter (fun l => match l with Blank => false | _ => true end) lines)
  = dict_lines lines.
Proof.
  induction lines as [|[|msg|[| | | | | |d]] lines IH]; simpl; try done.
  by rewrite IH.
Qed.

Lemma is_error_not_warn l : Forall is_error l -> Forall not_warn l.
Proof.
  intros Hl. eapply Forall_impl; [exact Hl|].
  intros f Hf. unfold is_error in Hf. unfold not_warn. by rewrite Hf.
Qed.

(** The whole validator on a readable file. *)
Lemma check_issues_content_outcome w text path :
  if existsb unhashable_issue (tail (dict_lines text)) then
    exists e, check_issues w (Content text) path = Raise (TypeError e)
  else
    exists added,
      check_issues w (Content text) path = Ok (mkReport "issues" added)
      /\ Forall not_warn added.
Proof.
  unfold check_issues. cbn [read_text]. cbv zeta.
  pose proof (dict_lines_filter text) as Hfilter.
  destruct (List.filter _ text) as [|line lines] eqn:Hlines.
  - simpl in Hfilter. rewrite <- Hfilter. simpl.
    eexists [_]. split; [reflexivity|]. by repeat constructor.
  - rewrite <- Hfilter.
    destruct (parse_rows_spec path (line :: lines) 1 (ReportOps.new "issues"))
      as (a & Hr & Ha & Hd).
    destruct (parse_rows 1 (line :: lines) (ReportOps.new "issues") path)
      as [r1 rows].
    cbn [fst snd] in Hr, Hd. subst r1. rewrite <- Hd.
    pose proof (check_rows_outcome w path rows
                  (app_report (ReportOps.new "issues") a)) as Hrows.
    replace (tail (map snd rows)) with (map snd (tail rows))
      by (by destruct rows).
    destruct (existsb _ _).
    + exact Hrows.
    + destruct Hrows as (b & -> & Hb). exists (a ++ b). split; [done|].
      apply Forall_app. split; [by apply is_error_not_warn|done].
Qed.

Lemma count_warnings_none l :
  Forall not_warn l -> ReportOps.count_severity WARN l = 0.
Proof.
  unfold ReportOps.count_severity.
  induction 1 as [|x l Hx _ IH]; [done|]. simpl.
  destruct (f_severity x) eqn:Hs; simpl; done.
Qed.

Lemma check_issues_nw (w : world) (f : file (list jsonl_line))
    (issues_path : string) :
  match check_issues w f issues_path with
  | Ok r => name r = "issues" /\ Forall not_warn (findings r)
  | Raise _ => True
  | Timeout => False
  end.
Proof.
  destruct f as [| | |text];
    try (simpl; split; [done|]; by repeat constructor).
  pose proof (check_issues_content_outcome w text issues_path) as Hout.
  destruct (existsb _ _).
  - by destruct Hout as (e & ->).
  - by destruct Hout as (a & -> & Ha).
Qed.

(** The issues validator never adds a WARN finding and never runs out of
    fuel: it returns the report named [issues] with ERROR and INFO
    findings only (so [warnings] is 0), or raises. *)
Theorem check_issues_never_warns (w : world) (f : file (list jsonl_line))
    (issues_path : string) :
  match check_issues w f issues_path with
  | Ok r =>
      name r = "issues" /\ Forall not_warn (findings r)
      /\ ReportOps.warnings r = 0
  | Raise _ => True
  | Timeout => False
  end.
Proof.
  pose proof (check_issues_nw w f issues_path) as Hnw.
  destruct (check_issues w f issues_path) as [r| |]; [|done|done].
  destruct Hnw as [Hname Hall]. split; [done|]. split; [done|].
  by apply count_warnings_none.
Qed.

(** A JSON object after the first one whose [id] is a non-blank string
    and that holds an array or an object in [priority] or in one of the four
    status fields keeps the issues validator from returning a report: the
    set-membership test raises.  And a [TypeError] comes from such a record
    only: not from the first object, not from a record whose id is
    rejected. *)
Theorem check_issues_type_error (w : world) (text : list jsonl_line)
    (issues_path : string) :
  ((exists issue, In issue (tail (dict_lines text))
                  /\ unhashable_issue issue = true) ->
   exists exc, check_issues w (Content text) issues_path = Raise exc)
  /\ (forall e,
        check_issues w (Content text) issues_path = Raise (TypeError e) ->
        exists issue, In issue (tail (dict_lines text))
                      /\ unhashable_issue issue = true).
Proof.
  pose proof (check_issues_content_outcome w text issues_path) as Hout.
  destruct (existsb unhashable_issue (tail (dict_lines text))) eqn:Hex.
  - destruct Hout as (e & He). apply existsb_exists in Hex.
    split; [by intros _; exists (TypeError e)|by intros _ _].
  - destruct Hout as (a & Ha & _). split.
    + intros Hsome. apply existsb_exists in Hsome. by rewrite Hex in Hsome.
    + intros e He. by rewrite Ha in He.
Qed.

End IssuesMore.

(** ** The issue map and the dependency graph of the issues *)

Module IssueGraph.
Import Text Issues IssueSpec MoreSpec IssueFacts.

Lemma odict_mem_keys {V} k (m : list (string * V)) :
  Py.odict_mem k m = existsb (String.eqb k) (map fst m).
Proof.
  unfold Py.odict_mem. induction m as [|[k' v] m IH]; [done|]. simpl.
  rewrite (String.eqb_sym k k').
  destruct (String.eqb k' k); [done|]. apply IH.
Qed.

Lemma odict_set_keys {V} k (v : V) m :
  map fst (Py.odict_set k v m)
  = if Py.odict_mem k m then map fst m else map fst m ++ [k].
Proof.
  unfold Py.odict_mem. induction m as [|[k' v'] m IH]; [done|]. simpl.
  destruct (String.eqb k' k) eqn:Hk.
  - apply String.eqb_eq in Hk as ->. done.
  - simpl. rewrite IH. by destruct (Py.odict_get k m).
Qed.

Lemma filter_filter_keys (K : list string) k (L : list string) :
  List.filter (fun y => negb (existsb (String.eqb y) (K ++ [k]))) L
  = List.filter (fun y => negb (existsb (String.eqb y) K))
      (List.filter (fun y => negb (String.eqb y k)) L).
Proof.
  induction L as [|y L IH]; [done|]. simpl.
  rewrite existsb_app. simpl. rewrite orb_false_r.
  destruct (String.eqb y k); simpl.
  - rewrite orb_true_r. simpl. apply IH.
  - rewrite orb_false_r. destruct (existsb (String.eqb y) K); simpl;
      [apply IH|by rewrite IH].
Qed.

Lemma filter_known_key (K : list string) k (L : list string) :
  existsb (String.eqb k) K = true ->
  List.filter (fun y => negb (existsb (String.eqb y) K))
    (List.filter (fun y => negb (String.eqb y k)) L)
  = List.filter (fun y => negb (existsb (String.eqb y) K)) L.
Proof.
  intros Hk. induction L as [|y L IH]; [done|]. simpl.
  destruct (String.eqb y k) eqn:Hy; simpl.
  - apply String.eqb_eq in Hy as ->. by rewrite Hk.
  - by rewrite IH.
Qed.

(** The keys of the issue map after the loop over the rows. *)
Lemma issue_map_keys_from w path rows : forall r0 m0 r imap,
  for_each rows (check_issue w path) (r0, m0) = Ok (r, imap) ->
  map fst imap
  = map fst m0
    ++ List.filter (fun y => negb (existsb (String.eqb y) (map fst m0)))
         (first_occurrences (valid_ids rows)).
Proof.
  induction rows as [|row rows IH]; intros r0 m0 r imap Hrun.
  - simpl in Hrun. injection Hrun as <- <-. simpl. by rewrite app_nil_r.
  - cbn [for_each] in Hrun.
    destruct (check_issue w path (r0, m0) row) as [[r1 m1]| |] eqn:Hstep;
      simpl in Hrun; [|done|done].
    apply check_issue_step in Hstep. specialize (IH _ _ _ _ Hrun).
    cbn [valid_ids]. destruct (row_id row) as [id|].
    + destruct Hstep as (-> & _). rewrite IH, odict_set_keys.
      cbn [first_occurrences List.filter].
      rewrite <- odict_mem_keys.
      destruct (Py.odict_mem id m0) eqn:Hmem; cbn [negb].
      * f_equal. symmetry. apply filter_known_key.
        by rewrite <- odict_mem_keys.
      * rewrite <- app_assoc. simpl. f_equal. f_equal.
        apply filter_filter_keys.
    + destruct Hstep as (-> & _). done.
Qed.

Lemma first_occurrences_in l x : In x (first_occurrences l) <-> In x l.
Proof.
  induction l as [|y l IH]; [done|]. simpl. rewrite filter_In, IH.
  destruct (String.eqb x y) eqn:Hxy.
  - apply String.eqb_eq in Hxy as ->. split; [by left|by left].
  - apply String.eqb_neq in Hxy. split.
    + intros [->|[Hin _]]; [done|by right].
    + intros [->|Hin]; [done|]. right. by split.
Qed.

Lemma first_occurrences_nodup l : NoDup (first_occurrences l).
Proof.
  induction l as [|y l IH]; simpl; [constructor|].
  constructor.
  - rewrite list_elem_of_In, filter_In. rewrite String.eqb_refl.
    by intros [_ ?].
  - apply NoDup_ListNoDup, List.NoDup_filter, NoDup_ListNoDup, IH.
Qed.

Lemma valid_ids_in rows id :
  In id (valid_ids rows) <-> exists row, In row rows /\ row_id row = Some id.
Proof.
  induction rows as [|row rows IH]; simpl.
  - split; [done|by intros (? & [] & _)].
  - destruct (row_id row) as [id'|] eqn:Hrow; simpl; rewrite ?IH; split.
    + intros [->|(row' & Hin & Hid)]; [exists row; eauto|exists row'; eauto].
    + intros (row' & [->|Hin] & Hid); [left; congruence|right; eauto].
    + intros (row' & Hin & Hid). exists row'; eauto.
    + intros (row' & [->|Hin] & Hid); [congruence|eauto].
Qed.

(** The issue map holds one entry for each id that passes the id check,
    in the order in which the ids first occur: assigning to a key that the
    dict already holds keeps the key at its place. *)
Theorem issue_map_keys (w : world) (path : string) (rows : list (nat * dict))
    (r0 r : Report) (imap : issue_map)
    (Hrun : for_each rows (check_issue w path) (r0, []) = Ok (r, imap)) :
  map fst imap = first_occurrences (valid_ids rows)
  /\ NoDup (map fst imap)
  /\ (forall id, In id (map fst imap)
                 <-> exists row, In row rows /\ row_id row = Some id).
Proof.
  pose proof (issue_map_keys_from w path rows r0 [] r imap Hrun) as Hkeys.
  simpl in Hkeys.
  assert (map fst imap = first_occurrences (valid_ids rows)) as Heq.
  { rewrite Hkeys. clear. induction (first_occurrences _) as [|x l IH];
      [done|]. simpl. by rewrite IH. }
  split; [done|]. rewrite Heq. split.
  - apply first_occurrences_nodup.
  - intros id. by rewrite first_occurrences_in, valid_ids_in.
Qed.

Lemma issue_map_keys_witness :
  let first := Samples.issue_with (JStr "A") [] "pending" "uncommitted" in
  let second := Samples.issue_with (JStr "B") [JStr "A"] "pending" "uncommitted" in
  let rows := [(2, first); (3, second); (4, first)] in
  exists imap : issue_map,
    map fst imap = ["A"; "B"]
    /\ map fst imap = first_occurrences (valid_ids rows)
    /\ NoDup (map fst imap)
    /\ (forall id, In id (map fst imap)
                   <-> exists row, In row rows /\ row_id row = Some id).
Proof.
  cbv zeta.
  eexists. split; [|eapply (issue_map_keys Samples.sample_world "i.jsonl" _
                             (ReportOps.new "issues"))];
    [|vm_compute; reflexivity].
  reflexivity.
Defined.

(** *** The edge mapping *)

Lemma check_dep_edges location id imap r e dep :
  snd (check_dep location id imap (r, e) dep)
  = alter (fun l => l ++ dep_target imap id dep) id e.
Proof.
  assert (alter (fun l : list string => l ++ []) id e = e) as Hid.
  { apply alter_id. intros l _. apply app_nil_r. }
  unfold check_dep, dep_target.
  destruct (valid_id dep) as [dep_id|]; [|by rewrite Hid].
  destruct (String.eqb dep_id id); [by rewrite Hid|].
  destruct (Py.odict_mem dep_id imap); [done|by rewrite Hid].
Qed.

Lemma fold_check_dep_edges location id imap deps : forall r e,
  snd (fold_left (check_dep location id imap) deps (r, e))
  = alter (fun l => l ++ flat_map (dep_target imap id) deps) id e.
Proof.
  induction deps as [|dep deps IH]; intros r e.
  - simpl. symmetry. apply alter_id. intros l _. apply app_nil_r.
  - cbn [fold_left flat_map].
    pose proof (check_dep_edges location id imap r e dep) as Hstep.
    destruct (check_dep location id imap (r, e) dep) as [r1 e1].
    simpl in Hstep. subst e1. rewrite IH.
    rewrite alter_alter_eq. apply alter_ext. intros l _. simpl.
    by rewrite app_assoc.
Qed.

Lemma check_deps_edges path imap r e id line_no issue :
  snd (check_deps path imap (r, e) (id, (line_no, issue)))
  = alter (fun l => l ++ deps_list imap id issue) id e.
Proof.
  assert (alter (fun l : list string => l ++ []) id e = e) as Hid.
  { apply alter_id. intros l _. apply app_nil_r. }
  unfold check_deps, deps_list.
  destruct (Py.get_default "depends_on" (JList []) issue);
    try (by rewrite Hid).
  apply fold_check_dep_edges.
Qed.

Lemma odict_get_none {V} k (m : list (string * V)) :
  ~ In k (map fst m) -> Py.odict_get k m = None.
Proof.
  induction m as [|[k' v] m IH]; [done|]. simpl. intros Hk.
  destruct (String.eqb k' k) eqn:Heq.
  - apply String.eqb_eq in Heq. tauto.
  - apply IH. tauto.
Qed.

Lemma odict_get_keys {V} k (m : list (string * V)) :
  In k (map fst m) <-> exists v, Py.odict_get k m = Some v.
Proof.
  induction m as [|[k' v] m IH]; simpl.
  - split; [done|by intros (? & ?)].
  - destruct (String.eqb k' k) eqn:Heq.
    + apply String.eqb_eq in Heq. split; [eauto|by left].
    + apply String.eqb_neq in Heq. rewrite <- IH. tauto.
Qed.

Lemma fold_check_deps_edges path imap entries :
  NoDup (map fst entries) ->
  forall r e a,
    snd (fold_left (check_deps path imap) entries (r, e)) !! a
    = match Py.odict_get a entries with
      | Some (_, issue) => (fun l => l ++ deps_list imap a issue) <$> (e !! a)
      | None => e !! a
      end.
Proof.
  induction entries as [|[id [line_no issue]] entries IH];
    intros Hnd r e a; [done|].
  apply NoDup_cons in Hnd as [Hid Hnd]. cbn [fold_left].
  pose proof (check_deps_edges path imap r e id line_no issue) as Hstep.
  destruct (check_deps path imap (r, e) (id, (line_no, issue))) as [r1 e1].
  simpl in Hstep. subst e1. rewrite (IH Hnd). cbn [Py.odict_get].
  destruct (String.eqb id a) eqn:Heq.
  - apply String.eqb_eq in Heq as <-.
    rewrite odict_get_none by (by rewrite <- list_elem_of_In).
    by rewrite lookup_alter_eq.
  - apply String.eqb_neq in Heq. by rewrite lookup_alter_ne.
Qed.

Lemma initial_edges_lookup (ids : list string) :
  forall (e : gmap string (list string)) a,
    fold_left (fun m k => <[k := []]> m) ids e !! a
    = if decide (a ∈ ids) then Some [] else e !! a.
Proof.
  induction ids as [|k ids IH]; intros e a; [done|]. simpl. rewrite IH.
  destruct (decide (a ∈ ids)) as [Hin|Hnin].
  - rewrite decide_True; [done|by right].
  - rewrite lookup_insert. destruct (decide (k = a)) as [->|Hne].
    + rewrite decide_True; [done|by left].
    + rewrite decide_False; [done|].
      intros [->|?]%elem_of_cons; done.
Qed.

(** The adjacency lists of the mapping that [build_edges] returns. *)
Lemma build_edges_adjacency path imap r :
  NoDup (map fst imap) ->
  forall id,
    Cycle.edges_get (snd (build_edges path imap r)) id = issue_deps imap id.
Proof.
  intros Hnd id. unfold build_edges, Cycle.edges_get, issue_deps. cbv zeta.
  rewrite (fold_check_deps_edges path imap imap Hnd).
  rewrite initial_edges_lookup, lookup_empty.
  destruct (Py.odict_get id imap) as [[line_no issue]|] eqn:Hget.
  - rewrite decide_True; [done|].
    apply list_elem_of_In, odict_get_keys. eauto.
  - rewrite decide_False; [done|].
    rewrite list_elem_of_In, odict_get_keys. intros (v & Hv). congruence.
Qed.

Lemma issue_deps_source imap a b :
  In b (issue_deps imap a) -> In a (map fst imap).
Proof.
  unfold issue_deps. intros Hb. apply odict_get_keys.
  destruct (Py.odict_get a imap); [eauto|done].
Qed.

(** The edge mapping that the issues validator hands to the cycle search:
    the adjacency list of an id holds the entries of its [depends_on]
    that are ids of other known issues, in order; every edge joins two
    different keys of the issue map; and the search result is a cycle
    exactly when this graph has one. *)
Theorem issue_graph_exact (path : string) (imap : issue_map) (report : Report)
    (Hnd : NoDup (map fst imap)) :
  let edges := snd (build_edges path imap report) in
  (forall id, Cycle.edges_get edges id = issue_deps imap id)
  /\ (forall a b, Graph.edge edges a b ->
        a <> b /\ In a (map fst imap) /\ In b (map fst imap))
  /\ (Cycle.detect_cycle (map fst imap) edges = Ok None
      <-> ~ Graph.has_cycle edges)
  /\ ((exists c, Cycle.detect_cycle (map fst imap) edges = Ok (Some c))
      <-> Graph.has_cycle edges).
Proof.
  cbv zeta. set (edges := snd (build_edges path imap report)).
  pose proof (build_edges_adjacency path imap report Hnd) as Hadj.
  fold edges in Hadj.
  assert (forall a b, Graph.edge edges a b ->
            a <> b /\ In a (map fst imap) /\ In b (map fst imap)) as Hedge.
  { intros a b Hab.
    destruct (build_edges_clean path imap report a b Hab) as [Hne Hmem].
    split; [done|]. split.
    - unfold Graph.edge in Hab. fold edges in Hab. rewrite Hadj in Hab.
      apply list_elem_of_In in Hab. by eapply issue_deps_source.
    - apply odict_get_keys. unfold Py.odict_mem in Hmem.
      destruct (Py.odict_get b imap); [eauto|done]. }
  assert (Graph.cycle_reachable (map fst imap) edges <-> Graph.has_cycle edges)
    as Hreach.
  { split.
    - intros (n & x & _ & _ & Hx). by exists x.
    - intros (x & Hx). exists x, x. split; [|split; [done|done]].
      assert (exists y, Graph.edge edges x y) as (y & Hy).
      { inversion Hx; subst; eauto. }
      apply list_elem_of_In. by apply (Hedge x y). }
  split; [done|]. split; [done|].
  rewrite <- Hreach.
  destruct (CycleMore.detect_cycle_reach_spec (map fst imap) edges)
    as (res & -> & Hpost).
  destruct res as [c|].
  - destruct Hpost as (Hcw & n & x & Hn & Hnx & Hhd).
    assert (Graph.cycle_reachable (map fst imap) edges) as Hcyc.
    { exists n, x. repeat split; [done|done|].
      by eapply CycleFacts.closed_walk_cycle. }
    split; [split; [done|by intros Hno]|].
    split; [done|by intros _; exists c].
  - split; [done|]. split; [by intros (c & ?)|done].
Qed.

Lemma issue_graph_exact_witness :
  let imap : issue_map :=
    [("A", (2, Samples.issue_with (JStr "A") [JStr "B"; JStr "A"; JStr "C"]
                 "pending" "uncommitted"));
     ("B", (3, Samples.issue_with (JStr "B") [JStr "A"]
                 "pending" "uncommitted"))] in
  let edges := snd (build_edges "i.jsonl" imap (ReportOps.new "issues")) in
  Cycle.edges_get edges "A" = ["B"]
  /\ (forall id, Cycle.edges_get edges id = issue_deps imap id)
  /\ (forall a b, Graph.edge edges a b ->
        a <> b /\ In a (map fst imap) /\ In b (map fst imap))
  /\ (Cycle.detect_cycle (map fst imap) edges = Ok None
      <-> ~ Graph.has_cycle edges)
  /\ ((exists c, Cycle.detect_cycle (map fst imap) edges = Ok (Some c))
      <-> Graph.has_cycle edges).
Proof.
  cbv zeta. split; [vm_compute; reflexivity|].
  apply (issue_graph_exact "i.jsonl").
  apply (bool_decide_eq_true_1 _). vm_compute. reflexivity.
Defined.

Lemma issue_map_nodup w path rows r0 r imap :
  for_each rows (check_issue w path) (r0, []) = Ok (r, imap) ->
  NoDup (map fst imap).
Proof.
  intros Hrun.
  rewrite (issue_map_keys_from w path rows r0 [] r imap Hrun). simpl.
  replace (List.filter _ _) with (first_occurrences (valid_ids rows)).
  - apply first_occurrences_nodup.
  - induction (first_occurrences _) as [|x l IH]; [done|]. simpl.
    by rewrite <- IH.
Qed.

(** The issues validator ends with a dependency-cycle ERROR exactly when
    the graph of the dependencies between known issues has a cycle, and
    the path in the message is then a closed walk of that graph. *)
Theorem check_rows_cycle_report (w : world) (path : string) (n : nat)
    (meta : dict) (row : nat * dict) (rest : list (nat * dict))
    (report final : Report)
    (Hrun : check_rows w path ((n, meta) :: row :: rest) report = Ok final) :
  exists r0 r1 imap,
    for_each (row :: rest) (check_issue w path) (r0, []) = Ok (r1, imap)
    /\ let '(r2, edges) := build_edges path imap r1 in
       (Graph.has_cycle edges
        /\ exists c,
             Graph.closed_walk edges c
             /\ final = app_report r2 [issue_cycle_finding path c])
       \/ (~ Graph.has_cycle edges /\ final = r2).
Proof.
  rewrite check_rows_unfold in Hrun.
  destruct (for_each _ _ _) as [[r1 imap]| |] eqn:Hfe;
    cbn [bind] in Hrun; [|done|done].
  eexists _, r1, imap. split; [exact Hfe|].
  pose proof (issue_map_nodup _ _ _ _ _ _ Hfe) as Hnd.
  destruct (build_edges path imap r1) as [r2 edges] eqn:Hbuild.
  cbn [fst snd] in Hrun.
  assert (forall a b, Graph.edge edges a b -> In a (map fst imap)) as Hsrc.
  { intros a b Hab. unfold Graph.edge in Hab.
    replace edges with (snd (build_edges path imap r1)) in Hab
      by (by rewrite Hbuild).
    rewrite (build_edges_adjacency path imap r1 Hnd) in Hab.
    apply list_elem_of_In in Hab. by eapply issue_deps_source. }
  destruct (CycleMore.detect_cycle_reach_spec (map fst imap) edges)
    as (res & Hres & Hpost).
  rewrite Hres in Hrun. cbn [bind] in Hrun.
  destruct res as [c|].
  - destruct Hpost as (Hcw & _ & x & _ & _ & Hhd).
    rewrite (CycleFacts.closed_walk_truthy edges c Hcw) in Hrun.
    injection Hrun as <-. left. split.
    + exists x. by eapply CycleFacts.closed_walk_cycle.
    + by exists c.
  - simpl in Hrun. injection Hrun as <-. right. split; [|done].
    intros (x & Hx). apply Hpost. exists x, x. split; [|done].
    assert (exists y, Graph.edge edges x y) as (y & Hy).
    { inversion Hx; subst; eauto. }
    apply list_elem_of_In. by apply (Hsrc x y).
Qed.

Lemma check_rows_cycle_report_witness :
  let rows :=
    [(2, Samples.issue_with (JStr "A") [JStr "B"] "pending" "uncommitted");
     (3, Samples.issue_with (JStr "B") [JStr "A"] "pending" "uncommitted")] in
  exists final,
    check_rows Samples.sample_world "i.jsonl"
      ((1, Samples.meta_with 2 []) :: rows) (ReportOps.new "issues") = Ok final
    /\ findings final = [issue_cycle_finding "i.jsonl" ["A"; "B"; "A"]]
    /\ exists r0 r1 imap,
         for_each rows (check_issue Samples.sample_world "i.jsonl") (r0, [])
         = Ok (r1, imap)
         /\ let '(r2, edges) := build_edges "i.jsonl" imap r1 in
            (Graph.has_cycle edges
             /\ exists c,
                  Graph.closed_walk edges c
                  /\ final = app_report r2 [issue_cycle_finding "i.jsonl" c])
            \/ (~ Graph.has_cycle edges /\ final = r2).
Proof.
  cbv zeta. eexists. split; [vm_compute; reflexivity|].
  split; [vm_compute; reflexivity|].
  apply (check_rows_cycle_report Samples.sample_world "i.jsonl" 1
           (Samples.meta_with 2 []) _ _ (ReportOps.new "issues")).
  vm_compute. reflexivity.
Defined.

End IssueGraph.

(** ** The parsers of the plan validator *)

Module ParseFacts.
Import Text Plan FieldSpec MoreSpec FieldFacts.

Lemma starts_from_head idx lines :
  match starts_from idx lines with
  | [] => body_lines lines = lines
  | (_, _, next) :: _ => next = idx + length (body_lines lines)
  end.
Proof.
  revert idx. induction lines as [|line rest IH]; intros idx; [done|].
  cbn [starts_from body_lines]. unfold header_of.
  destruct (Re.match_ _ _ _) as [m|]; [simpl; lia|].
  specialize (IH (S idx)).
  destruct (starts_from (S idx) rest) as [|[[? ?] next] ?].
  - by rewrite IH.
  - simpl. lia.
Qed.

Lemma body_lines_prefix lines :
  firstn (length (body_lines lines)) lines = body_lines lines.
Proof.
  induction lines as [|line rest IH]; [done|]. simpl.
  destruct (header_of line); [done|]. simpl. by rewrite IH.
Qed.

Lemma blocks_segments (pre lines : list string) :
  blocks (pre ++ lines) (starts_from (S (length pre)) lines)
  = segments (S (length pre)) lines.
Proof.
  revert pre. induction lines as [|line rest IH]; intros pre; [done|].
  assert (blocks (pre ++ line :: rest) (starts_from (S (S (length pre))) rest)
          = segments (S (S (length pre))) rest) as Hrest.
  { specialize (IH (pre ++ [line])).
    rewrite <- app_assoc, length_app in IH. simpl in IH.
    by rewrite Nat.add_1_r in IH. }
  cbn [starts_from segments]. unfold header_of.
  destruct (Re.match_ _ _ _) as [m|]; [|exact Hrest].
  cbn [blocks]. rewrite Hrest. f_equal. f_equal.
  unfold slice. rewrite Nat.sub_1_r. cbn [Nat.pred].
  rewrite drop_app_length.
  pose proof (starts_from_head (S (S (length pre))) rest) as Hhead.
  destruct (starts_from (S (S (length pre))) rest) as [|[[? ?] next] ?].
  - rewrite Hhead, length_app. simpl.
    replace (length pre + S (length rest) - length pre) with (S (length rest))
      by lia.
    simpl. by rewrite firstn_all.
  - subst next.
    replace (S (S (length pre)) + length (body_lines rest) - 1 - length pre)
      with (S (length (body_lines rest))) by lia.
    simpl. by rewrite body_lines_prefix.
Qed.

Lemma segments_concat idx lines :
  body_lines lines ++ List.concat (map block (segments idx lines)) = lines.
Proof.
  revert idx. induction lines as [|line rest IH]; intros idx; [done|].
  cbn [body_lines segments]. destruct (header_of line) as [[tid ttl]|].
  - simpl. f_equal. apply IH.
  - simpl. f_equal. apply IH.
Qed.

Lemma body_lines_no_header lines :
  Forall (fun l => header_of l = None) (body_lines lines).
Proof.
  induction lines as [|line rest IH]; simpl; [constructor|].
  destruct (header_of line) eqn:Hh; [constructor|]. by constructor.
Qed.

Lemma segments_blocks idx lines :
  Forall (fun t => exists line body,
            block t = line :: body
            /\ header_of line = Some (task_id t, title t)
            /\ Forall (fun l => header_of l = None) body)
         (segments idx lines).
Proof.
  revert idx. induction lines as [|line rest IH]; intros idx; simpl;
    [constructor|].
  destruct (header_of line) as [[tid ttl]|] eqn:Hh; [|apply IH].
  constructor; [|apply IH].
  exists line, (body_lines rest). simpl. split; [done|]. split; [done|].
  apply body_lines_no_header.
Qed.

Lemma segments_positions (pre lines : list string) :
  Forall (fun t => (pre ++ lines) !! (start_line t - 1) = head (block t))
         (segments (S (length pre)) lines).
Proof.
  revert pre. induction lines as [|line rest IH]; intros pre; simpl;
    [constructor|].
  assert (Forall (fun t => (pre ++ line :: rest) !! (start_line t - 1)
                           = head (block t))
            (segments (S (S (length pre))) rest)) as Hrest.
  { specialize (IH (pre ++ [line])).
    rewrite <- app_assoc, length_app in IH. simpl in IH.
    by rewrite Nat.add_1_r in IH. }
  destruct (header_of line) as [[tid ttl]|]; [|exact Hrest].
  constructor; [|exact Hrest]. simpl. rewrite Nat.sub_0_r.
  by rewrite list_lookup_middle.
Qed.

Lemma segments_sorted idx lines :
  Forall (fun t => idx <= start_line t) (segments idx lines)
  /\ increasing (map start_line (segments idx lines)).
Proof.
  revert idx. induction lines as [|line rest IH]; intros idx; simpl.
  - split; [constructor|done].
  - destruct (IH (S idx)) as [Hge Hsorted].
    assert (Forall (fun t => idx <= start_line t) (segments (S idx) rest))
      as Hge'.
    { eapply Forall_impl; [exact Hge|]. simpl. intros; lia. }
    destruct (header_of line) as [[tid ttl]|]; [|done].
    split; [by constructor|]. simpl. split; [|done].
    apply Forall_map. eapply Forall_impl; [exact Hge|]. simpl. intros; lia.
Qed.

(** [parse_tasks] cuts the text at its task headers: the index
    arithmetic of its two loops gives, for each header line, the task
    made of that line and the lines up to the next header.  So the lines
    before the first header followed by the blocks are the text; a block
    starts with its header, at line [start_line], and holds no other
    header; and the start lines increase. *)
Theorem parse_tasks_segments (plan_text : string) :
  let lines := splitlines plan_text in
  let tasks := parse_tasks plan_text in
  tasks = segments 1 lines
  /\ body_lines lines ++ List.concat (map block tasks) = lines
  /\ Forall (fun t => exists line body,
               block t = line :: body
               /\ lines !! (start_line t - 1) = Some line
               /\ header_of line = Some (task_id t, title t)
               /\ Forall (fun l => header_of l = None) body) tasks
  /\ increasing (map start_line tasks).
Proof.
  cbv zeta. unfold parse_tasks. cbv zeta.
  pose proof (blocks_segments [] (splitlines plan_text)) as Heq.
  simpl in Heq. rewrite Heq. split; [done|].
  split; [apply segments_concat|]. split; [|apply segments_sorted].
  pose proof (segments_blocks 1 (splitlines plan_text)) as Hb.
  pose proof (segments_positions [] (splitlines plan_text)) as Hp.
  simpl in Hp. revert Hb Hp.
  generalize (segments 1 (splitlines plan_text)) as tasks.
  intros tasks Hb Hp. rewrite Forall_forall in Hb, Hp. apply Forall_forall.
  intros t Ht. destruct (Hb t Ht) as (line & body & Hblock & Hh & Hbody).
  exists line, body. split; [done|]. split; [|done].
  rewrite (Hp t Ht), Hblock. done.
Qed.

(** *** Task numbers *)

Section Engine.
Context {R : Type}.
Variable fl : Re.flags.

(** A successful run hands its continuation a state whose groups extend
    the groups it started with, after consuming a prefix of the text. *)
Lemma run_sound (r : Re.re) : forall st (k : Re.mstate -> option R) res,
  Re.run fl r st k = Some res ->
  exists st' gs used,
    k st' = Some res /\ Re.groups st' = Re.groups st ++ gs
    /\ Re.rest st = used ++ Re.rest st'.
Proof.
  induction r as [| | |s|c|c|r IH|r IH|r1 IH1 r2 IH2]; intros st k res Hrun;
    cbn [Re.run] in Hrun.
  - exists st, [], []. by rewrite app_nil_r.
  - destruct (Re.at_bol fl st); [|done]. exists st, [], [].
    by rewrite app_nil_r.
  - destruct (Re.at_eol fl st); [|done]. exists st, [], [].
    by rewrite app_nil_r.
  - destruct (Re.eat fl _ _ _) as [[p s']|] eqn:Heat; [|done].
    apply eat_sound in Heat as (pre & Hpre & _).
    exists (Re.mkM p s' (Re.groups st)), [], pre. simpl.
    by rewrite app_nil_r.
  - apply rep_sound in Hrun as (ws & tl & p' & Hs & _ & Hk).
    exists (Re.mkM p' tl (Re.groups st)), [], ws. simpl.
    by rewrite app_nil_r.
  - destruct (Re.rest st) as [|a s'] eqn:Hrest; [done|].
    destruct (Re.in_class c a); [|done].
    apply rep_sound in Hrun as (ws & tl & p' & Hs & _ & Hk).
    exists (Re.mkM p' tl (Re.groups st)), [], (a :: ws). simpl.
    rewrite app_nil_r. by rewrite Hs.
  - destruct (Re.run fl r st k) as [x|] eqn:Hr.
    + injection Hrun as ->. by apply IH.
    + exists st, [], []. by rewrite app_nil_r.
  - apply IH in Hrun as (st' & gs & used & Hk & Hg & Hu).
    eexists _, (gs ++ [_]), used. split; [exact Hk|]. simpl.
    by rewrite Hg, app_assoc.
  - apply IH1 in Hrun as (st1 & gs1 & used1 & Hk1 & Hg1 & Hu1).
    apply IH2 in Hk1 as (st2 & gs2 & used2 & Hk2 & Hg2 & Hu2).
    exists st2, (gs1 ++ gs2), (used1 ++ used2). split; [done|].
    rewrite Hg2, Hg1, Hu1, Hu2. by rewrite !app_assoc.
Qed.

Lemma plus_digit_sound st (k : Re.mstate -> option R) res :
  Re.run fl (Re.Plus Re.Digit) st k = Some res ->
  exists d tl p,
    Re.rest st = d ++ tl /\ d <> [] /\ Forall (fun c => isdigit c = true) d
    /\ k (Re.mkM p tl (Re.groups st)) = Some res.
Proof.
  cbn [Re.run]. destruct (Re.rest st) as [|a s'] eqn:Hrest; [done|].
  destruct (Re.in_class Re.Digit a) eqn:Ha; [|done]. intros Hrun.
  apply rep_sound in Hrun as (ws & tl & p' & Hs & Hws & Hk).
  exists (a :: ws), tl, p'. rewrite Hs. split; [done|]. split; [done|].
  split; [by constructor|done].
Qed.

End Engine.

Lemma dot_exact fl (pre : chars) :
  Forall2 (fun a b => Re.char_eq fl a b = true)
          (String.list_ascii_of_string ".") pre ->
  pre = ["."%char].
Proof.
  intros H. inversion H as [|a b l l' Hab Hl]; subst.
  inversion Hl; subst. f_equal.
  unfold Re.char_eq in Hab. destruct (Re.ignorecase fl).
  - apply Ascii.eqb_eq in Hab. revert Hab.
    destruct b as [[] [] [] [] [] [] [] []]; vm_compute; congruence.
  - by apply Ascii.eqb_eq in Hab.
Qed.

(** What the group around a task number captures. *)
Lemma task_number_group {R} fl st (k : Re.mstate -> option R) res :
  Re.run fl (Re.Group Re.task_number) st k = Some res ->
  exists g tl p,
    Re.rest st = g ++ tl /\ dotted_decimal g
    /\ k (Re.mkM p tl (Re.groups st ++ [g])) = Some res.
Proof.
  unfold Re.task_number. cbn [Re.seq]. intros Hrun.
  set (K := fun st' : Re.mstate =>
         k (Re.mkM (Re.prev st') (Re.rest st')
              (Re.groups st'
               ++ [firstn (length (Re.rest st) - length (Re.rest st'))
                     (Re.rest st)]))).
  change (Re.run fl (Re.Plus Re.Digit) st
            (fun st1 =>
               match Re.run fl (Re.Seq (Re.Lit ".") (Re.Plus Re.Digit)) st1 K
               with
               | Some x => Some x
               | None => K st1
               end) = Some res) in Hrun.
  apply plus_digit_sound in Hrun
    as (d1 & tl1 & p1 & Hrest1 & Hne1 & Hd1 & Hk1).
  destruct (Re.run fl (Re.Seq (Re.Lit ".") (Re.Plus Re.Digit)) _ K)
    as [x|] eqn:Hfrac.
  - injection Hk1 as ->.
    change (Re.run fl (Re.Lit ".") (Re.mkM p1 tl1 (Re.groups st))
              (fun st2 => Re.run fl (Re.Plus Re.Digit) st2 K) = Some res)
      in Hfrac.
    cbn [Re.run] in Hfrac. cbn [Re.rest Re.prev Re.groups] in Hfrac.
    destruct (Re.eat fl _ p1 tl1) as [[p2 tl2]|] eqn:Heat; [|done].
    apply eat_sound in Heat as (pre & Hpre & Hdot).
    apply dot_exact in Hdot. subst pre.
    destruct tl2 as [|a tl2']; [done|].
    destruct (Re.in_class Re.Digit a) eqn:Ha; [|done].
    apply rep_sound in Hfrac as (ws & tl3 & p3 & Htl & Hws & Hk3).
    unfold K in Hk3. cbn [Re.rest Re.prev Re.groups] in Hk3.
    assert (Re.rest st = (d1 ++ "."%char :: a :: ws) ++ tl3) as Hrest.
    { rewrite Hrest1, Hpre, Htl. by rewrite <- app_assoc. }
    rewrite Hrest, firstn_consumed in Hk3.
    exists (d1 ++ "."%char :: a :: ws), tl3, p3. split; [done|].
    split; [|done].
    exists d1, ("."%char :: a :: ws). split; [done|]. split; [done|].
    split; [done|]. right. exists (a :: ws).
    split; [done|]. split; [done|]. by constructor.
  - unfold K in Hk1. cbn [Re.rest Re.prev Re.groups] in Hk1.
    rewrite Hrest1, firstn_consumed in Hk1.
    exists d1, tl1, p1. split; [done|]. split; [|done].
    exists d1, []. rewrite app_nil_r. split; [done|]. split; [done|].
    split; [done|]. by left.
Qed.

Lemma lit_sound {R} fl lit st (k : Re.mstate -> option R) res :
  Re.run fl (Re.Lit lit) st k = Some res ->
  exists p s', k (Re.mkM p s' (Re.groups st)) = Some res.
Proof.
  cbn [Re.run]. destruct (Re.eat fl _ _ _) as [[p s']|]; [eauto|done].
Qed.

Lemma plus_sound {R} fl c st (k : Re.mstate -> option R) res :
  Re.run fl (Re.Plus c) st k = Some res ->
  exists p s', k (Re.mkM p s' (Re.groups st)) = Some res.
Proof.
  cbn [Re.run]. destruct (Re.rest st) as [|a s']; [done|].
  destruct (Re.in_class c a); [|done]. intros Hrun.
  apply rep_sound in Hrun as (ws & tl & p' & _ & _ & Hk). eauto.
Qed.

Lemma bol_sound {R} fl st (k : Re.mstate -> option R) res :
  Re.run fl Re.Bol st k = Some res -> k st = Some res.
Proof. cbn [Re.run]. by destruct (Re.at_bol fl st). Qed.

Lemma task_ref_group p s m :
  Re.run Re.IGNORECASE Re.TASK_REF_RE (Re.mkM p s []) Some = Some m ->
  dotted_decimal (Re.group 1 m).
Proof.
  unfold Re.TASK_REF_RE. cbn [Re.seq]. intros Hrun.
  change (Re.run Re.IGNORECASE (Re.Lit "Task") (Re.mkM p s [])
            (fun st1 => Re.run Re.IGNORECASE (Re.Plus Re.Space) st1
               (fun st2 => Re.run Re.IGNORECASE (Re.Group Re.task_number)
                             st2 (@Some Re.mstate))) = Some m) in Hrun.
  apply lit_sound in Hrun as (p1 & s1 & Hrun).
  apply plus_sound in Hrun as (p2 & s2 & Hrun).
  apply task_number_group in Hrun as (g & tl & p3 & _ & Hdd & Hm).
  by injection Hm as <-.
Qed.

Lemma task_header_group s m :
  Re.match_ Re.no_flags Re.TASK_HEADER_RE s = Some m ->
  dotted_decimal (Re.group 1 m).
Proof.
  unfold Re.match_, Re.TASK_HEADER_RE. cbn [Re.seq]. intros Hrun.
  change (Re.run Re.no_flags Re.Bol (Re.mkM None s [])
            (fun st0 => Re.run Re.no_flags (Re.Lit "###") st0
            (fun st1 => Re.run Re.no_flags (Re.Plus Re.Space) st1
            (fun st2 => Re.run Re.no_flags (Re.Lit "Task") st2
            (fun st3 => Re.run Re.no_flags (Re.Plus Re.Space) st3
            (fun st4 => Re.run Re.no_flags (Re.Group Re.task_number) st4
            (fun st5 => Re.run Re.no_flags
                          (Re.seq [Re.Lit ":"; Re.Plus Re.Space;
                                   Re.Group (Re.Plus Re.Dot); Re.Eol])
                          st5 (@Some Re.mstate))))))) = Some m) in Hrun.
  apply bol_sound in Hrun.
  apply lit_sound in Hrun as (p1 & s1 & Hrun).
  apply plus_sound in Hrun as (p2 & s2 & Hrun).
  apply lit_sound in Hrun as (p3 & s3 & Hrun).
  apply plus_sound in Hrun as (p4 & s4 & Hrun).
  apply task_number_group in Hrun as (g & tl & p5 & _ & Hdd & Hrun).
  apply run_sound in Hrun as (st'' & gs & used & Hm & Hg' & _).
  injection Hm as <-. unfold Re.group. by rewrite Hg'.
Qed.

Lemma findall_task_refs s : forall skip p,
  Forall dotted_decimal (Re.findall_from Re.IGNORECASE Re.TASK_REF_RE skip p s).
Proof.
  induction s as [|a s IH]; intros skip p.
  - destruct skip as [|n]; cbn [Re.findall_from]; [|constructor].
    destruct (Re.run Re.IGNORECASE Re.TASK_REF_RE (Re.mkM p [] []) Some)
      as [m|] eqn:Hrun; [|constructor].
    constructor; [|constructor]. by eapply task_ref_group.
  - destruct skip as [|n]; cbn [Re.findall_from]; [|apply IH].
    destruct (Re.run Re.IGNORECASE Re.TASK_REF_RE (Re.mkM p (a :: s) []) Some)
      as [m|] eqn:Hrun; [|apply IH].
    constructor; [by eapply task_ref_group|apply IH].
Qed.

(** Task numbers have one shape wherever the validator reads them: the
    references that [parse_depends] returns and the ids of the tasks that
    [parse_tasks] returns are digits, or digits, a dot and digits. *)
Theorem task_numbers_dotted_decimal :
  (forall raw_value,
      Forall (fun dep => dotted_decimal (String.list_ascii_of_string dep))
             (parse_depends raw_value))
  /\ (forall plan_text,
        Forall (fun t => dotted_decimal (String.list_ascii_of_string (task_id t)))
               (parse_tasks plan_text)).
Proof.
  split.
  - intros raw. unfold parse_depends. cbv zeta.
    destruct (_ || _); [constructor|].
    unfold Re.findall. apply Forall_map.
    eapply Forall_impl; [apply findall_task_refs|].
    intros g Hg. simpl. by rewrite String.list_ascii_of_string_of_list_ascii.
  - intros text. unfold parse_tasks. cbv zeta.
    pose proof (blocks_segments [] (splitlines text)) as Heq.
    simpl in Heq. rewrite Heq.
    eapply Forall_impl; [apply (segments_blocks 1)|].
    intros t (line & body & _ & Hh & _). simpl. unfold header_of in Hh.
    destruct (Re.match_ _ _ _) as [m|] eqn:Hm; [|done].
    injection Hh as <- _.
    rewrite String.list_ascii_of_string_of_list_ascii.
    by eapply task_header_group.
Qed.

End ParseFacts.

(** ** The skills validator and the command line *)

Module CliFacts.
Import Text Issues IssueSpec MoreSpec IssueFacts Cli.

Lemma check_skill_errors e entry :
  adds is_error (fun r => check_skill e r entry).
Proof.
  destruct entry as [rel_path required]. unfold check_skill. cbv zeta.
  destruct (e_skill_file e (e_skill_path e rel_path)) as [| | |text];
    cbn [read_text]; adds_solve; reflexivity.
Qed.

(** [check_skills] returns the report named [skills], and all its
    findings are ERRORs: a skill file that cannot be read gives one ERROR
    and none for its markers, a file that can be read one ERROR for each
    required marker that it lacks. *)
Theorem check_skills_errors_only (e : env) :
  name (check_skills e) = "skills"
  /\ Forall (fun f => f_severity f = ERROR) (findings (check_skills e))
  /\ ReportOps.warnings (check_skills e) = 0
  /\ (forall rel_path required report,
        (forall text, e_skill_file e (e_skill_path e rel_path) <> Content text) ->
        exists message,
          check_skill e report (rel_path, required)
          = app_report report
              [mkFinding ERROR message (e_skill_path e rel_path)])
  /\ (forall rel_path required report text,
        e_skill_file e (e_skill_path e rel_path) = Content text ->
        findings (check_skill e report (rel_path, required))
        = findings report
          ++ map (fun marker =>
                    mkFinding ERROR
                      ("Missing workflow contract marker `" +:+ marker +:+ "`")
                      (e_skill_path e rel_path))
               (List.filter
                  (fun marker =>
                     negb (Plan.mem marker
                             (map (fun g => lower (strip g))
                                (e_markers e text))))
                  (map lower required))).
Proof.
  destruct (adds_fold is_error (check_skill e) SKILL_CONTRACTS
              (check_skill_errors e) (ReportOps.new "skills"))
    as (added & Heq & Hall).
  unfold check_skills. rewrite Heq. split; [done|]. split; [done|].
  split; [by apply PlanFacts.count_errors_all|]. split.
  - intros rel_path required report Hno. unfold check_skill.
    destruct (e_skill_file e (e_skill_path e rel_path)) as [| | |text] eqn:Hf;
      cbn [read_text]; try (eexists; unfold ReportOps.error;
                            by rewrite add_app_report).
    by destruct (Hno text).
  - intros rel_path required report text Hf. unfold check_skill. rewrite Hf.
    cbn [read_text]. cbv zeta.
    generalize (map lower required) as l. intros l. revert report.
    induction l as [|m l IH]; intros report; simpl.
    + by rewrite app_nil_r.
    + rewrite IH. destruct (negb _); simpl; [|done].
      by rewrite <- app_assoc.
Qed.

Lemma check_skills_nw e : Forall not_warn (findings (check_skills e)).
Proof.
  destruct (adds_fold is_error (check_skill e) SKILL_CONTRACTS
              (check_skill_errors e) (ReportOps.new "skills"))
    as (added & Heq & Hall).
  unfold check_skills. rewrite Heq. simpl.
  by apply IssuesMore.is_error_not_warn.
Qed.

Lemma resolve_plan_report_nw e plan_arg required :
  exists r, resolve_plan_report e plan_arg required = Ok r
            /\ Forall not_warn (findings r).
Proof.
  unfold resolve_plan_report.
  destruct plan_arg as [p|]; [|destruct (e_latest_plan e) as [c|]].
  - destruct (PlanFacts.check_plan_errors (e_set_iter e)
                (e_plan_file e (e_resolve_under e p)) (e_resolve_under e p))
      as (r & -> & _ & Hall).
    exists r. split; [done|]. by apply IssuesMore.is_error_not_warn.
  - destruct (PlanFacts.check_plan_errors (e_set_iter e) (e_plan_file e c) c)
      as (r & -> & _ & Hall).
    exists r. split; [done|]. by apply IssuesMore.is_error_not_warn.
  - eexists. split; [done|]. destruct required; by repeat constructor.
Qed.

Lemma resolve_issues_report_nw e issues_arg required :
  match resolve_issues_report e issues_arg required with
  | Ok r => Forall not_warn (findings r)
  | Raise _ => True
  | Timeout => False
  end.
Proof.
  unfold resolve_issues_report.
  destruct issues_arg as [p|]; [|destruct (e_latest_issues e) as [c|]].
  - pose proof (IssuesMore.check_issues_nw (e_world e)
                  (e_issues_file e (e_resolve_under e p)) (e_resolve_under e p))
      as Hnw.
    destruct (check_issues _ _ _); [|done|done]. by destruct Hnw.
  - pose proof (IssuesMore.check_issues_nw (e_world e) (e_issues_file e c) c)
      as Hnw.
    destruct (check_issues _ _ _); [|done|done]. by destruct Hnw.
  - destruct required; by repeat constructor.
Qed.

Lemma collect_reports_nw e a :
  match collect_reports e a with
  | Ok reports => Forall (fun r => Forall not_warn (findings r)) reports
  | Raise _ => True
  | Timeout => False
  end.
Proof.
  unfold collect_reports. destruct (a_mode a).
  - repeat constructor. apply check_skills_nw.
  - destruct (resolve_plan_report_nw e (a_plan a) true) as (r & -> & Hr).
    simpl. by repeat constructor.
  - pose proof (resolve_issues_report_nw e (a_issues a) true) as Hi.
    destruct (resolve_issues_report _ _ _); simpl; [|done|done].
    by repeat constructor.
  - destruct (resolve_plan_report_nw e (a_plan a) (require_plan a))
      as (r & -> & Hr).
    pose proof (resolve_issues_report_nw e (a_issues a) (require_issues a))
      as Hi.
    cbn [bind].
    destruct (resolve_issues_report _ _ _); simpl; [|done|done].
    apply Forall_app. split; [|by repeat constructor].
    destruct (include_skills a); repeat constructor. apply check_skills_nw.
Qed.

(** The counts of [print_reports], as sums over the reports. *)
Lemma print_reports_fold reports : forall out e w,
  fold_left (fun '(out, error_count, warning_count) report =>
      (out ++ report_prints report,
       error_count + ReportOps.errors report,
       warning_count + ReportOps.warnings report))
    reports (out, e, w)
  = (out ++ List.concat (map report_prints reports),
     e + ReportOps.count_severity ERROR (List.concat (map findings reports)),
     w + ReportOps.count_severity WARN (List.concat (map findings reports))).
Proof.
  induction reports as [|r reports IH]; intros out e w.
  - simpl. unfold ReportOps.count_severity. simpl.
    by rewrite app_nil_r, !Nat.add_0_r.
  - cbn [fold_left map List.concat]. rewrite IH.
    unfold ReportOps.errors, ReportOps.warnings.
    rewrite !ReportFacts.count_severity_app, <- app_assoc.
    f_equal; [f_equal|]; lia.
Qed.

Lemma print_reports_warnings reports :
  Forall (fun r => Forall not_warn (findings r)) reports ->
  snd (snd (print_reports reports)) = 0.
Proof.
  intros Hall. unfold print_reports. rewrite print_reports_fold. simpl.
  apply IssuesMore.count_warnings_none.
  induction Hall as [|r reports Hr _ IH]; simpl; [constructor|].
  by apply Forall_app.
Qed.

Lemma decide_exit_code_no_warnings errors fail_on :
  decide_exit_code errors 0 fail_on
  = if String.eqb fail_on "never" then 0 else if 0 <? errors then 1 else 0.
Proof.
  unfold decide_exit_code. destruct (String.eqb fail_on "never"); [done|].
  destruct (0 <? errors); [done|]. simpl. by rewrite andb_false_r.
Qed.

(** No checker adds a WARN finding, so the count of warnings that [run]
    hands to [decide_exit_code] is always 0.  The exit code of [run] is
    therefore 0 or 1 and never 2: it is 0 under [--fail-on never] (without
    [--strict-warnings]) and otherwise 1 exactly when some report holds an
    ERROR, so that [--strict-warnings] and [--fail-on warning] act as
    [--fail-on error].  [run] raises only when the issues validator does,
    and [main] then returns 3. *)
Theorem exit_code_never_two (e : env) (a : args) :
  match run e a with
  | Ok (out, code) =>
      exists reports,
        collect_reports e a = Ok reports
        /\ out = fst (print_reports reports)
        /\ code = (if negb (strict_warnings a) && String.eqb (fail_on a) "never"
                   then 0
                   else if 0 <? fst (snd (print_reports reports)) then 1
                        else 0)
        /\ code <> 2
        /\ main e a = Ok (out, code)
  | Raise exc =>
      collect_reports e a = Raise exc
      /\ main e a
         = Ok (["== runtime ==";
                "ERROR: unexpected checker failure: " +:+ exn_str exc], 3)
  | Timeout => False
  end.
Proof.
  unfold main, run. cbv zeta.
  pose proof (collect_reports_nw e a) as Hnw.
  destruct (collect_reports e a) as [reports|exc|]; cbn [bind]; [|done|done].
  pose proof (print_reports_warnings reports Hnw) as Hw.
  destruct (print_reports reports) as [out [errors warnings]] eqn:Hpr.
  simpl in Hw. subst warnings. exists reports. rewrite Hpr. split; [done|].
  split; [done|]. rewrite decide_exit_code_no_warnings. cbn [fst snd].
  assert ((if String.eqb (if strict_warnings a then "warning" else fail_on a)
                "never"
           then 0 else if 0 <? errors then 1 else 0)
          = (if negb (strict_warnings a) && String.eqb (fail_on a) "never"
             then 0 else if 0 <? errors then 1 else 0)) as ->.
  { by destruct (strict_warnings a). }
  split; [done|]. split; [|done].
  destruct (_ && _); [done|]. by destruct (0 <? errors).
Qed.

End CliFacts.

(** ** Lines: the rows of a snapshot, the blocks of a plan, the output *)

Module LineFacts.
Import Text Issues Plan IssueSpec FieldSpec MoreSpec IssueFacts Cli.

Lemma parse_rows_enumerated path lines : forall idx report,
  exists added,
    parse_rows idx lines report path
    = (app_report report added, omap parsed_row (enumerate idx lines))
    /\ Forall is_error added
    /\ map f_location added = omap (rejected_at path) (enumerate idx lines).
Proof.
  unfold enumerate.
  induction lines as [|line lines IH]; intros idx report.
  - simpl. exists []. by rewrite app_report_nil.
  - cbn [parse_rows length seq zip zip_with omap].
    destruct line as [|msg|[| | | | | |d]]; cbn [parse_json_line];
      try (match goal with
           | |- context [parse_rows (S idx) lines (ReportOps.error report ?m ?l)] =>
               destruct (IH (S idx) (ReportOps.error report m l))
                 as (a & -> & Ha & Hloc);
               exists (mkFinding ERROR m l :: a);
               unfold ReportOps.error;
               rewrite add_app_report, app_report_app;
               split; [reflexivity|]; split; [by constructor|];
               simpl; by rewrite Hloc
           end).
    destruct (IH (S idx) report) as (a & -> & Ha & Hloc).
    exists a. split; [reflexivity|]. split; [done|]. exact Hloc.
Qed.

Lemma enumerate_rows_increasing (lines : list jsonl_line) : forall idx,
  Forall (fun row => idx <= fst row) (omap parsed_row (enumerate idx lines))
  /\ increasing (map fst (omap parsed_row (enumerate idx lines))).
Proof.
  unfold enumerate. induction lines as [|line lines IH]; intros idx.
  - split; [constructor|done].
  - destruct (IH (S idx)) as [Hge Hinc].
    assert (Forall (fun row : nat * dict => idx <= fst row)
              (omap parsed_row (zip (seq (S idx) (length lines)) lines)))
      as Hge'.
    { eapply Forall_impl; [exact Hge|]. simpl. intros; lia. }
    cbn [length seq zip zip_with omap list_omap].
    destruct (parsed_row (idx, line)) as [[n d]|] eqn:Hrow; [|by split].
    assert (n = idx) as ->.
    { destruct line as [|msg|[| | | | | |d']]; simpl in Hrow; congruence. }
    split; [by constructor|]. simpl. split; [|done].
    apply Forall_map. eapply Forall_impl; [exact Hge|]. simpl. intros; lia.
Qed.

Lemma omap_partition_length path (l : list (nat * jsonl_line)) :
  length (omap (rejected_at path) l) + length (omap parsed_row l) = length l.
Proof.
  induction l as [|[n line] l IH]; [done|].
  destruct line as [|msg|[| | | | | |d]];
    cbn [omap list_omap rejected_at parsed_row is_dict_line snd fst length];
    fold (omap (rejected_at path) l); fold (omap parsed_row l); lia.
Qed.

(** The loop over the lines of a snapshot (with [parse_json_line]): each
    line gives a row, numbered as [enumerate] numbers it, when it is a
    JSON object and one ERROR at its line number otherwise; the rows keep
    the order of the lines, so their numbers increase. *)
Theorem parse_rows_exact (idx : nat) (lines : list jsonl_line)
    (report : Report) (path : string) :
  exists added,
    parse_rows idx lines report path
    = (app_report report added, omap parsed_row (enumerate idx lines))
    /\ Forall (fun f => f_severity f = ERROR) added
    /\ map f_location added = omap (rejected_at path) (enumerate idx lines)
    /\ length added + length (snd (parse_rows idx lines report path))
       = length lines
    /\ map snd (snd (parse_rows idx lines report path)) = dict_lines lines
    /\ increasing (map fst (snd (parse_rows idx lines report path))).
Proof.
  destruct (parse_rows_enumerated path lines idx report)
    as (added & Heq & Herr & Hloc).
  exists added. rewrite Heq. cbn [snd]. split; [done|]. split; [done|].
  split; [done|]. split; [|split].
  - rewrite <- (length_map f_location), Hloc, omap_partition_length.
    unfold enumerate. rewrite length_zip_with_l_eq; by rewrite length_seq.
  - destruct (IssuesMore.parse_rows_spec path lines idx report)
      as (a & _ & _ & Hd).
    by rewrite Heq in Hd.
  - apply enumerate_rows_increasing.
Qed.

(** *** The lines of a plan *)

Lemma splitlines_from_no_break (n : nat) : forall s cur,
  length s <= n ->
  Forall (fun c => is_linebreak c = false) cur ->
  Forall (Forall (fun c => is_linebreak c = false)) (splitlines_from cur s).
Proof.
  induction n as [|n IH]; intros s cur Hlen Hcur.
  - destruct s; [|simpl in Hlen; lia]. simpl.
    destruct cur; [constructor|].
    constructor; [|constructor]. by apply Forall_rev.
  - destruct s as [|c s']; simpl.
    + destruct cur; [constructor|].
      constructor; [|constructor]. by apply Forall_rev.
    + simpl in Hlen. destruct (is_linebreak c) eqn:Hc.
      * destruct s' as [|d s''].
        -- constructor; [by apply Forall_rev|constructor].
        -- simpl in Hlen.
           destruct (Ascii.eqb c CR && Ascii.eqb d LF).
           ++ constructor; [by apply Forall_rev|].
              apply IH; [lia|constructor].
           ++ constructor; [by apply Forall_rev|].
              apply IH; [simpl; lia|constructor].
      * apply IH; [lia|]. by constructor.
Qed.

Lemma splitlines_one_line (s : string) :
  Forall (fun line => one_line (String.list_ascii_of_string line))
         (splitlines s).
Proof.
  unfold splitlines. apply Forall_map.
  eapply Forall_impl.
  - apply (splitlines_from_no_break (length (String.list_ascii_of_string s)));
      [lia|constructor].
  - intros line Hline. simpl.
    rewrite String.list_ascii_of_string_of_list_ascii.
    unfold one_line. intros Hin.
    rewrite Forall_forall in Hline. by specialize (Hline LF Hin).
Qed.

(** Every block that [parse_tasks] hands to [extract_field] is made of
    lines of the text, none of which holds a line break: the assumption
    under which the contract of [extract_field] was shown holds wherever the
    plan validator calls it. *)
Theorem task_blocks_one_line (plan_text : string) :
  Forall (fun t =>
            Forall (fun line => In line (splitlines plan_text)
                                /\ one_line (String.list_ascii_of_string line))
                   (block t))
         (parse_tasks plan_text).
Proof.
  unfold parse_tasks. cbv zeta.
  pose proof (ParseFacts.blocks_segments [] (splitlines plan_text)) as Heq.
  simpl in Heq. rewrite Heq.
  pose proof (ParseFacts.segments_concat 1 (splitlines plan_text)) as Hcat.
  pose proof (splitlines_one_line plan_text) as Hone.
  rewrite Forall_forall in Hone.
  apply Forall_forall. intros t Ht. apply Forall_forall. intros line Hline.
  assert (In line (splitlines plan_text)) as Hin.
  { rewrite <- Hcat. apply in_or_app. right. apply in_concat.
    exists (block t). split; [|by apply list_elem_of_In].
    apply in_map. by apply list_elem_of_In. }
  split; [done|]. apply Hone. by apply list_elem_of_In.
Qed.

(** *** The printed summary *)

Lemma finding_text_prefix f sev :
  startswith (severity_str sev +:+ ": ") (finding_text f)
  = severity_eqb (f_severity f) sev.
Proof.
  unfold finding_text. cbv zeta.
  destruct (f_severity f), sev; reflexivity.
Qed.

Lemma report_prints_count sev r :
  length (List.filter (startswith (severity_str sev +:+ ": ")) (report_prints r))
  = ReportOps.count_severity sev (findings r).
Proof.
  unfold report_prints.
  assert (forall l,
            length (List.filter (startswith (severity_str sev +:+ ": "))
                      (map finding_text l ++ [""]))
            = ReportOps.count_severity sev l) as Hmap.
  { induction l as [|f l IH]; [by destruct sev|].
    cbn [map app List.filter ReportOps.count_severity].
    rewrite finding_text_prefix.
    destruct (severity_eqb (f_severity f) sev); simpl; by rewrite IH. }
  cbn [List.filter].
  replace (startswith (severity_str sev +:+ ": ") ("== " +:+ name r +:+ " =="))
    with false by (by destruct sev).
  destruct (findings r) as [|f l] eqn:Hf.
  - by destruct sev.
  - apply Hmap.
Qed.

Lemma chars_append (a b : string) :
  String.list_ascii_of_string (a +:+ b)
  = String.list_ascii_of_string a ++ String.list_ascii_of_string b.
Proof. induction a as [|c a IH]; [done|]. simpl. by rewrite IH. Qed.

Lemma no_linefeed_append (a b : string) :
  no_linefeed a -> no_linefeed b -> no_linefeed (a +:+ b).
Proof.
  unfold no_linefeed, one_line. rewrite chars_append, elem_of_app. tauto.
Qed.

Lemma no_linefeed_uint (d : Decimal.uint) :
  no_linefeed (NilEmpty.string_of_uint d).
Proof.
  unfold no_linefeed, one_line.
  induction d as [|d IH|d IH|d IH|d IH|d IH|d IH|d IH|d IH|d IH|d IH]; simpl;
    [apply not_elem_of_nil|..];
    (apply not_elem_of_cons; split; [done|exact IH]).
Qed.

Lemma no_linefeed_str_of_nat (n : nat) : no_linefeed (str_of_nat n).
Proof.
  unfold str_of_nat, str_of_Z, NilZero.string_of_int.
  destruct (Z.to_int (Z.of_nat n)) as [d|d].
  - unfold NilZero.string_of_uint.
    destruct d; try apply no_linefeed_uint.
    unfold no_linefeed, one_line. simpl.
    apply not_elem_of_cons. split; [done|apply not_elem_of_nil].
  - unfold no_linefeed, one_line. cbn [String.list_ascii_of_string].
    apply not_elem_of_cons. split; [done|].
    unfold NilZero.string_of_uint.
    destruct d; try apply no_linefeed_uint.
    simpl. apply not_elem_of_cons. split; [done|apply not_elem_of_nil].
Qed.

Lemma no_linefeed_literal (s : string) :
  forallb (fun c => negb (Ascii.eqb c LF)) (String.list_ascii_of_string s)
  = true ->
  no_linefeed s.
Proof.
  unfold no_linefeed, one_line. intros Hall Hin.
  rewrite forallb_forall in Hall.
  specialize (Hall LF (proj1 (list_elem_of_In _ _) Hin)).
  by rewrite Ascii.eqb_refl in Hall.
Qed.

Lemma finding_text_one_line f :
  no_linefeed (f_message f) -> no_linefeed (f_location f) ->
  no_linefeed (finding_text f).
Proof.
  intros Hm Hl. unfold finding_text. cbv zeta.
  repeat apply no_linefeed_append; try done.
  - destruct (f_severity f); by apply no_linefeed_literal.
  - by apply no_linefeed_literal.
  - destruct (nonempty (f_location f)); [|by apply no_linefeed_literal].
    repeat apply no_linefeed_append; try done; by apply no_linefeed_literal.
Qed.

Lemma report_prints_one_line r :
  no_linefeed (name r) ->
  Forall (fun f => no_linefeed (f_message f) /\ no_linefeed (f_location f))
         (findings r) ->
  Forall no_linefeed (report_prints r).
Proof.
  intros Hn Hf. unfold report_prints. constructor.
  - repeat apply no_linefeed_append; try done; by apply no_linefeed_literal.
  - apply Forall_app. split; [|by repeat constructor; apply no_linefeed_literal].
    destruct (findings r) as [|f l] eqn:Hfs.
    + repeat constructor. by apply no_linefeed_literal.
    + apply Forall_map. eapply Forall_impl; [exact Hf|].
      intros x [Hm Hl]. by apply finding_text_one_line.
Qed.

(** [print_reports] returns the numbers of ERROR and of WARN findings of
    all the reports, and as many of its calls of [print] have a text that
    starts with [ERROR: ] and with [WARN: ] as it counts; its last call
    prints the summary.  When no report name, message or location holds a
    line feed, no text holds one, so each call prints one line and these
    are the printed lines; a message with a line feed prints further lines
    that no count includes. *)
Theorem print_reports_counts (reports : list Report) :
  let '(out, (error_count, warning_count)) := print_reports reports in
  error_count
  = ReportOps.count_severity ERROR (List.concat (map findings reports))
  /\ warning_count
     = ReportOps.count_severity WARN (List.concat (map findings reports))
  /\ length (List.filter (startswith "ERROR: ") out) = error_count
  /\ length (List.filter (startswith "WARN: ") out) = warning_count
  /\ last out
     = Some ("errors=" +:+ str_of_nat error_count
             +:+ " warnings=" +:+ str_of_nat warning_count)
  /\ (Forall (fun r =>
                no_linefeed (name r)
                /\ Forall (fun f => no_linefeed (f_message f)
                                    /\ no_linefeed (f_location f))
                          (findings r)) reports ->
      Forall no_linefeed out).
Proof.
  unfold print_reports. rewrite CliFacts.print_reports_fold. simpl.
  split; [done|]. split; [done|].
  assert (forall sev,
            length (List.filter (startswith (severity_str sev +:+ ": "))
                      (List.concat (map report_prints reports)))
            = ReportOps.count_severity sev
                (List.concat (map findings reports))) as Hcount.
  { intros sev. induction reports as [|r reports IH]; [done|].
    cbn [map List.concat].
    rewrite List.filter_app, length_app, report_prints_count, IH.
    by rewrite ReportFacts.count_severity_app. }
  pose proof (Hcount ERROR) as HE. pose proof (Hcount WARN) as HW.
  change (severity_str ERROR +:+ ": ") with "ERROR: " in HE.
  change (severity_str WARN +:+ ": ") with "WARN: " in HW.
  split; [|split; [|split]].
  - rewrite List.filter_app, length_app, HE. simpl. lia.
  - rewrite List.filter_app, length_app, HW. simpl. lia.
  - by rewrite last_app.
  - intros Hall. clear Hcount HE HW. apply Forall_app. split.
    + induction Hall as [|r l [Hn Hf] _ IH]; [constructor|].
      cbn [map List.concat]. apply Forall_app. split; [|exact IH].
      by apply report_prints_one_line.
    + constructor; [by apply no_linefeed_literal|].
      constructor; [|constructor].
      repeat apply no_linefeed_append;
        try apply no_linefeed_str_of_nat; by apply no_linefeed_literal.
Qed.

End LineFacts.

(** ** The format of a reference *)

Module RefFacts.
Import Text Issues FieldSpec MoreSpec FieldFacts.

Section Backtracking.
Context {R : Type}.
Variable fl : Re.flags.

(** A repetition fails when its continuation rejects every position. *)
Lemma rep_fail c : forall s p (k : option ascii -> chars -> option R),
  (forall p' t, t `suffix_of` s -> k p' t = None) ->
  Re.rep c p s k = None.
Proof.
  induction s as [|a s IH]; intros p k Hk; simpl.
  - by apply Hk.
  - assert (k p (a :: s) = None) as Hhere by (by apply Hk).
    destruct (Re.in_class c a); [|done].
    rewrite IH; [done|]. intros p' t Ht. apply Hk. by apply suffix_cons_r.
Qed.

(** Giving back: the repetition ends where the continuation first
    accepts, coming from the right. *)
Lemma rep_backoff c ws :
  forall p rem (k : option ascii -> chars -> option R),
    Forall (fun a => Re.in_class c a = true) ws ->
    (forall p' t, t `suffix_of` rem -> t <> rem -> k p' t = None) ->
    (forall p', exists r, k p' rem = Some r) ->
    exists p', Re.rep c p (ws ++ rem) k = k p' rem.
Proof.
  induction ws as [|a ws IH]; intros p rem k Hws Hfail Hok.
  - exists p. destruct rem as [|b rem]; [done|]. simpl.
    destruct (Re.in_class c b); [|done].
    rewrite rep_fail; [done|]. intros p' t Ht. apply Hfail.
    + by apply suffix_cons_r.
    + intros ->. apply suffix_length in Ht. simpl in Ht. lia.
  - inversion Hws as [|? ? Ha Hws']; subst. simpl. rewrite Ha.
    destruct (IH (Some a) rem k Hws' Hfail Hok) as (p' & ->).
    exists p'. by destruct (Hok p') as (r & ->).
Qed.

Lemma group_plus_sound c st (k : Re.mstate -> option R) res :
  Re.run fl (Re.Group (Re.Plus c)) st k = Some res ->
  exists g tl p,
    Re.rest st = g ++ tl /\ g <> []
    /\ Forall (fun a => Re.in_class c a = true) g
    /\ k (Re.mkM p tl (Re.groups st ++ [g])) = Some res.
Proof.
  cbn [Re.run]. destruct (Re.rest st) as [|a s'] eqn:Hrest; [done|].
  destruct (Re.in_class c a) eqn:Ha; [|done]. intros Hrun.
  apply rep_sound in Hrun as (ws & tl & p' & -> & Hws & Hk).
  cbn [Re.rest Re.prev Re.groups] in Hk.
  exists (a :: ws), tl, p'. split; [done|]. split; [done|].
  split; [by constructor|].
  change (a :: ws ++ tl) with ((a :: ws) ++ tl) in Hk.
  by rewrite firstn_consumed in Hk.
Qed.

Lemma group_plus_complete c g tl p G (k : Re.mstate -> option R) :
  g <> [] -> Forall (fun a => Re.in_class c a = true) g -> stops c tl ->
  (forall p', exists r, k (Re.mkM p' tl (G ++ [g])) = Some r) ->
  exists p',
    Re.run fl (Re.Group (Re.Plus c)) (Re.mkM p (g ++ tl) G) k
    = k (Re.mkM p' tl (G ++ [g])).
Proof.
  intros Hne Hg Hstop Hk. destruct g as [|a ws]; [done|].
  inversion Hg as [|? ? Ha Hws]; subst.
  cbn [Re.run Re.rest Re.prev Re.groups app]. rewrite Ha.
  destruct (rep_greedy c ws tl (Some a)
              (fun p0 s'0 =>
                 k (Re.mkM p0 s'0
                      (G ++ [firstn (length (a :: ws ++ tl) - length s'0)
                               (a :: ws ++ tl)]))) Hws Hstop)
    as (p' & Hrep).
  - intros p'. change (a :: ws ++ tl) with ((a :: ws) ++ tl).
    rewrite firstn_consumed. apply Hk.
  - exists p'. cbn [Re.rest Re.prev Re.groups]. rewrite Hrep.
    change (a :: ws ++ tl) with ((a :: ws) ++ tl).
    by rewrite firstn_consumed.
Qed.

End Backtracking.

Lemma eat_exact lit : forall p s p' s',
  Re.eat Re.no_flags lit p s = Some (p', s') -> s = lit ++ s'.
Proof.
  intros p s p' s' Heat. apply eat_sound in Heat as (pre & -> & Hpre).
  f_equal. induction Hpre as [|a b l l' Hab _ IH]; [done|].
  unfold Re.char_eq in Hab. simpl in Hab. apply Ascii.eqb_eq in Hab.
  by subst.
Qed.

Lemma eat_same lit : forall p s,
  exists p', Re.eat Re.no_flags lit p (lit ++ s) = Some (p', s).
Proof.
  induction lit as [|a lit IH]; intros p s; simpl; [eauto|].
  unfold Re.char_eq. simpl. rewrite Ascii.eqb_refl. apply IH.
Qed.

(** The parts of [REF_RE] after the first group. *)
Lemma ref_tail_sound p tl1 G m :
  Re.run Re.no_flags
    (Re.seq [Re.Lit ":"; Re.Group (Re.Plus Re.Digit);
             Re.Opt (Re.seq [Re.Lit "-"; Re.Group (Re.Plus Re.Digit)]);
             Re.Eol]) (Re.mkM p tl1 G) Some = Some m ->
  exists n range nl gs,
    tl1 = ":"%char :: n ++ range ++ nl /\ digits n
    /\ (range = [] \/ exists d, range = "-"%char :: d /\ digits d)
    /\ (nl = [] \/ nl = [LF])
    /\ Re.groups m = G ++ gs.
Proof.
  cbn [Re.seq]. intros Hrun.
  change (Re.run Re.no_flags (Re.Lit ":") (Re.mkM p tl1 G)
            (fun st1 => Re.run Re.no_flags (Re.Group (Re.Plus Re.Digit)) st1
               (fun st2 =>
                  Re.run Re.no_flags
                    (Re.Opt (Re.Seq (Re.Lit "-")
                               (Re.Group (Re.Plus Re.Digit)))) st2
                    (fun st3 => Re.run Re.no_flags Re.Eol st3 (@Some Re.mstate))))
          = Some m) in Hrun.
  cbn [Re.run] in Hrun. cbn [Re.rest Re.prev Re.groups] in Hrun.
  destruct (Re.eat Re.no_flags _ p tl1) as [[p1 tl2]|] eqn:Hcolon; [|done].
  apply eat_exact in Hcolon. simpl in Hcolon. subst tl1.
  change (Re.run Re.no_flags (Re.Group (Re.Plus Re.Digit)) (Re.mkM p1 tl2 G)
            (fun st2 =>
               match
                 Re.run Re.no_flags (Re.Lit "-") st2
                   (fun st' =>
                      Re.run Re.no_flags (Re.Group (Re.Plus Re.Digit)) st'
                        (fun st3 =>
                           Re.run Re.no_flags Re.Eol st3 (@Some Re.mstate)))
               with
               | Some x => Some x
               | None => Re.run Re.no_flags Re.Eol st2 (@Some Re.mstate)
               end) = Some m) in Hrun.
  apply group_plus_sound in Hrun as (n & tl3 & p3 & Htl2 & Hn & Hdn & Hrun).
  cbn [Re.rest Re.groups] in Htl2, Hrun. subst tl2.
  assert (forall q t H m',
            Re.run Re.no_flags Re.Eol (Re.mkM q t H) (@Some Re.mstate) = Some m' ->
            (t = [] \/ t = [LF]) /\ Re.groups m' = H) as Hend.
  { intros q t H m' He. cbn [Re.run] in He.
    destruct (Re.at_eol Re.no_flags (Re.mkM q t H)) eqn:Heol; [|done].
    injection He as <-. split; [|done].
    unfold Re.at_eol in Heol. simpl in Heol.
    destruct t as [|c [|c' t]]; [by left| |].
    - rewrite andb_true_r in Heol. apply Ascii.eqb_eq in Heol as ->.
      by right.
    - by rewrite andb_false_r in Heol. }
  match type of Hrun with
  | match ?o with _ => _ end = _ => destruct o as [x|] eqn:Hdash
  end.
  - injection Hrun as ->.
    cbn [Re.run] in Hdash. cbn [Re.rest Re.prev Re.groups] in Hdash.
    destruct (Re.eat Re.no_flags _ p3 tl3) as [[p4 tl4]|] eqn:Heat; [|done].
    apply eat_exact in Heat. simpl in Heat. subst tl3.
    change (Re.run Re.no_flags (Re.Group (Re.Plus Re.Digit))
              (Re.mkM p4 tl4 (G ++ [n]))
              (fun st3 => Re.run Re.no_flags Re.Eol st3 (@Some Re.mstate))
            = Some m) in Hdash.
    apply group_plus_sound in Hdash as (d & tl5 & p5 & Htl4 & Hd & Hdd & Hrun).
    cbn [Re.rest Re.groups] in Htl4, Hrun. subst tl4.
    apply Hend in Hrun as [Hnl Hg].
    exists n, ("-"%char :: d), tl5, [n; d]. split; [done|].
    split; [done|]. split; [right; by exists d|]. split; [done|].
    by rewrite Hg, <- app_assoc.
  - apply Hend in Hrun as [Hnl Hg].
    exists n, [], tl3, [n]. split; [done|]. split; [done|].
    split; [by left|]. by split.
Qed.

Lemma ref_tail_complete p n range nl G :
  digits n ->
  (range = [] \/ exists d, range = "-"%char :: d /\ digits d) ->
  (nl = [] \/ nl = [LF]) ->
  exists m gs,
    Re.run Re.no_flags
      (Re.seq [Re.Lit ":"; Re.Group (Re.Plus Re.Digit);
               Re.Opt (Re.seq [Re.Lit "-"; Re.Group (Re.Plus Re.Digit)]);
               Re.Eol]) (Re.mkM p (":"%char :: n ++ range ++ nl) G) Some
    = Some m
    /\ Re.groups m = G ++ gs.
Proof.
  intros [Hn Hdn] Hrange Hnl. cbn [Re.seq].
  assert (forall q H,
            Re.run Re.no_flags Re.Eol (Re.mkM q nl H) (@Some Re.mstate)
            = Some (Re.mkM q nl H)) as Hend.
  { intros q H. cbn [Re.run]. unfold Re.at_eol. simpl.
    by destruct Hnl as [->| ->]. }
  assert (stops Re.Digit nl) as Hstop_nl.
  { by destruct Hnl as [->| ->]. }
  assert (forall q H, exists m gs,
            Re.run Re.no_flags
              (Re.Opt (Re.Seq (Re.Lit "-") (Re.Group (Re.Plus Re.Digit))))
              (Re.mkM q (range ++ nl) H)
              (fun st3 => Re.run Re.no_flags Re.Eol st3 (@Some Re.mstate))
            = Some m /\ Re.groups m = H ++ gs) as Hopt.
  { intros q H. destruct Hrange as [->|(d & -> & Hd & Hdd)].
    - change (Re.run Re.no_flags
                (Re.Opt (Re.Seq (Re.Lit "-") (Re.Group (Re.Plus Re.Digit))))
                (Re.mkM q ([] ++ nl) H)
                (fun st3 => Re.run Re.no_flags Re.Eol st3 (@Some Re.mstate)))
        with (match
                Re.run Re.no_flags (Re.Lit "-") (Re.mkM q nl H)
                  (fun st' =>
                     Re.run Re.no_flags (Re.Group (Re.Plus Re.Digit)) st'
                       (fun st3 =>
                          Re.run Re.no_flags Re.Eol st3 (@Some Re.mstate)))
              with
              | Some x => Some x
              | None =>
                  Re.run Re.no_flags Re.Eol (Re.mkM q nl H) (@Some Re.mstate)
              end).
      assert (Re.run Re.no_flags (Re.Lit "-") (Re.mkM q nl H)
                (fun st' =>
                   Re.run Re.no_flags (Re.Group (Re.Plus Re.Digit)) st'
                     (fun st3 =>
                        Re.run Re.no_flags Re.Eol st3 (@Some Re.mstate)))
              = None) as ->.
      { cbn [Re.run Re.rest Re.prev]. by destruct Hnl as [->| ->]. }
      rewrite Hend. exists (Re.mkM q nl H), []. by rewrite app_nil_r.
    - change (Re.run Re.no_flags
                (Re.Opt (Re.Seq (Re.Lit "-") (Re.Group (Re.Plus Re.Digit))))
                (Re.mkM q (("-"%char :: d) ++ nl) H)
                (fun st3 => Re.run Re.no_flags Re.Eol st3 (@Some Re.mstate)))
        with (match
                Re.run Re.no_flags (Re.Group (Re.Plus Re.Digit))
                  (Re.mkM (Some "-"%char) (d ++ nl) H)
                  (fun st3 => Re.run Re.no_flags Re.Eol st3 (@Some Re.mstate))
              with
              | Some x => Some x
              | None =>
                  Re.run Re.no_flags Re.Eol
                    (Re.mkM q (("-"%char :: d) ++ nl) H) (@Some Re.mstate)
              end).
      destruct (group_plus_complete Re.no_flags Re.Digit d nl (Some "-"%char) H
                  (fun st3 => Re.run Re.no_flags Re.Eol st3 (@Some Re.mstate))
                  Hd Hdd Hstop_nl) as (p' & ->).
      + intros p'. rewrite Hend. eauto.
      + rewrite Hend. eexists _, [d]. by split. }
  assert (stops Re.Digit (range ++ nl)) as Hstop.
  { destruct Hrange as [->|(d & -> & _)]; [done|]. reflexivity. }
  change (exists m gs,
            Re.run Re.no_flags (Re.Group (Re.Plus Re.Digit))
              (Re.mkM (Some ":"%char) (n ++ range ++ nl) G)
              (fun st2 =>
                 Re.run Re.no_flags
                   (Re.Opt (Re.Seq (Re.Lit "-") (Re.Group (Re.Plus Re.Digit))))
                   st2
                   (fun st3 => Re.run Re.no_flags Re.Eol st3 (@Some Re.mstate)))
            = Some m /\ Re.groups m = G ++ gs).
  destruct (group_plus_complete Re.no_flags Re.Digit n (range ++ nl)
              (Some ":"%char) G
              (fun st2 =>
                 Re.run Re.no_flags
                   (Re.Opt (Re.Seq (Re.Lit "-") (Re.Group (Re.Plus Re.Digit))))
                   st2
                   (fun st3 => Re.run Re.no_flags Re.Eol st3 (@Some Re.mstate)))
              Hn Hdn Hstop) as (p' & ->).
  - intros p'. destruct (Hopt p' (G ++ [n])) as (m & gs & -> & _). eauto.
  - destruct (Hopt p' (G ++ [n])) as (m & gs & -> & Hg).
    exists m, (n :: gs). split; [done|]. by rewrite Hg, <- app_assoc.
Qed.

Lemma ref_tail_needs_colon p t G :
  match t with [] => True | b :: _ => b <> ":"%char end ->
  Re.run Re.no_flags
    (Re.seq [Re.Lit ":"; Re.Group (Re.Plus Re.Digit);
             Re.Opt (Re.seq [Re.Lit "-"; Re.Group (Re.Plus Re.Digit)]);
             Re.Eol]) (Re.mkM p t G) (@Some Re.mstate) = None.
Proof.
  intros Ht. cbn [Re.seq Re.run]. cbn [Re.rest Re.prev].
  assert (Re.eat Re.no_flags (String.list_ascii_of_string ":") p t = None)
    as ->; [|done].
  destruct t as [|b t]; [done|].
  cbn [String.list_ascii_of_string Re.eat]. unfold Re.char_eq.
  cbn [Re.ignorecase Re.no_flags].
  destruct (Ascii.eqb ":" b) eqn:Hb; [|done].
  apply Ascii.eqb_eq in Hb. by subst.
Qed.

Lemma digit_not_colon b : isdigit b = true -> b <> ":"%char.
Proof. intros Hb ->. done. Qed.

Lemma dot_not_linefeed (g : chars) :
  Forall (fun a => Re.in_class Re.Dot a = true) g <-> LF ∉ g.
Proof.
  rewrite Forall_forall. split.
  - intros Hg Hin. specialize (Hg LF Hin). by vm_compute in Hg.
  - intros Hno a Ha. simpl. destruct (Ascii.eqb a LF) eqn:Heq; [|done].
    apply Ascii.eqb_eq in Heq. by subst.
Qed.

Lemma match_ref_sound s m :
  Re.match_ Re.no_flags Re.REF_RE s = Some m -> ref_shape s (Re.group 1 m).
Proof.
  unfold Re.match_, Re.REF_RE. cbn [Re.seq]. intros Hrun.
  change (Re.run Re.no_flags Re.Bol (Re.mkM None s [])
            (fun st0 =>
               Re.run Re.no_flags (Re.Group (Re.Plus Re.Dot)) st0
                 (fun st1 =>
                    Re.run Re.no_flags
                      (Re.seq [Re.Lit ":"; Re.Group (Re.Plus Re.Digit);
                               Re.Opt (Re.seq [Re.Lit "-";
                                               Re.Group (Re.Plus Re.Digit)]);
                               Re.Eol]) st1 (@Some Re.mstate))) = Some m)
    in Hrun.
  apply ParseFacts.bol_sound in Hrun.
  apply group_plus_sound in Hrun as (g & tl & p & Hs & Hg & Hdot & Hrun).
  cbn [Re.rest Re.groups app] in Hs, Hrun. subst s.
  apply ref_tail_sound in Hrun as (n & range & nl & gs & -> & Hn & Hr & Hnl & Hgs).
  unfold Re.group. rewrite Hgs. simpl.
  exists n, range, nl. split; [done|]. split; [done|].
  split; [by apply dot_not_linefeed|]. by split.
Qed.

Lemma match_ref_complete s path :
  ref_shape s path ->
  exists m, Re.match_ Re.no_flags Re.REF_RE s = Some m /\ Re.group 1 m = path.
Proof.
  intros (n & range & nl & -> & Hne & Hlf & Hn & Hrange & Hnl).
  set (rem := ":"%char :: n ++ range ++ nl).
  set (tailre := Re.seq [Re.Lit ":"; Re.Group (Re.Plus Re.Digit);
                        Re.Opt (Re.seq [Re.Lit "-"; Re.Group (Re.Plus Re.Digit)]);
                        Re.Eol]).
  destruct path as [|a path']; [done|].
  apply dot_not_linefeed in Hlf.
  inversion Hlf as [|? ? Ha Hpath']; subst.
  set (s := (a :: path') ++ rem).
  set (k := fun (p0 : option ascii) (s'0 : chars) =>
              Re.run Re.no_flags tailre
                (Re.mkM p0 s'0 ([] ++ [firstn (length s - length s'0) s]))
                (@Some Re.mstate)).
  assert (Re.match_ Re.no_flags Re.REF_RE s
          = Re.rep Re.Dot (Some a) (path' ++ rem) k) as Hmatch.
  { unfold Re.match_, Re.REF_RE. cbn [Re.seq].
    change (Re.run Re.no_flags (Re.Group (Re.Plus Re.Dot)) (Re.mkM None s [])
              (fun st1 => Re.run Re.no_flags tailre st1 (@Some Re.mstate))
            = Re.rep Re.Dot (Some a) (path' ++ rem) k).
    cbn [Re.run Re.rest Re.prev Re.groups]. unfold s at 1. simpl app at 1.
    cbv iota beta. rewrite Ha. reflexivity. }
  assert (Forall (fun b => b <> ":"%char) (n ++ range ++ nl)) as Hnocolon.
  { apply Forall_app. split.
    - destruct Hn as [_ Hdn]. eapply Forall_impl; [exact Hdn|].
      intros b. apply digit_not_colon.
    - apply Forall_app. split.
      + destruct Hrange as [->|(d & -> & _ & Hdd)]; [constructor|].
        constructor; [done|]. eapply Forall_impl; [exact Hdd|].
        intros b. apply digit_not_colon.
      + destruct Hnl as [->| ->]; [constructor|]. by repeat constructor. }
  destruct (rep_backoff Re.Dot path' (Some a) rem k Hpath')
    as (p' & Hrep).
  - intros p' t Ht Hneq. unfold k. apply ref_tail_needs_colon.
    destruct Ht as [pre Hpre]. unfold rem in Hpre.
    destruct pre as [|c pre]; [by simpl in Hpre; subst t|].
    simpl in Hpre. injection Hpre as _ Hpre.
    destruct t as [|b t]; [done|].
    rewrite Hpre in Hnocolon. apply Forall_app in Hnocolon as [_ Hb].
    by inversion Hb.
  - intros p'. unfold k, tailre, rem.
    destruct (ref_tail_complete p' n range nl
                ([] ++ [firstn (length s - length (":"%char :: n ++ range ++ nl)) s])
                Hn Hrange Hnl) as (m & gs & -> & _). eauto.
  - rewrite Hmatch, Hrep. unfold k, tailre, rem.
    destruct (ref_tail_complete p' n range nl
                ([] ++ [firstn (length s - length (":"%char :: n ++ range ++ nl)) s])
                Hn Hrange Hnl) as (m & gs & -> & Hg).
    exists m. split; [done|]. unfold Re.group. rewrite Hg.
    cbn [app Nat.sub nth]. unfold s. fold rem.
    apply (firstn_consumed (a :: path') rem).
Qed.

(** A string entry of [refs] is accepted exactly when it reads: a path
    that is not empty and holds no line feed, a colon, a number, and
    optionally a dash and a second number (one final line feed is let
    through).  The path is everything before the last colon; it is the path
    that is looked up, and only an INFO follows when it does not exist.
    Every other string gets the format ERROR. *)
Theorem ref_format_exact (w : world) (location : string) (report : Report)
    (ref : string) :
  (forall path,
      ref_shape (String.list_ascii_of_string ref) path ->
      check_ref w location report (JStr ref)
      = if negb (path_exists w (String.string_of_list_ascii path)) then
          ReportOps.info report
            ("Referenced path not found (non-blocking): "
             +:+ path_str w (String.string_of_list_ascii path)) location
        else report)
  /\ ((forall path, ~ ref_shape (String.list_ascii_of_string ref) path) ->
      check_ref w location report (JStr ref)
      = ReportOps.error report ("Invalid ref format `" +:+ ref +:+ "`")
          location)
  /\ ((exists path, ref_shape (String.list_ascii_of_string ref) path)
      \/ (forall path, ~ ref_shape (String.list_ascii_of_string ref) path)).
Proof.
  unfold check_ref. split; [|split].
  - intros path Hshape.
    destruct (match_ref_complete _ _ Hshape) as (m & -> & Hg).
    cbv zeta. by rewrite Hg.
  - intros Hno.
    destruct (Re.match_ _ _ _) as [m|] eqn:Hm; [|done].
    apply match_ref_sound in Hm. by destruct (Hno _ Hm).
  - destruct (Re.match_ Re.no_flags Re.REF_RE (String.list_ascii_of_string ref))
      as [m|] eqn:Hm.
    + left. exists (Re.group 1 m). by apply match_ref_sound.
    + right. intros path Hshape.
      destruct (match_ref_complete _ _ Hshape) as (m & Hm' & _). congruence.
Qed.

End RefFacts.

(** ** The order of Python's sets *)

Module OrderFacts.
Import Text Plan IssueSpec MoreSpec IssueFacts.

Lemma fold_check_task_report plan_path ids tasks : forall r e1 e2,
  fst (fold_left (check_task plan_path ids) tasks (r, e1))
  = fst (fold_left (check_task plan_path ids) tasks (r, e2)).
Proof.
  induction tasks as [|t tasks IH]; intros r e1 e2; [done|].
  cbn [fold_left].
  assert (fst (check_task plan_path ids (r, e1) t)
          = fst (check_task plan_path ids (r, e2) t)) as Hstep by reflexivity.
  destruct (check_task plan_path ids (r, e1) t) as [r1 e1'].
  destruct (check_task plan_path ids (r, e2) t) as [r2 e2'].
  simpl in Hstep. subst r2. apply IH.
Qed.

(** [check_tasks] with the report of its loop written without the set. *)
Lemma check_tasks_canonical set_iter plan_path tasks report :
  exists edges,
    (forall id, Cycle.edges_get edges id = task_deps tasks id)
    /\ check_tasks set_iter plan_path tasks report
       = (let* cycle :=
            Cycle.detect_cycle (set_iter (map task_id tasks)) edges in
          if Cycle.truthy cycle then
            Ok (ReportOps.error
                  (fst (fold_left (check_task plan_path (map task_id tasks))
                          tasks (report, ∅)))
                  ("Task dependency cycle detected: "
                   +:+ join " -> " (default [] cycle)) plan_path)
          else
            Ok (fst (fold_left (check_task plan_path (map task_id tasks))
                       tasks (report, ∅)))).
Proof.
  unfold check_tasks. cbv zeta.
  match goal with
  | |- context [fold_left (check_task plan_path ?ids) tasks (report, ?e0)] =>
      set (init := e0);
      pose proof (fold_check_task_report plan_path ids tasks report init ∅)
        as Hrep;
      pose proof (PlanFacts.fold_check_task_edges plan_path ids tasks report
                    init) as Hedges;
      destruct (fold_left (check_task plan_path ids) tasks (report, init))
        as [r1 edges]
  end.
  cbn [fst snd] in Hrep, Hedges. exists edges. rewrite <- Hrep.
  split; [|done].
  intros id. rewrite Hedges. unfold task_deps.
  destruct (task_last id tasks); [done|].
  apply initial_edges_empty.
  intros a. unfold Cycle.edges_get. by rewrite lookup_empty.
Qed.

Lemma cycle_reachable_ext (N1 N2 : list string) (E1 E2 : Graph.graph) :
  (forall x, x ∈ N1 -> x ∈ N2) ->
  (forall id, Cycle.edges_get E1 id = Cycle.edges_get E2 id) ->
  Graph.cycle_reachable N1 E1 -> Graph.cycle_reachable N2 E2.
Proof.
  intros HN HE (n & x & Hn & Hnx & Hx).
  assert (forall a b, Graph.edge E1 a b -> Graph.edge E2 a b) as Hedge.
  { intros a b. unfold Graph.edge. by rewrite HE. }
  exists n, x. split; [by apply HN|]. split.
  - by eapply rtc_subrel.
  - by apply (tc_congruence (fun a => a) (Graph.edge E2)) in Hx.
Qed.

(** The order in which Python iterates over the set of task ids can
    change one thing only in the report of the plan validator: the path
    named in the dependency-cycle message.  Two orders of the same set give
    the same findings, followed in both cases or in neither by one cycle
    ERROR. *)
Theorem plan_order_independent (set_iter1 set_iter2 : list string -> list string)
    (f : file string) (plan_path : string)
    (Hsame : forall l x, x ∈ set_iter1 l <-> x ∈ set_iter2 l) :
  exists common,
    (check_plan set_iter1 f plan_path = Ok (mkReport "plan" common)
     /\ check_plan set_iter2 f plan_path = Ok (mkReport "plan" common))
    \/ (exists c1 c2,
          check_plan set_iter1 f plan_path
          = Ok (mkReport "plan" (common ++ [task_cycle_finding plan_path c1]))
          /\ check_plan set_iter2 f plan_path
             = Ok (mkReport "plan"
                     (common ++ [task_cycle_finding plan_path c2]))).
Proof.
  unfold check_plan. destruct f as [| | |text];
    try (eexists; left; split; reflexivity).
  cbn [read_text]. cbv zeta.
  match goal with
  | |- context [fold_left ?g header_patterns ?init] =>
      assert (adds is_error (fun x => fold_left g header_patterns x)) as Hh;
      [apply adds_fold; intros [label pattern]; adds_solve; reflexivity|];
      set (r0 := fold_left g header_patterns init)
  end.
  assert (name r0 = "plan") as Hname0.
  { destruct (Hh (ReportOps.new "plan")) as (a0 & H0 & _).
    unfold r0. cbv beta in H0. by rewrite H0. }
  destruct (parse_tasks text) as [|t tasks] eqn:Htasks.
  - exists (findings (ReportOps.error r0 "No task section found (`### Task N:`)"
                       plan_path)).
    left. unfold ReportOps.error, ReportOps.add. rewrite Hname0. by split.
  - set (ts := t :: tasks).
    destruct (check_tasks_canonical set_iter1 plan_path ts r0)
      as (E1 & HE1 & ->).
    destruct (check_tasks_canonical set_iter2 plan_path ts r0)
      as (E2 & HE2 & ->).
    set (r1 := fst (fold_left (check_task plan_path (map task_id ts)) ts
                      (r0, ∅))).
    assert (name r1 = "plan") as Hname1.
    { destruct (PlanFacts.adds_pair_fold is_error
                  (check_task plan_path (map task_id ts)) ts
                  (PlanFacts.check_task_errors plan_path (map task_id ts))
                  r0 ∅) as (a & Ha & _).
      unfold r1. by rewrite Ha. }
    assert (r1 = mkReport "plan" (findings r1)) as Hr1.
    { destruct r1 as [n l]. simpl in Hname1. by subst. }
    assert (Graph.cycle_reachable (set_iter1 (map task_id ts)) E1
            <-> Graph.cycle_reachable (set_iter2 (map task_id ts)) E2)
      as Hreach.
    { split; apply cycle_reachable_ext.
      - intros x. apply Hsame.
      - intros id. by rewrite HE1, HE2.
      - intros x. apply Hsame.
      - intros id. by rewrite HE1, HE2. }
    destruct (CycleMore.detect_cycle_reach_spec (set_iter1 (map task_id ts)) E1)
      as (o1 & -> & Hpost1).
    destruct (CycleMore.detect_cycle_reach_spec (set_iter2 (map task_id ts)) E2)
      as (o2 & -> & Hpost2).
    cbn [bind]. exists (findings r1).
    assert (forall (N : list string) (E : Graph.graph) c,
              Graph.closed_walk E c /\
              (exists n x, n ∈ N /\ rtc (Graph.edge E) n x /\ head c = Some x) ->
              Graph.cycle_reachable N E) as Hcyc.
    { intros N E c (Hcw & n & x & Hn & Hnx & Hhd).
      exists n, x. repeat split; [done|done|].
      by eapply CycleFacts.closed_walk_cycle. }
    destruct o1 as [c1|], o2 as [c2|].
    + right. exists c1, c2.
      destruct Hpost1 as [Hcw1 Hr1']. destruct Hpost2 as [Hcw2 Hr2'].
      rewrite (CycleFacts.closed_walk_truthy E1 c1 Hcw1).
      rewrite (CycleFacts.closed_walk_truthy E2 c2 Hcw2).
      unfold ReportOps.error, ReportOps.add. rewrite Hname1. by split.
    + exfalso. apply Hpost2, Hreach. by eapply Hcyc.
    + exfalso. apply Hpost1, Hreach. by eapply Hcyc.
    + left. simpl. by rewrite <- Hr1.
Qed.

Lemma plan_order_independent_witness :
  exists common,
    (check_plan Samples.first_seen (Content Samples.self_dependent_plan)
       "plan.md" = Ok (mkReport "plan" common)
     /\ check_plan (fun l => rev (Samples.first_seen l))
          (Content Samples.self_dependent_plan) "plan.md"
        = Ok (mkReport "plan" common))
    \/ (exists c1 c2,
          check_plan Samples.first_seen (Content Samples.self_dependent_plan)
            "plan.md"
          = Ok (mkReport "plan" (common ++ [task_cycle_finding "plan.md" c1]))
          /\ check_plan (fun l => rev (Samples.first_seen l))
               (Content Samples.self_dependent_plan) "plan.md"
             = Ok (mkReport "plan"
                     (common ++ [task_cycle_finding "plan.md" c2]))).
Proof.
  apply (plan_order_independent Samples.first_seen
           (fun l => rev (Samples.first_seen l))).
  intros l x. rewrite !list_elem_of_In. apply in_rev.
Defined.

End OrderFacts.

(** ** The format of a task header *)

Module HeaderFacts.
Import Text Plan FieldSpec MoreSpec FieldFacts.

Lemma run_seq {R} fl r1 r2 st (k : Re.mstate -> option R) :
  Re.run fl (Re.Seq r1 r2) st k
  = Re.run fl r1 st (fun st' => Re.run fl r2 st' k).
Proof. reflexivity. Qed.

Lemma bol_complete {R} fl s G (k : Re.mstate -> option R) :
  Re.run fl Re.Bol (Re.mkM None s G) k = k (Re.mkM None s G).
Proof. reflexivity. Qed.

Lemma lit_exact {R} lit st (k : Re.mstate -> option R) res :
  Re.run Re.no_flags (Re.Lit lit) st k = Some res ->
  exists tl p,
    Re.rest st = String.list_ascii_of_string lit ++ tl
    /\ k (Re.mkM p tl (Re.groups st)) = Some res.
Proof.
  cbn [Re.run].
  destruct (Re.eat Re.no_flags _ _ _) as [[p s']|] eqn:Heat; [|done].
  apply RefFacts.eat_exact in Heat. eauto.
Qed.

Lemma lit_complete {R} lit p tl G (k : Re.mstate -> option R) :
  exists p',
    Re.run Re.no_flags (Re.Lit lit)
      (Re.mkM p (String.list_ascii_of_string lit ++ tl) G) k
    = k (Re.mkM p' tl G).
Proof.
  cbn [Re.run Re.rest Re.prev Re.groups].
  destruct (RefFacts.eat_same (String.list_ascii_of_string lit) p tl)
    as (p' & ->).
  by exists p'.
Qed.

Lemma plus_sound_rest {R} fl c st (k : Re.mstate -> option R) res :
  Re.run fl (Re.Plus c) st k = Some res ->
  exists ws tl p,
    Re.rest st = ws ++ tl /\ ws <> []
    /\ Forall (fun a => Re.in_class c a = true) ws
    /\ k (Re.mkM p tl (Re.groups st)) = Some res.
Proof.
  cbn [Re.run]. destruct (Re.rest st) as [|a s']; [done|].
  destruct (Re.in_class c a) eqn:Ha; [|done]. intros Hrun.
  apply rep_sound in Hrun as (ws & tl & p' & -> & Hws & Hk).
  exists (a :: ws), tl, p'. split; [done|]. split; [done|].
  split; [by constructor|done].
Qed.

Lemma plus_complete {R} fl c ws tl p G (k : Re.mstate -> option R) :
  ws <> [] -> Forall (fun a => Re.in_class c a = true) ws -> stops c tl ->
  (forall p', exists r, k (Re.mkM p' tl G) = Some r) ->
  exists p', Re.run fl (Re.Plus c) (Re.mkM p (ws ++ tl) G) k
             = k (Re.mkM p' tl G).
Proof.
  intros Hne Hws Hstop Hk. destruct ws as [|a ws]; [done|].
  inversion Hws as [|? ? Ha Hws']; subst.
  cbn [Re.run Re.rest Re.prev Re.groups app]. rewrite Ha.
  apply (rep_greedy c ws tl (Some a) (fun p0 s0 => k (Re.mkM p0 s0 G)));
    done.
Qed.

Lemma digit_not_space c : isdigit c = true -> isspace c = false.
Proof.
  destruct c as [[] [] [] [] [] [] [] []]; vm_compute; congruence.
Qed.

Lemma task_number_complete {R} id tl p G (k : Re.mstate -> option R) :
  dotted_decimal id ->
  (exists tl', tl = ":"%char :: tl') ->
  (forall p', exists r, k (Re.mkM p' tl (G ++ [id])) = Some r) ->
  exists p',
    Re.run Re.no_flags (Re.Group Re.task_number) (Re.mkM p (id ++ tl) G) k
    = k (Re.mkM p' tl (G ++ [id])).
Proof.
  intros (d1 & d2 & -> & Hne1 & Hd1 & Hd2) (tl' & ->) Hk.
  set (s := (d1 ++ d2) ++ ":"%char :: tl').
  set (K := fun st' : Re.mstate =>
         k (Re.mkM (Re.prev st') (Re.rest st')
              (Re.groups st'
               ++ [firstn (length s - length (Re.rest st')) s]))).
  assert (forall q, K (Re.mkM q (":"%char :: tl') G)
                    = k (Re.mkM q (":"%char :: tl') (G ++ [d1 ++ d2]))) as HK.
  { intros q. unfold K, s. cbn [Re.rest Re.prev Re.groups].
    by rewrite firstn_consumed. }
  change (exists p',
            Re.run Re.no_flags (Re.Plus Re.Digit) (Re.mkM p s G)
              (fun st1 =>
                 match
                   Re.run Re.no_flags (Re.Seq (Re.Lit ".") (Re.Plus Re.Digit))
                     st1 K
                 with
                 | Some x => Some x
                 | None => K st1
                 end)
            = k (Re.mkM p' (":"%char :: tl') (G ++ [d1 ++ d2]))).
  assert (s = d1 ++ d2 ++ ":"%char :: tl') as Hs.
  { unfold s. by rewrite <- app_assoc. }
  rewrite Hs. clearbody K. clear Hs s.
  assert (forall q, exists q',
            match
              Re.run Re.no_flags (Re.Seq (Re.Lit ".") (Re.Plus Re.Digit))
                (Re.mkM q (d2 ++ ":"%char :: tl') G) K
            with
            | Some x => Some x
            | None => K (Re.mkM q (d2 ++ ":"%char :: tl') G)
            end
            = k (Re.mkM q' (":"%char :: tl') (G ++ [d1 ++ d2]))) as Hcont.
  { intros q. destruct Hd2 as [->|(d & -> & Hne & Hd)].
    - cbn [app].
      assert (Re.run Re.no_flags (Re.Seq (Re.Lit ".") (Re.Plus Re.Digit))
                (Re.mkM q (":"%char :: tl') G) K = None) as ->
        by reflexivity.
      exists q. apply HK.
    - cbn [app]. rewrite run_seq.
      destruct (lit_complete "." q (d ++ ":"%char :: tl') G
                  (fun st' => Re.run Re.no_flags (Re.Plus Re.Digit) st' K))
        as (q1 & Hlit).
      cbn [String.list_ascii_of_string app] in Hlit. rewrite Hlit.
      destruct (plus_complete Re.no_flags Re.Digit d (":"%char :: tl') q1 G K
                  Hne Hd) as (q2 & ->).
      + reflexivity.
      + intros p'. rewrite HK. apply Hk.
      + exists q2. rewrite HK. by destruct (Hk q2) as (r & ->). }
  destruct (plus_complete Re.no_flags Re.Digit d1 (d2 ++ ":"%char :: tl') p G
              (fun st1 =>
                 match
                   Re.run Re.no_flags
                     (Re.Seq (Re.Lit ".") (Re.Plus Re.Digit)) st1 K
                 with
                 | Some x => Some x
                 | None => K st1
                 end) Hne1 Hd1) as (p' & ->).
  - destruct Hd2 as [->|(d & -> & _)]; reflexivity.
  - intros p'. destruct (Hcont p') as (q' & ->). apply Hk.
  - destruct (Hcont p') as (q' & ->). by exists q'.
Qed.

Lemma match_header_sound s m :
  Re.match_ Re.no_flags Re.TASK_HEADER_RE s = Some m ->
  header_shape s (Re.group 1 m) (Re.group 2 m).
Proof.
  unfold Re.match_, Re.TASK_HEADER_RE. cbn [Re.seq]. intros Hrun.
  rewrite run_seq in Hrun. apply ParseFacts.bol_sound in Hrun.
  rewrite run_seq in Hrun.
  apply lit_exact in Hrun as (tl0 & p0 & Hs & Hrun).
  cbn [Re.rest Re.groups] in Hs, Hrun. rewrite run_seq in Hrun.
  apply plus_sound_rest in Hrun as (ws1 & tl1 & p1 & H1 & Hne1 & Hws1 & Hrun).
  cbn [Re.rest Re.groups] in H1, Hrun. rewrite run_seq in Hrun.
  apply lit_exact in Hrun as (tl2 & p2 & H2 & Hrun).
  cbn [Re.rest Re.groups] in H2, Hrun. rewrite run_seq in Hrun.
  apply plus_sound_rest in Hrun as (ws2 & tl3 & p3 & H3 & Hne2 & Hws2 & Hrun).
  cbn [Re.rest Re.groups] in H3, Hrun. rewrite run_seq in Hrun.
  apply ParseFacts.task_number_group in Hrun as (id & tl4 & p4 & H4 & Hid & Hrun).
  cbn [Re.rest Re.groups app] in H4, Hrun. rewrite run_seq in Hrun.
  apply lit_exact in Hrun as (tl5 & p5 & H5 & Hrun).
  cbn [Re.rest Re.groups] in H5, Hrun. rewrite run_seq in Hrun.
  apply plus_sound_rest in Hrun as (ws3 & tl6 & p6 & H6 & Hne3 & Hws3 & Hrun).
  cbn [Re.rest Re.groups] in H6, Hrun. rewrite run_seq in Hrun.
  apply RefFacts.group_plus_sound in Hrun as (g & nl & p7 & H7 & Hg & Hdot & Hrun).
  cbn [Re.rest Re.groups app] in H7, Hrun.
  cbn [Re.run] in Hrun.
  destruct (Re.at_eol Re.no_flags _) eqn:Heol; [|done].
  injection Hrun as <-.
  assert (nl = [] \/ nl = [LF]) as Hnl.
  { unfold Re.at_eol in Heol. simpl in Heol.
    destruct nl as [|c [|c' t]]; [by left| |].
    - rewrite andb_true_r in Heol. apply Ascii.eqb_eq in Heol as ->.
      by right.
    - by rewrite andb_false_r in Heol. }
  unfold Re.group. simpl.
  exists ws1, ws2, ws3, nl. subst. simpl. split; [done|].
  split; [done|]. split; [done|]. split; [done|]. split; [done|].
  split; [done|]. split; [|done]. by apply RefFacts.dot_not_linefeed.
Qed.

Lemma match_header_complete s id g :
  header_shape s id g -> stops Re.Space g ->
  exists m,
    Re.match_ Re.no_flags Re.TASK_HEADER_RE s = Some m
    /\ Re.groups m = [id; g].
Proof.
  intros (ws1 & ws2 & ws3 & nl & -> & [Hne1 Hws1] & [Hne2 Hws2]
          & [Hne3 Hws3] & Hid & Hg & Hlf & Hnl) Hstop.
  apply RefFacts.dot_not_linefeed in Hlf.
  assert (forall p G,
            Re.run Re.no_flags Re.Eol (Re.mkM p nl G) (@Some Re.mstate)
            = Some (Re.mkM p nl G)) as C1.
  { intros p G. cbn [Re.run]. unfold Re.at_eol. simpl.
    by destruct Hnl as [->| ->]. }
  assert (stops Re.Dot nl) as Hstop_nl.
  { by destruct Hnl as [->| ->]. }
  assert (forall p G, exists p',
            Re.run Re.no_flags (Re.Seq (Re.Group (Re.Plus Re.Dot)) Re.Eol)
              (Re.mkM p (g ++ nl) G) (@Some Re.mstate)
            = Some (Re.mkM p' nl (G ++ [g]))) as C2.
  { intros p G. rewrite run_seq.
    destruct (RefFacts.group_plus_complete Re.no_flags Re.Dot g nl p G
                (fun st' => Re.run Re.no_flags Re.Eol st' (@Some Re.mstate))
                Hg Hlf Hstop_nl) as (p' & ->).
    - intros p'. rewrite C1. eauto.
    - exists p'. apply C1. }
  assert (stops Re.Space (g ++ nl)) as Hstop3.
  { destruct g as [|c g']; [done|]. exact Hstop. }
  assert (forall p G, exists p',
            Re.run Re.no_flags
              (Re.Seq (Re.Plus Re.Space)
                 (Re.Seq (Re.Group (Re.Plus Re.Dot)) Re.Eol))
              (Re.mkM p (ws3 ++ g ++ nl) G) (@Some Re.mstate)
            = Some (Re.mkM p' nl (G ++ [g]))) as C3.
  { intros p G. rewrite run_seq.
    destruct (plus_complete Re.no_flags Re.Space ws3 (g ++ nl) p G
                (fun st' =>
                   Re.run Re.no_flags
                     (Re.Seq (Re.Group (Re.Plus Re.Dot)) Re.Eol) st'
                     (@Some Re.mstate)) Hne3 Hws3 Hstop3) as (p' & ->).
    - intros p'. destruct (C2 p' G) as (q & ->). eauto.
    - apply C2. }
  set (T3 := Re.Seq (Re.Plus Re.Space)
               (Re.Seq (Re.Group (Re.Plus Re.Dot)) Re.Eol)) in *.
  assert (forall p G, exists p',
            Re.run Re.no_flags (Re.Seq (Re.Lit ":") T3)
              (Re.mkM p (":"%char :: ws3 ++ g ++ nl) G) (@Some Re.mstate)
            = Some (Re.mkM p' nl (G ++ [g]))) as C4.
  { intros p G. rewrite run_seq.
    destruct (lit_complete ":" p (ws3 ++ g ++ nl) G
                (fun st' => Re.run Re.no_flags T3 st' (@Some Re.mstate)))
      as (p' & Hlit).
    cbn [String.list_ascii_of_string app] in Hlit. rewrite Hlit. apply C3. }
  set (T4 := Re.Seq (Re.Lit ":") T3) in *.
  assert (forall p G, exists p',
            Re.run Re.no_flags (Re.Seq (Re.Group Re.task_number) T4)
              (Re.mkM p (id ++ ":"%char :: ws3 ++ g ++ nl) G)
              (@Some Re.mstate)
            = Some (Re.mkM p' nl ((G ++ [id]) ++ [g]))) as C5.
  { intros p G. rewrite run_seq.
    destruct (task_number_complete id (":"%char :: ws3 ++ g ++ nl) p G
                (fun st' => Re.run Re.no_flags T4 st' (@Some Re.mstate)) Hid)
      as (p' & ->).
    - eauto.
    - intros p'. destruct (C4 p' (G ++ [id])) as (q & ->). eauto.
    - apply C4. }
  set (T5 := Re.Seq (Re.Group Re.task_number) T4) in *.
  set (rest5 := id ++ ":"%char :: ws3 ++ g ++ nl) in *.
  assert (stops Re.Space rest5) as Hstop5.
  { unfold rest5. destruct Hid as (d1 & d2 & -> & Hd1 & Hdig & _).
    destruct d1 as [|c d1]; [done|]. simpl.
    inversion Hdig; subst. by apply digit_not_space. }
  assert (forall p G, exists p',
            Re.run Re.no_flags (Re.Seq (Re.Plus Re.Space) T5)
              (Re.mkM p (ws2 ++ rest5) G) (@Some Re.mstate)
            = Some (Re.mkM p' nl ((G ++ [id]) ++ [g]))) as C6.
  { intros p G. rewrite run_seq.
    destruct (plus_complete Re.no_flags Re.Space ws2 rest5 p G
                (fun st' => Re.run Re.no_flags T5 st' (@Some Re.mstate))
                Hne2 Hws2 Hstop5) as (p' & ->).
    - intros p'. destruct (C5 p' G) as (q & ->). eauto.
    - apply C5. }
  set (T6 := Re.Seq (Re.Plus Re.Space) T5) in *.
  assert (forall p G, exists p',
            Re.run Re.no_flags (Re.Seq (Re.Lit "Task") T6)
              (Re.mkM p (String.list_ascii_of_string "Task" ++ ws2 ++ rest5) G)
              (@Some Re.mstate)
            = Some (Re.mkM p' nl ((G ++ [id]) ++ [g]))) as C7.
  { intros p G. rewrite run_seq.
    destruct (lit_complete "Task" p (ws2 ++ rest5) G
                (fun st' => Re.run Re.no_flags T6 st' (@Some Re.mstate)))
      as (p' & ->).
    apply C6. }
  set (T7 := Re.Seq (Re.Lit "Task") T6) in *.
  set (rest7 := String.list_ascii_of_string "Task" ++ ws2 ++ rest5) in *.
  assert (forall p G, exists p',
            Re.run Re.no_flags (Re.Seq (Re.Plus Re.Space) T7)
              (Re.mkM p (ws1 ++ rest7) G) (@Some Re.mstate)
            = Some (Re.mkM p' nl ((G ++ [id]) ++ [g]))) as C8.
  { intros p G. rewrite run_seq.
    destruct (plus_complete Re.no_flags Re.Space ws1 rest7 p G
                (fun st' => Re.run Re.no_flags T7 st' (@Some Re.mstate))
                Hne1 Hws1) as (p' & ->).
    - reflexivity.
    - intros p'. destruct (C7 p' G) as (q & ->). eauto.
    - apply C7. }
  set (T8 := Re.Seq (Re.Plus Re.Space) T7) in *.
  destruct (lit_complete "###" None (ws1 ++ rest7) []
              (fun st' => Re.run Re.no_flags T8 st' (@Some Re.mstate)))
    as (p' & Hlit).
  destruct (C8 p' []) as (q & HC8).
  exists (Re.mkM q nl [id; g]). split; [|done].
  unfold Re.match_, Re.TASK_HEADER_RE. cbn [Re.seq].
  fold T3 T4 T5 T6 T7 T8.
  rewrite run_seq, bol_complete, run_seq.
  fold rest5 rest7. rewrite Hlit. exact HC8.
Qed.

(** A line is a task header exactly when its stripped text reads: [###],
    whitespace, [Task], whitespace, a task number, a colon, whitespace and
    a text without line feed; the title is that text, stripped. *)
Theorem header_of_exact (line : string) :
  (forall id g,
      header_shape (String.list_ascii_of_string (strip line)) id g ->
      strip_chars g <> [] ->
      header_of line
      = Some (String.string_of_list_ascii id,
              String.string_of_list_ascii (strip_chars g)))
  /\ (forall id title,
        header_of line = Some (id, title) ->
        exists g,
          header_shape (String.list_ascii_of_string (strip line))
            (String.list_ascii_of_string id) g
          /\ title = String.string_of_list_ascii (strip_chars g)).
Proof.
  unfold header_of. split.
  - intros id g (ws1 & ws2 & ws3 & nl & Hs & H1 & H2 & [Hne3 Hws3] & Hid
                 & Hg & Hlf & Hnl) Hstrip.
    destruct (lstrip_split g) as (ws & Hsplit & Hws & Hhead).
    assert (lstrip_chars g <> []) as Hne.
    { intros Hnil. apply Hstrip. unfold strip_chars. rewrite Hnil.
      apply rstrip_nil. }
    destruct (match_header_complete
                (String.list_ascii_of_string (strip line)) id (lstrip_chars g))
      as (m & -> & Hgroups).
    + exists ws1, ws2, (ws3 ++ ws), nl. split.
      { rewrite Hs. rewrite Hsplit at 1. by rewrite <- !app_assoc. }
      split; [done|]. split; [done|]. split.
      { split; [by destruct ws3|]. by apply Forall_app. }
      split; [done|]. split; [done|]. split; [|done].
      intros Hin. apply Hlf. rewrite Hsplit. apply elem_of_app. by right.
    + unfold stops. destruct (lstrip_chars g); [done|]. exact Hhead.
    + unfold Re.group. rewrite Hgroups. simpl. by rewrite strip_lstrip.
  - intros id title Hh.
    destruct (Re.match_ _ _ _) as [m|] eqn:Hm; [|done].
    injection Hh as <- <-. exists (Re.group 2 m).
    rewrite String.list_ascii_of_string_of_list_ascii.
    split; [by apply match_header_sound|done].
Qed.

End HeaderFacts.
